(** * snakecord: gateway framing, handshake, heartbeat, snowflakes and the
      REST rate limiter

    A shallow embedding of the parts of [snakecord/connection.py],
    [snakecord/utils.py] and [lib/rest.py] that carry the protocol logic,
    with the properties the specification states about them.

    Conventions.
    - A Python [int] is a [Z]; a byte is a [Z] (the source keeps bytes in
      [bytearray]s and indexes them as ints).
    - [bytes]/[bytearray] buffers are [list Z]; header text is [string].
    - An exception is a [None] or an [inr] carrying the exception.
    - A finite [float] is kept as the rational it is.  The quotients and
      sums of floats that the properties depend on (the timestamp of a
      snowflake, the reset time after a 429) are rounded as binary64
      rounds, see [Float]; elapsed times in the rate limiter are exact.
    - Coroutines are cut at their [await]s: each segment between two
      suspension points is one atomic transition of the event loop. *)

From Stdlib Require Import ZArith List Bool Lia String Ascii QArith Lqa
  Qround Qpower Qabs.
From stdpp Require Import base option list gmap strings.

Local Open Scope Z_scope.

(** ** Python helpers *)

Module Py.

(** [l[a:b]] with Python's index normalisation (negative indices count
    from the end, everything is clamped to the buffer). *)
Definition norm_index (len i : Z) : Z :=
  if i <? 0 then Z.max 0 (i + len) else Z.min i len.

Definition slice {A} (l : list A) (a b : Z) : list A :=
  let len := Z.of_nat (length l) in
  let a' := norm_index len a in
  let b' := norm_index len b in
  take (Z.to_nat (b' - a')) (drop (Z.to_nat a') l).

(** [n.to_bytes(size, 'big', signed=False)]; [None] is OverflowError. *)
Fixpoint to_bytes_big (size : nat) (n : Z) : list Z :=
  match size with
  | O => []
  | S k => Z.land (Z.shiftr n (8 * Z.of_nat k)) 255 :: to_bytes_big k n
  end.

Definition to_bytes (n : Z) (size : nat) : option (list Z) :=
  if (0 <=? n) && (n <? 256 ^ Z.of_nat size)
  then Some (to_bytes_big size n) else None.

(** [int.from_bytes(b, 'big', signed=False)]. *)
Definition from_bytes (b : list Z) : Z :=
  fold_left (fun acc x => acc * 256 + x) b 0.

(** [int.bit_length()]: the number of bits of the absolute value. *)
Definition bit_length (n : Z) : Z :=
  if n =? 0 then 0 else Z.log2 (Z.abs n) + 1.

End Py.

(** ** connection.py: WebsocketFrame *)

Inductive WebsocketOpcode := CONT | TEXT | BINARY | CLOSE | PING | PONG.

Definition opcode_value (o : WebsocketOpcode) : Z :=
  match o with
  | CONT => 0x00 | TEXT => 0x01 | BINARY => 0x02
  | CLOSE => 0x08 | PING => 0x09 | PONG => 0x0A
  end.

Module WebsocketFrame.

Definition get_fin (byte : Z) : Z := Z.land byte 0x80.
Definition get_rsv1 (byte : Z) : Z := Z.land byte 0x40.
Definition get_rsv2 (byte : Z) : Z := Z.land byte 0x20.
Definition get_rsv3 (byte : Z) : Z := Z.land byte 0x10.
Definition get_opcode (byte : Z) : Z := Z.land byte 0x0F.
Definition get_mask (byte : Z) : Z := Z.land byte 0x80.
Definition get_length (byte : Z) : Z := Z.land byte 0x7F.

(** [for i in range(len(data)): data[i] ^= mask[i % 4]], the buffer updated
    in place index by index; [None] is the IndexError of a short mask. *)
Fixpoint apply_mask_loop (mask : list Z) (range : list nat) (data : list Z)
  : option (list Z) :=
  match range with
  | [] => Some data
  | i :: rest =>
      match mask !! (i mod 4)%nat, data !! i with
      | Some m, Some x => apply_mask_loop mask rest (<[i := Z.lxor x m]> data)
      | _, _ => None
      end
  end.

Definition apply_mask (mask data : list Z) : option (list Z) :=
  apply_mask_loop mask (seq 0 (length data)) data.

Definition set_bit (flag : bool) (byte bit : Z) : Z :=
  if flag then Z.lor byte bit else byte.

(** [create_frame]; [urandom] stands for the four bytes [os.urandom(4)]
    returns.  [None] is the OverflowError of [to_bytes]. *)
Definition create_frame (data : list Z) (opcode : WebsocketOpcode)
    (fin rsv1 rsv2 rsv3 masked : bool) (urandom : list Z)
  : option (list Z) :=
  let b0 := 0 in
  let b1 := 0 in
  let b0 := set_bit fin b0 0x80 in
  let b0 := set_bit rsv1 b0 0x40 in
  let b0 := set_bit rsv2 b0 0x20 in
  let b0 := set_bit rsv3 b0 0x10 in
  let b0 := Z.lor b0 (opcode_value opcode) in
  let b1 := set_bit masked b1 0x80 in
  let length := Z.of_nat (length data) in
  let header :=
    if length <=? 125 then Some [b0; Z.lor b1 length]
    else if length <=? 0xFFFF
      then ext ← Py.to_bytes length 2; Some ([b0; Z.lor b1 126] ++ ext)
      else ext ← Py.to_bytes length 8; Some ([b0; Z.lor b1 127] ++ ext) in
  buffer ← header;
  if masked
  then data' ← apply_mask urandom data; Some (buffer ++ urandom ++ data')
  else Some (buffer ++ data).

End WebsocketFrame.

(** ** connection.py: WebsocketProtocol, the receive state machine *)

Inductive WebsocketProtocolState :=
  WAITING_FBYTE | WAITING_SBYTE | WAITING_LENGTH | WAITING_DATA.

Module WebsocketProtocol.

Import WebsocketFrame.

(** The frame under construction.  The source sets these attributes on a
    bare [WebsocketFrame()] as it goes; every one is written before it is
    read, so a fresh frame carries placeholders. *)
Record frame := Frame {
  fbyte : Z;
  sbyte : Z;
  frame_length : Z;
  length_buffer : list Z;
  bytes_needed : Z;
  frame_data : list Z }.

Definition new_frame : frame := Frame 0 0 0 [] 0 [].

Record protocol := Protocol {
  state : WebsocketProtocolState;
  cur : frame }.

Definition initial : protocol := Protocol WAITING_FBYTE new_frame.

Definition is_state (p : protocol) (s : WebsocketProtocolState) : bool :=
  match state p, s with
  | WAITING_FBYTE, WAITING_FBYTE | WAITING_SBYTE, WAITING_SBYTE
  | WAITING_LENGTH, WAITING_LENGTH | WAITING_DATA, WAITING_DATA => true
  | _, _ => false
  end.

(** [cstruct.UnsignedShort.size] and [cstruct.UnsignedLongLong.size]:
    [struct.calcsize('H')] and [struct.calcsize('Q')]. *)
Definition UnsignedShort_size : Z := 2.
Definition UnsignedLongLong_size : Z := 8.

Definition on_fbyte (d : list Z) (position : nat) (p : protocol)
  : nat * protocol :=
  if is_state p WAITING_FBYTE then
    let f := cur p in
    let f := Frame (nth position d 0) (sbyte f) (frame_length f)
                   (length_buffer f) (bytes_needed f) (frame_data f) in
    (S position, Protocol WAITING_SBYTE f)
  else (position, p).

Definition on_sbyte (d : list Z) (position : nat) (p : protocol)
  : nat * protocol :=
  if is_state p WAITING_SBYTE then
    let f := cur p in
    let sb := nth position d 0 in
    let len := get_length sb in
    let position := S position in
    if 125 <? len then
      let needed :=
        if len =? 126 then UnsignedShort_size
        else if len =? 127 then UnsignedLongLong_size
        else bytes_needed f in
      (position,
       Protocol WAITING_LENGTH (Frame (fbyte f) sb len [] needed []))
    else
      (position,
       Protocol WAITING_DATA
         (Frame (fbyte f) sb len (length_buffer f) len []))
  else (position, p).

Definition on_length (d : list Z) (position : nat) (p : protocol)
  : nat * protocol :=
  if is_state p WAITING_LENGTH then
    let f := cur p in
    let length_bytes :=
      Py.slice d (Z.of_nat position) (Z.of_nat position + bytes_needed f) in
    let position := (position + length length_bytes)%nat in
    let needed := bytes_needed f - Z.of_nat (length length_bytes) in
    let buf := length_buffer f ++ length_bytes in
    if needed =? 0 then
      let len := Py.from_bytes buf in
      (position,
       Protocol WAITING_DATA
         (Frame (fbyte f) (sbyte f) len buf len (frame_data f)))
    else
      (position,
       Protocol WAITING_LENGTH
         (Frame (fbyte f) (sbyte f) (frame_length f) buf needed
                (frame_data f)))
  else (position, p).

(** The last block also pushes the finished frame as a [ws_frame_receive]
    event; [out] collects the pushed frames in order. *)
Definition on_data (d : list Z) (position : nat) (p : protocol)
    (out : list frame) : nat * protocol * list frame :=
  if is_state p WAITING_DATA then
    let f := cur p in
    let data_bytes :=
      Py.slice d (Z.of_nat position) (Z.of_nat position + bytes_needed f) in
    let position := (position + length data_bytes)%nat in
    let needed := bytes_needed f - Z.of_nat (length data_bytes) in
    let f := Frame (fbyte f) (sbyte f) (frame_length f) (length_buffer f)
                   needed (frame_data f ++ data_bytes) in
    if needed =? 0 then
      (position, Protocol WAITING_FBYTE new_frame, out ++ [f])
    else (position, Protocol WAITING_DATA f, out)
  else (position, p, out).

(** The [while True] loop of [create_frames]; one unit of fuel per
    iteration, [None] when the fuel runs out. *)
Fixpoint create_frames_loop (fuel : nat) (d : list Z) (position : nat)
    (p : protocol) (out : list frame) : option (protocol * list frame) :=
  match fuel with
  | O => None
  | S fuel =>
      if (length d <=? position)%nat then Some (p, out) else
      let '(position, p) := on_fbyte d position p in
      if (length d <=? position)%nat then Some (p, out) else
      let '(position, p) := on_sbyte d position p in
      if (length d <=? position)%nat then Some (p, out) else
      let '(position, p) := on_length d position p in
      if (length d <=? position)%nat then Some (p, out) else
      let '(position, p, out) := on_data d position p out in
      if (length d <=? position)%nat then Some (p, out) else
      create_frames_loop fuel d position p out
  end.

(** Every iteration but one that only closes an empty frame consumes a
    byte, so twice the input length (plus one) bounds the iterations. *)
Definition create_frames (d : list Z) (p : protocol)
  : option (protocol * list frame) :=
  create_frames_loop (2 * length d + 1) d 0 p [].

End WebsocketProtocol.

(** ** Byte strings of the HTTP upgrade response *)

Module Bytes.

Local Open Scope string_scope.
Local Open Scope nat_scope.

Definition CR : ascii := ascii_of_nat 13.
Definition LF : ascii := ascii_of_nat 10.
Definition CRLF : string := String CR (String LF EmptyString).

Fixpoint skip (n : nat) (s : string) : string :=
  match n, s with
  | O, _ => s
  | S n, String _ s => skip n s
  | S _, EmptyString => EmptyString
  end.

Fixpoint keep (n : nat) (s : string) : string :=
  match n, s with
  | S n, String c s => String c (keep n s)
  | _, _ => EmptyString
  end.

(** [s[a:b]] for [0 <= a <= b]. *)
Definition slice (s : string) (a b : nat) : string := keep (b - a) (skip a s).

(** Position of the first occurrence of [sub] in [s]. *)
Fixpoint find (sub s : string) : option nat :=
  if String.prefix sub s then Some 0
  else match s with
       | EmptyString => None
       | String _ s => option_map S (find sub s)
       end.

(** [s.index(sub, start)]; [None] is ValueError. *)
Definition index (s sub : string) (start : nat) : option nat :=
  if (String.length s <? start)%nat then None
  else option_map (fun i => start + i) (find sub (skip start s)).

(** [s.split(sep, 1)] for a one-byte separator. *)
Fixpoint split_once (sep : ascii) (s : string) : list string :=
  match s with
  | EmptyString => [EmptyString]
  | String c s =>
      if Ascii.eqb c sep then [EmptyString; s]
      else match split_once sep s with
           | h :: t => String c h :: t
           | [] => []
           end
  end.

(** [s.split(sep)] for a one-byte separator. *)
Fixpoint split (sep : ascii) (s : string) : list string :=
  match s with
  | EmptyString => [EmptyString]
  | String c s =>
      if Ascii.eqb c sep then EmptyString :: split sep s
      else match split sep s with
           | h :: t => String c h :: t
           | [] => []
           end
  end.

(** The bytes [bytes.strip()] removes: space, TAB, LF, VT, FF, CR. *)
Definition is_space (c : ascii) : bool :=
  let n := nat_of_ascii c in
  ((n =? 32) || ((9 <=? n) && (n <=? 13)))%nat.

Fixpoint lstrip (s : string) : string :=
  match s with
  | String c s' => if is_space c then lstrip s' else s
  | EmptyString => EmptyString
  end.

Fixpoint rstrip (s : string) : string :=
  match s with
  | EmptyString => EmptyString
  | String c s' =>
      match rstrip s' with
      | EmptyString => if is_space c then EmptyString
                       else String c EmptyString
      | r => String c r
      end
  end.

Definition strip (s : string) : string := rstrip (lstrip s).

Definition lower_byte (c : ascii) : ascii :=
  let n := nat_of_ascii c in
  if ((65 <=? n) && (n <=? 90))%nat then ascii_of_nat (n + 32) else c.

Fixpoint lower (s : string) : string :=
  match s with
  | EmptyString => EmptyString
  | String c s => String (lower_byte c) (lower s)
  end.

End Bytes.

(** ** connection.py: the upgrade handshake of BaseConnection.connect *)

Module Handshake.

Local Open Scope string_scope.
Local Open Scope nat_scope.

(** A positional argument of the exception: an int or a str. *)
Inductive value := VInt (n : Z) | VStr (s : string).

Inductive exn :=
| BadWsHttpResponse (field : string) (expected got : value)
| ValueError
| IndexError
| AttributeError
| RuntimeError
| UnicodeDecodeError.

Inductive result (A : Type) := Ok (a : A) | Raise (e : exn).
Arguments Ok {A} a.
Arguments Raise {A} e.

(** One resumption of the generator [iter_headers], from [offset]. *)
Inductive generated :=
| Yield (item : list string) (offset : nat)
| Return
| Throw (e : exn).

Definition iter_headers_next (headers : string) (offset : nat) : generated :=
  match Bytes.index headers Bytes.CRLF offset with
  | None => Throw ValueError
  | Some i =>
      let index := i + 2 in
      let data := Bytes.slice headers offset index in
      if String.eqb data Bytes.CRLF then Return
      else Yield (map (fun v => Bytes.lower (Bytes.strip v))
                      (Bytes.split_once ":" data)) index
  end.

(** [dict(headers)] on the rest of the generator: every item must be a
    pair, a later key overwrites an earlier one.  One unit of fuel per
    item; [None] when it runs out. *)
Fixpoint dict_of_headers (fuel : nat) (headers : string) (offset : nat)
    (acc : gmap string string) : option (result (gmap string string)) :=
  match fuel with
  | O => None
  | S fuel =>
      match iter_headers_next headers offset with
      | Return => Some (Ok acc)
      | Throw e => Some (Raise e)
      | Yield [k; v] offset => dict_of_headers fuel headers offset (<[k := v]> acc)
      | Yield _ _ => Some (Raise ValueError)
      end
  end.

Section Connect.

(** [bytes.decode()] and [int(str)] are Python built-ins; [None] is
    UnicodeDecodeError, respectively ValueError. *)
Variable decode : string -> option string.
Variable int : string -> option Z.

Definition SWITCHING_PROTOCOLS : Z := 101.

(** What [connect] does once [have_headers] is set, on the header bytes
    the protocol has stored. *)
Definition connect (headers : string) : option (result unit) :=
  match iter_headers_next headers 0 with
  | Return => Some (Raise RuntimeError)
  | Throw e => Some (Raise e)
  | Yield [status] offset =>
      match nth_error (Bytes.split " " status) 1 with
      | None => Some (Raise IndexError)
      | Some code =>
          match decode code with
          | None => Some (Raise UnicodeDecodeError)
          | Some status_code =>
              match int status_code with
              | None => Some (Raise ValueError)
              | Some n =>
                  if negb (n =? SWITCHING_PROTOCOLS)%Z then
                    Some (Raise (BadWsHttpResponse "status code"
                                   (VInt SWITCHING_PROTOCOLS)
                                   (VStr status_code)))
                  else
                    match dict_of_headers (S (String.length headers))
                            headers offset ∅ with
                    | None => None
                    | Some (Raise e) => Some (Raise e)
                    | Some (Ok headers) =>
                        match headers !! "connection" with
                        | None => Some (Raise AttributeError)
                        | Some c =>
                            match decode c with
                            | None => Some (Raise UnicodeDecodeError)
                            | Some connection =>
                                if negb (String.eqb connection "upgrade") then
                                  Some (Raise (BadWsHttpResponse "connection"
                                                 (VStr "upgrade")
                                                 (VStr connection)))
                                else
                                  match headers !! "upgrade" with
                                  | None => Some (Raise AttributeError)
                                  | Some u =>
                                      match decode u with
                                      | None => Some (Raise UnicodeDecodeError)
                                      | Some upgrade =>
                                          if negb (String.eqb upgrade "websocket")
                                          then Some (Raise (BadWsHttpResponse
                                                 "upgrade" (VStr "websocket")
                                                 (VStr upgrade)))
                                          else Some (Ok tt)
                                      end
                                  end
                            end
                        end
                    end
              end
          end
      end
  | Yield _ _ => Some (Raise ValueError)
  end.

End Connect.

(** The built-ins on plain input: ASCII bytes decode to themselves, a
    non-empty run of decimal digits is its number. *)
Definition ascii_decode (b : string) : option string :=
  if forallb (fun c => nat_of_ascii c <? 128) (list_ascii_of_string b)
  then Some b else None.

Definition digit (c : ascii) : option Z :=
  let n := nat_of_ascii c in
  if (48 <=? n) && (n <=? 57) then Some (Z.of_nat (n - 48)) else None.

Fixpoint decimal_digits (acc : Z) (s : string) : option Z :=
  match s with
  | EmptyString => Some acc
  | String c s =>
      match digit c with
      | Some d => decimal_digits (acc * 10 + d)%Z s
      | None => None
      end
  end.

Definition decimal_int (s : string) : option Z :=
  match s with
  | EmptyString => None
  | _ => decimal_digits 0 s
  end.

End Handshake.

(** ** Numbers that start out as [float('inf')] *)

Inductive number (A : Type) := Inf | Fin (a : A).
Arguments Inf {A}.
Arguments Fin {A} a.

Definition is_inf {A} (x : number A) : bool :=
  match x with Inf => true | Fin _ => false end.

(** ** connection.py: HeartbeatHandler *)

Module HeartbeatHandler.

(** The handle [loop.call_later] returns. *)
Inductive handle := Pending | Fired | Cancelled.

Record handler := Handler {
  heartbeat_interval : number Q;
  heartbeats_sent : Z;
  heartbeats_acked : Z;
  last_sent : number Q;
  last_acked : number Q;
  current_handle : option handle;
  stopped : bool }.

(** The handler with what it does to its connection: the heartbeat
    payloads handed to [send_json], the [connection_stale] events pushed,
    and whether a [send_heartbeat] coroutine is suspended in [wait_ack]. *)
Record shard := Shard {
  hb : handler;
  payloads_sent : nat;
  stale_events : nat;
  awaiting_ack : bool }.

(** [__init__]. *)
Definition init : handler := Handler Inf 0 0 Inf Inf None false.

Definition fresh : shard := Shard init 0 0 false.

(** [stop]. *)
Definition stop (h : handler) : handler :=
  Handler (heartbeat_interval h) (heartbeats_sent h) (heartbeats_acked h)
          (last_sent h) (last_acked h)
          (match current_handle h with
           | Some _ => Some Cancelled
           | None => None
           end)
          true.

(** [do_heartbeat]: arm the timer unless stopped. *)
Definition do_heartbeat (h : handler) : handler :=
  if stopped h then h
  else Handler (heartbeat_interval h) (heartbeats_sent h)
               (heartbeats_acked h) (last_sent h) (last_acked h)
               (Some Pending) (stopped h).

(** [send_heartbeat] up to its [await self.wait_ack()]. *)
Definition send_heartbeat (now : Q) (s : shard) : shard :=
  let h := hb s in
  if stopped h then s
  else
    Shard (Handler (heartbeat_interval h) (heartbeats_sent h)
                   (heartbeats_acked h) (Fin now) (last_acked h)
                   (current_handle h) (stopped h))
          (S (payloads_sent s)) (stale_events s) true.

(** [wait_ack] when [heartbeat_ack] arrives, then the [do_heartbeat] that
    ends [send_heartbeat]. *)
Definition wait_ack_acked (now : Q) (s : shard) : shard :=
  let h := hb s in
  let h := Handler (heartbeat_interval h) (heartbeats_sent h)
                   (heartbeats_acked h + 1) (last_sent h) (Fin now)
                   (current_handle h) (stopped h) in
  Shard (do_heartbeat h) (payloads_sent s) (stale_events s) false.

(** [wait_ack] on [asyncio.TimeoutError], then the same [do_heartbeat]. *)
Definition wait_ack_timeout (s : shard) : shard :=
  let h := stop (hb s) in
  Shard (do_heartbeat h) (payloads_sent s) (S (stale_events s)) false.

(** What the event loop can do to a shard's heartbeat. *)
Inductive event :=
| Start (now : Q)        (* [start()]: the first [send_heartbeat] runs *)
| TimerFires (now : Q)   (* the [call_later] callback runs [send_heartbeat] *)
| Ack (now : Q)          (* [heartbeat_ack] within the timeout *)
| AckTimeout             (* no ack within the timeout *)
| Stop.                  (* [stop()] from outside *)

Definition mark_fired (h : handler) : handler :=
  Handler (heartbeat_interval h) (heartbeats_sent h) (heartbeats_acked h)
          (last_sent h) (last_acked h) (Some Fired) (stopped h).

Definition step (e : event) (s : shard) : option shard :=
  match e with
  | Start now => Some (send_heartbeat now s)
  | TimerFires now =>
      match current_handle (hb s) with
      | Some Pending =>
          Some (send_heartbeat now
                  (Shard (mark_fired (hb s)) (payloads_sent s)
                         (stale_events s) (awaiting_ack s)))
      | _ => None
      end
  | Ack now => if awaiting_ack s then Some (wait_ack_acked now s) else None
  | AckTimeout => if awaiting_ack s then Some (wait_ack_timeout s) else None
  | Stop => Some (Shard (stop (hb s)) (payloads_sent s) (stale_events s)
                        (awaiting_ack s))
  end.

Fixpoint run (es : list event) (s : shard) : option shard :=
  match es with
  | [] => Some s
  | e :: es => s' ← step e s; run es s'
  end.

Definition reachable (s : shard) : Prop := exists es, run es fresh = Some s.

End HeartbeatHandler.

(** ** Python floats *)

(** A finite Python float is a binary64 number, kept here as the rational
    it is.  An operation on floats is the exact operation followed by
    rounding to the nearest float, halves to the even one. *)
Module Float.

Local Open Scope Q_scope.

Definition two_to (e : Z) : Q := 2 ^ e.

(** The nearest integer, halves to the even one. *)
Definition rne (q : Q) : Z :=
  let f := Qfloor q in
  match Qcompare (q - inject_Z f) (1 # 2) with
  | Lt => f
  | Gt => (f + 1)%Z
  | Eq => if Z.even f then f else (f + 1)%Z
  end.

(** The binary exponent of a positive rational: [2^e <= q < 2^(e+1)],
    from [2^-1100] on, which is below every float. *)
Definition exponent (q : Q) : Z :=
  (Z.log2 (Qfloor (q * two_to 1100)) - 1100)%Z.

(** The distance between the floats around [q]: 53 significant bits,
    from the subnormal step [2^-1074] on. *)
Definition ulp (q : Q) : Q :=
  two_to (Z.max (exponent (Qabs q) - 52) (-1074)).

(** The float nearest to a rational below [2^1024] in size. *)
Definition round (q : Q) : Q := inject_Z (rne (q / ulp q)) * ulp q.

(** A result that is no finite float. *)
Definition overflows (x : Q) : bool := Qle_bool (two_to 1024) (Qabs x).

(** [a / b] of two ints, [b] not zero: the quotient correctly rounded;
    [None] is OverflowError. *)
Definition truediv (a b : Z) : option Q :=
  let x := round (inject_Z a / inject_Z b) in
  if overflows x then None else Some x.

(** [x / y] and [x + y] of floats whose result is finite. *)
Definition div (x y : Q) : Q := round (x / y).
Definition add (x y : Q) : Q := round (x + y).

End Float.

(** ** datetime.fromtimestamp *)

(** CPython's [datetime.fromtimestamp(x)] for a float [x] and no [tz], on
    a host whose [time_t] has 64 bits. *)
Module Datetime.

Inductive exn := OverflowError | OSError | ValueError.

(** A naive [datetime]: a date and a time of day with no time zone.  The
    date and the time down to the second are kept as the seconds that lie
    between 1970-01-01 00:00:00 and them (on the calendar [datetime]
    uses); [fold] is left out. *)
Record naive := Naive { wall : Z; microsecond : Z }.

(** [modf]: the integer part is towards zero. *)
Definition trunc (x : Q) : Z :=
  if Qle_bool 0 x then Qfloor x else Qceiling x.

(** [_PyTime_ObjectToTimeval(x, ..., ROUND_HALF_EVEN)]: seconds and
    microseconds.  The integer part is only moved by one when there is a
    fraction, where that is exact. *)
Definition to_timeval (x : Q) : Z * Z + exn :=
  let intpart := trunc x in
  let floatpart :=
    Float.round ((x - inject_Z intpart) * inject_Z 1000000)%Q in
  let floatpart := Float.rne floatpart in
  let '(intpart, floatpart) :=
    if 1000000 <=? floatpart then (intpart + 1, floatpart - 1000000)
    else if floatpart <? 0 then (intpart - 1, floatpart + 1000000)
    else (intpart, floatpart) in
  if (- 2 ^ 63 <=? intpart) && (intpart <? 2 ^ 63)
  then inl (intpart, floatpart)
  else inr OverflowError.

(** The first and the last second of the years 1 to 9999, and of the
    years a [struct tm] can hold. *)
Definition MINYEAR_START : Z := -62135596800.
Definition MAXYEAR_END : Z := 253402300799.
Definition TM_START : Z := -67768040609740800.
Definition TM_END : Z := 67768036191676799.

Definition max_fold_seconds : Z := 86400.

Section Host.

(** The host's time zone: how far its clock is ahead of UTC at the POSIX
    time [t], in seconds. *)
Variable utcoffset : Z -> Z.

(** [local(u)]: [localtime] fails with OSError (EOVERFLOW) when the year
    does not fit a [struct tm]; [utc_to_seconds] raises ValueError for a
    year outside 1..9999. *)
Definition local (t : Z) : Z + exn :=
  let seconds := t + utcoffset t in
  if negb ((TM_START <=? seconds) && (seconds <=? TM_END)) then inr OSError
  else if negb ((MINYEAR_START <=? seconds) && (seconds <=? MAXYEAR_END))
       then inr ValueError
  else inl seconds.

(** [datetime_from_timet_and_us] with [localtime]: the local date and
    time, after the probes a day earlier (and at a transition) by which
    [fold] is found. *)
Definition fromtimestamp (x : Q) : naive + exn :=
  match to_timeval x with
  | inr e => inr e
  | inl (timet, us) =>
      match local timet with
      | inr e => inr e
      | inl result_seconds =>
          match local (timet - max_fold_seconds) with
          | inr e => inr e
          | inl probe_seconds =>
              let transition :=
                result_seconds - probe_seconds - max_fold_seconds in
              if transition <? 0 then
                match local (timet + transition) with
                | inr e => inr e
                | inl _ => inl (Naive result_seconds us)
                end
              else inl (Naive result_seconds us)
          end
      end
  end.

End Host.

End Datetime.

(** ** utils.py: Snowflake *)

Module Snowflake.

Definition SNOWFLAKE_MINIMUM_BIT_LENGTH : Z := 51.
Definition SNOWFLAKE_MAXIMUM_BIT_LENGTH : Z := 111.
Definition DISCORD_EPOCH : Z := 1420070400000.

Inductive error := ValueError.

(** [Snowflake.__new__]: the int itself when its bit length is accepted. *)
Definition new (n : Z) : Z + error :=
  if negb ((SNOWFLAKE_MINIMUM_BIT_LENGTH <=? Py.bit_length n)
           && (Py.bit_length n <=? SNOWFLAKE_MAXIMUM_BIT_LENGTH))
  then inr ValueError
  else inl n.

(** The [datetime] property: [/] is the true division of ints, and
    [datetime.fromtimestamp] gives the date and time on the host's own
    clock, whose time zone is [utcoffset]. *)
Definition datetime (utcoffset : Z -> Z) (self : Z)
  : Datetime.naive + Datetime.exn :=
  match Float.truediv (Z.shiftr self 22 + DISCORD_EPOCH) 1000 with
  | None => inr Datetime.OverflowError
  | Some timestamp => Datetime.fromtimestamp utcoffset timestamp
  end.

Definition worker_id (self : Z) : Z := Z.shiftr (Z.land self 0x3E0000) 17.
Definition process_id (self : Z) : Z := Z.shiftr (Z.land self 0x1F000) 12.
Definition increment (self : Z) : Z := Z.land self 0xFFF.

End Snowflake.

(** ** lib/rest.py: Ratelimiter and RestSession._request *)

Module Ratelimiter.

(** What sits in the queue: [actual_req], the underlying HTTP operation
    [r] wrapped by [RestSession._request], or the bare operation, which is
    what [_request] re-submits after a 429. *)
Inductive callable := Wrapped (r : nat) | Bare (r : nat).

(** The bucket: the attributes of a [Ratelimiter].  Tasks and futures are
    named by numbers; [lock] holds the task inside [async with self.lock]. *)
Record ratelimiter := Bucket {
  limit : number Z;
  _remaining : number Z;
  _reset : number Q;
  lock : option nat;
  new_headers : bool;
  queue : list (callable * nat);
  _tasks : list nat;
  current_burst_task : option nat;
  made_first_request : bool }.

(** [__init__]. *)
Definition init : ratelimiter :=
  Bucket Inf Inf Inf None false [] [] None false.

(** Where a [do_burst] task is parked. *)
Inductive burst_pc :=
| Created                      (* scheduled by [create_task], not started *)
| WaitLock                     (* in [async with self.lock] *)
| WaitReady                    (* in [wait_for_headers] before the loop *)
| Yielded                      (* in [asyncio.sleep(0)] *)
| WaitHeaders                  (* in [wait_for_headers] inside the loop *)
| Sleeping (wake : number Q)   (* in [asyncio.sleep(self.reset_after)] *)
| Done
| Failed                       (* left by an IndexError of [queue.pop(0)] *)
| Cancelled.

Record burst := Burst { pc : burst_pc; must_cancel : bool }.

(** The body of a response as [RatelimitedResponse.unmarshal] sees it:
    not JSON at all, or a document with or without a numeric
    [retry_after], which the field's [float] callable turns into a
    float. *)
Inductive body := Malformed | Json (retry_after : option Q).

(** Where a request task is parked.  [_request] awaits the HTTP response,
    then (on a 429) the body text, then the future of the re-submission. *)
Inductive request_pc :=
| AwaitResponse
| AwaitText (data : body)
| AwaitRetry (fut : nat)
| Completed
| Raised.

Record request_task := RequestTask {
  target : callable;
  fut : nat;
  rpc : request_pc }.

(** An HTTP response: status, body, and the rate-limit headers (when
    present, already read as numbers). *)
Record response := Response {
  status : Z;
  text : body;
  x_ratelimit_limit : option Z;
  x_ratelimit_remaining : option Z;
  x_ratelimit_reset : option Q }.

(** The event loop around one bucket.  [submitted] and [dispatched] record
    the order of the calls to [request] and of the pops of
    [_burst_run_once]; [clock] is what [datetime.now().timestamp()]
    returns. *)
Record world := World {
  rl : ratelimiter;
  bursts : gmap nat burst;
  requests : gmap nat request_task;
  resolved : list nat;
  next_id : nat;
  clock : Q;
  submitted : list callable;
  dispatched : list callable }.

Definition boot : world := World init ∅ ∅ [] 0 0 [] [].

(** *** Field updates *)

Definition with_rl (f : ratelimiter -> ratelimiter) (w : world) : world :=
  World (f (rl w)) (bursts w) (requests w) (resolved w) (next_id w)
        (clock w) (submitted w) (dispatched w).

Definition set_limit v (b : ratelimiter) :=
  Bucket v (_remaining b) (_reset b) (lock b) (new_headers b) (queue b)
         (_tasks b) (current_burst_task b) (made_first_request b).
Definition set_remaining v (b : ratelimiter) :=
  Bucket (limit b) v (_reset b) (lock b) (new_headers b) (queue b)
         (_tasks b) (current_burst_task b) (made_first_request b).
Definition set_reset v (b : ratelimiter) :=
  Bucket (limit b) (_remaining b) v (lock b) (new_headers b) (queue b)
         (_tasks b) (current_burst_task b) (made_first_request b).
Definition set_lock v (b : ratelimiter) :=
  Bucket (limit b) (_remaining b) (_reset b) v (new_headers b) (queue b)
         (_tasks b) (current_burst_task b) (made_first_request b).
Definition set_new_headers v (b : ratelimiter) :=
  Bucket (limit b) (_remaining b) (_reset b) (lock b) v (queue b)
         (_tasks b) (current_burst_task b) (made_first_request b).
Definition set_queue v (b : ratelimiter) :=
  Bucket (limit b) (_remaining b) (_reset b) (lock b) (new_headers b) v
         (_tasks b) (current_burst_task b) (made_first_request b).
Definition set_tasks v (b : ratelimiter) :=
  Bucket (limit b) (_remaining b) (_reset b) (lock b) (new_headers b)
         (queue b) v (current_burst_task b) (made_first_request b).
Definition set_current_burst_task v (b : ratelimiter) :=
  Bucket (limit b) (_remaining b) (_reset b) (lock b) (new_headers b)
         (queue b) (_tasks b) v (made_first_request b).
Definition set_made_first_request v (b : ratelimiter) :=
  Bucket (limit b) (_remaining b) (_reset b) (lock b) (new_headers b)
         (queue b) (_tasks b) (current_burst_task b) v.

Definition set_bursts v (w : world) :=
  World (rl w) v (requests w) (resolved w) (next_id w) (clock w)
        (submitted w) (dispatched w).
Definition set_requests v (w : world) :=
  World (rl w) (bursts w) v (resolved w) (next_id w) (clock w)
        (submitted w) (dispatched w).
Definition set_resolved v (w : world) :=
  World (rl w) (bursts w) (requests w) v (next_id w) (clock w)
        (submitted w) (dispatched w).
Definition set_next_id v (w : world) :=
  World (rl w) (bursts w) (requests w) (resolved w) v (clock w)
        (submitted w) (dispatched w).
Definition set_clock v (w : world) :=
  World (rl w) (bursts w) (requests w) (resolved w) (next_id w) v
        (submitted w) (dispatched w).
Definition set_submitted v (w : world) :=
  World (rl w) (bursts w) (requests w) (resolved w) (next_id w) (clock w)
        v (dispatched w).
Definition set_dispatched v (w : world) :=
  World (rl w) (bursts w) (requests w) (resolved w) (next_id w) (clock w)
        (submitted w) v.

Definition set_pc (t : nat) (p : burst_pc) (w : world) : world :=
  set_bursts (alter (fun b => Burst p (must_cancel b)) t (bursts w)) w.

Definition set_rpc (t : nat) (p : request_pc) (w : world) : world :=
  set_requests
    (alter (fun rt => RequestTask (target rt) (fut rt) p) t (requests w)) w.

(** *** Ratelimiter *)

(** [ready]. *)
Definition ready (b : ratelimiter) : bool :=
  negb (is_inf (limit b)) && negb (is_inf (_reset b))
  && negb (is_inf (_remaining b)).

(** [reset_after]: [max((0, self._reset - now))]. *)
Definition reset_after (now : Q) (b : ratelimiter) : number Q :=
  match _reset b with
  | Inf => Inf
  | Fin r => if Qle_bool (r - now) 0 then Fin 0%Q else Fin (r - now)%Q
  end.

(** [self.remaining <= 0] and [self.remaining -= 1] on an int or inf. *)
Definition le_zero (x : number Z) : bool :=
  match x with Inf => false | Fin z => z <=? 0 end.

Definition minus_one (x : number Z) : number Z :=
  match x with Inf => Inf | Fin z => Fin (z - 1) end.

(** [loop.create_task(self.do_burst())]. *)
Definition create_burst_task (w : world) : nat * world :=
  let t := next_id w in
  (t, set_next_id (S t) (set_bursts (<[t := Burst Created false]> (bursts w)) w)).

(** [request]: enqueue, start a burst task, hand back the future. *)
Definition request (req : callable) (w : world) : nat * world :=
  let fut := next_id w in
  let w := set_next_id (S fut) w in
  let w := with_rl (fun b => set_queue (queue b ++ [(req, fut)]) b) w in
  let w := set_submitted (submitted w ++ [req]) w in
  let w :=
    if negb (made_first_request (rl w)) then (create_burst_task w).2
    else match current_burst_task (rl w) with
         | None =>
             let '(t, w) := create_burst_task w in
             with_rl (set_current_burst_task (Some t)) w
         | Some _ => w
         end in
  (fut, w).

(** [_burst_run_once] with [_task_done_callback]: pop the head of the
    queue and start it as a task.  [None] is the IndexError of popping an
    empty list. *)
Definition _burst_run_once (w : world) : option world :=
  match queue (rl w) with
  | [] => None
  | (req, fut) :: rest =>
      let w := with_rl (set_queue rest) w in
      let task := next_id w in
      let w := set_next_id (S task) w in
      let w := set_requests
                 (<[task := RequestTask req fut AwaitResponse]> (requests w)) w in
      let w := with_rl (fun b => set_tasks (_tasks b ++ [task]) b) w in
      Some (set_dispatched (dispatched w ++ [req]) w)
  end.

(** Leaving [async with self.lock], by the end of the block or by an
    exception, releases the lock. *)
Definition leave (t : nat) (p : burst_pc) (w : world) : world :=
  set_pc t p (with_rl (set_lock None) w).

(** [self.current_burst_task = None] and out. *)
Definition finish (t : nat) (w : world) : world :=
  leave t Done (with_rl (set_current_burst_task None) w).

(** [while self.queue:] up to the [await asyncio.sleep(0)]. *)
Definition loop_head (t : nat) (w : world) : world :=
  match queue (rl w) with
  | [] => finish t w
  | _ :: _ => set_pc t Yielded w
  end.

(** [self.remaining -= 1; self._burst_run_once()] and back to the test. *)
Definition dispatch_one (t : nat) (w : world) : world :=
  let w := with_rl (fun b => set_remaining (minus_one (_remaining b)) b) w in
  match _burst_run_once w with
  | None => leave t Failed w
  | Some w => loop_head t w
  end.

(** [self.new_headers.clear()], the second line of [wait_for_headers]. *)
Definition clear_headers (w : world) : world :=
  with_rl (set_new_headers false) w.

(** [await asyncio.sleep(self.reset_after)]. *)
Definition sleep_until_reset (t : nat) (w : world) : world :=
  let wake :=
    match reset_after (clock w) (rl w) with
    | Inf => Inf
    | Fin d => Fin (clock w + d)%Q
    end in
  set_pc t (Sleeping wake) w.

(** The body of [do_burst] from the moment the lock is taken to the first
    suspension. *)
Definition enter (t : nat) (w : world) : world :=
  let w := with_rl (set_lock (Some t)) w in
  if negb (made_first_request (rl w)) then
    match _burst_run_once w with
    | None => leave t Failed w
    | Some w => finish t (with_rl (set_made_first_request true) w)
    end
  else if negb (ready (rl w)) then
    if new_headers (rl w) then loop_head t (clear_headers w)
    else set_pc t WaitReady w
  else loop_head t w.

(** The event loop resumes burst task [t]: one run from where it is parked
    to its next suspension.  [None]: the task cannot run now. *)
Definition resume (t : nat) (w : world) : option world :=
  b ← bursts w !! t;
  if must_cancel b then
    match pc b with
    | Done | Failed | Cancelled => None
    | Created | WaitLock => Some (set_pc t Cancelled w)
    | WaitReady | Yielded | WaitHeaders | Sleeping _ =>
        Some (leave t Cancelled w)
    end
  else
    match pc b with
    | Created =>
        match lock (rl w) with
        | None => Some (enter t w)
        | Some _ => Some (set_pc t WaitLock w)
        end
    | WaitLock =>
        match lock (rl w) with
        | None => Some (enter t w)
        | Some _ => None
        end
    | WaitReady =>
        if new_headers (rl w) then Some (loop_head t (clear_headers w))
        else None
    | Yielded =>
        if le_zero (_remaining (rl w)) then
          if new_headers (rl w)
          then Some (sleep_until_reset t (clear_headers w))
          else Some (set_pc t WaitHeaders w)
        else Some (dispatch_one t w)
    | WaitHeaders =>
        if new_headers (rl w)
        then Some (sleep_until_reset t (clear_headers w))
        else None
    | Sleeping wake =>
        match wake with
        | Inf => None
        | Fin q => if Qle_bool q (clock w) then Some (dispatch_one t w)
                   else None
        end
    | Done | Failed | Cancelled => None
    end.

(** *** RestSession._request *)

(** [task.cancel()]: a request to cancel, seen by the task when it next
    runs; nothing happens to a task that is already over. *)
Definition cancel (t : nat) (w : world) : world :=
  match bursts w !! t with
  | Some b =>
      match pc b with
      | Done | Failed | Cancelled => w
      | _ => set_bursts (<[t := Burst (pc b) true]> (bursts w)) w
      end
  | None => w
  end.

Fixpoint remove_first (t : nat) (l : list nat) : list nat :=
  match l with
  | [] => []
  | x :: l => if (x =? t)%nat then l else x :: remove_first t l
  end.

(** A request task is over (returned or raised): its done-callback takes it
    out of [_tasks] and resolves the future handed out by [request]. *)
Definition settle (t : nat) (p : request_pc) (w : world) : world :=
  match requests w !! t with
  | Some rt =>
      let w := set_rpc t p w in
      let w := with_rl (fun b => set_tasks (remove_first t (_tasks b)) b) w in
      set_resolved (resolved w ++ [fut rt]) w
  | None => w
  end.

Definition update_from (A : Type) (v : option A) (set : A -> ratelimiter -> ratelimiter)
    (b : ratelimiter) : ratelimiter :=
  match v with
  | Some x => set x b
  | None => b
  end.
Arguments update_from {A} v set b.

(** [_request] from [resp = await req()] on: the 429 branch up to
    [await resp.text()], or the header branch to the end.  A bare
    operation is just over. *)
Definition on_response (t : nat) (resp : response) (w : world)
  : option world :=
  rt ← requests w !! t;
  match rpc rt, target rt with
  | AwaitResponse, Bare _ => Some (settle t Completed w)
  | AwaitResponse, Wrapped _ =>
      if status resp =? 429 then
        let w := match current_burst_task (rl w) with
                 | Some b => cancel b w
                 | None => w
                 end in
        Some (set_rpc t (AwaitText (text resp)) w)
      else
        let w := with_rl (update_from (x_ratelimit_limit resp)
                            (fun v => set_limit (Fin v))) w in
        let w := with_rl (update_from (x_ratelimit_remaining resp)
                            (fun v => set_remaining (Fin v))) w in
        let w := with_rl (update_from (x_ratelimit_reset resp)
                            (fun v => set_reset (Fin v))) w in
        let w := with_rl (set_new_headers true) w in
        Some (settle t Completed w)
  | _, _ => None
  end.

(** The 429 branch from [data = await resp.text()] to
    [await ratelimiter.request(req)].  A body that is not JSON raises in
    [unmarshal]; one without [retry_after] raises at [None / 1000], after
    [remaining] was set.  The new reset time is a sum of floats. *)
Definition on_text (t : nat) (w : world) : option world :=
  rt ← requests w !! t;
  match rpc rt, target rt with
  | AwaitText Malformed, Wrapped _ => Some (settle t Raised w)
  | AwaitText (Json ra), Wrapped r =>
      let w := with_rl (set_remaining (Fin 0)) w in
      match ra with
      | None => Some (settle t Raised w)
      | Some retry_after =>
          let w := with_rl
                     (set_reset
                        (Fin (Float.add (clock w)
                                (Float.div retry_after (inject_Z 1000)))))
                     w in
          let w := with_rl (set_new_headers true) w in
          let '(f, w) := request (Bare r) w in
          Some (set_rpc t (AwaitRetry f) w)
      end
  | _, _ => None
  end.

(** [_request] returns once the future of the re-submission is resolved. *)
Definition on_retry_done (t : nat) (w : world) : option world :=
  rt ← requests w !! t;
  match rpc rt with
  | AwaitRetry f =>
      if existsb (Nat.eqb f) (resolved w) then Some (settle t Completed w)
      else None
  | _ => None
  end.

(** *** The event loop *)

Inductive label :=
| Submit (r : nat)                      (* [RestSession.request] *)
| Resume (t : nat)                      (* a burst task runs *)
| Respond (t : nat) (resp : response)   (* the HTTP response of task [t] *)
| TextRead (t : nat)                    (* [resp.text()] is there *)
| RetryDone (t : nat)                   (* the re-submission is resolved *)
| Advance (now : Q).                    (* time passes *)

Definition step (l : label) (w : world) : option world :=
  match l with
  | Submit r => Some (request (Wrapped r) w).2
  | Resume t => resume t w
  | Respond t resp => on_response t resp w
  | TextRead t => on_text t w
  | RetryDone t => on_retry_done t w
  | Advance now => if Qle_bool (clock w) now then Some (set_clock now w)
                   else None
  end.

Fixpoint run (ls : list label) (w : world) : option world :=
  match ls with
  | [] => Some w
  | l :: ls => w' ← step l w; run ls w'
  end.

Definition reachable (w : world) : Prop := exists ls, run ls boot = Some w.

(** Burst tasks that are inside [async with self.lock]. *)
Definition in_body (p : burst_pc) : bool :=
  match p with
  | WaitReady | Yielded | WaitHeaders | Sleeping _ => true
  | _ => false
  end.

(** Burst tasks that are not over yet. *)
Definition alive (p : burst_pc) : bool :=
  match p with
  | Done | Failed | Cancelled => false
  | _ => true
  end.

Definition live_bursts (w : world) : list nat :=
  (map_to_list (filter (fun kv => alive (pc kv.2) = true) (bursts w))).*1.

End Ratelimiter.

(** ** Statements *)

Module Spec.

Import WebsocketFrame WebsocketProtocol.

(** What [apply_mask] leaves in the buffer, byte by byte, for a buffer
    that starts at index [k]. *)
Fixpoint xor_from (mask : list Z) (k : nat) (l : list Z) : list Z :=
  match l with
  | [] => []
  | x :: l => Z.lxor x (nth (k mod 4)%nat mask 0) :: xor_from mask (S k) l
  end.

(** The first header byte [create_frame] builds. *)
Definition first_byte (opcode : WebsocketOpcode) (fin rsv1 rsv2 rsv3 : bool)
  : Z :=
  Z.lor (set_bit rsv3 (set_bit rsv2 (set_bit rsv1 (set_bit fin 0 0x80) 0x40)
                          0x20) 0x10)
        (opcode_value opcode).

Definition flag (b : bool) (bit : Z) : Z := if b then bit else 0.

(** Encoding [p] and feeding the bytes to a fresh receive state machine
    pushes exactly one frame, with payload [p] and the opcode and flags
    given to [create_frame]. *)
Definition round_trips (p : list Z) (opcode : WebsocketOpcode)
    (fin rsv1 rsv2 rsv3 masked : bool) (urandom : list Z) : Prop :=
  exists bytes st f,
    create_frame p opcode fin rsv1 rsv2 rsv3 masked urandom = Some bytes
    /\ create_frames bytes initial = Some (st, [f])
    /\ frame_data f = p
    /\ get_opcode (fbyte f) = opcode_value opcode
    /\ get_fin (fbyte f) = flag fin 0x80
    /\ get_rsv1 (fbyte f) = flag rsv1 0x40
    /\ get_rsv2 (fbyte f) = flag rsv2 0x20
    /\ get_rsv3 (fbyte f) = flag rsv3 0x10.

(** The queue is first in, first out: what was submitted is what was
    dispatched followed by what is still queued. *)
Definition fifo (w : Ratelimiter.world) : Prop :=
  Ratelimiter.submitted w
  = Ratelimiter.dispatched w ++ (Ratelimiter.queue (Ratelimiter.rl w)).*1.

(** Nobody but [t] is inside [async with self.lock]. *)
Definition only (t : nat) (w : Ratelimiter.world) : Prop :=
  forall t' b,
    Ratelimiter.bursts w !! t' = Some b ->
    Ratelimiter.in_body (Ratelimiter.pc b) = true -> t' = t.

(** A burst task that is inside [async with self.lock] holds the lock. *)
Definition mutex (w : Ratelimiter.world) : Prop :=
  forall t b,
    Ratelimiter.bursts w !! t = Some b ->
    Ratelimiter.in_body (Ratelimiter.pc b) = true ->
    Ratelimiter.lock (Ratelimiter.rl w) = Some t.

(** At most one burst task that is not over. *)
Definition single_burst_task (w : Ratelimiter.world) : Prop :=
  (length (Ratelimiter.live_bursts w) <= 1)%nat.

(** Before the first request has gone out: nothing is in flight, the lock
    is free, the burst tasks are all waiting to start, and there is one
    only if something is queued. *)
Definition cold (w : Ratelimiter.world) : Prop :=
  Ratelimiter.made_first_request (Ratelimiter.rl w) = false ->
  Ratelimiter.lock (Ratelimiter.rl w) = None
  /\ Ratelimiter.requests w = ∅
  /\ (forall t b, Ratelimiter.bursts w !! t = Some b ->
                  b = Ratelimiter.Burst Ratelimiter.Created false)
  /\ (forall t b, Ratelimiter.bursts w !! t = Some b ->
                  Ratelimiter.queue (Ratelimiter.rl w) <> []).

(** [remaining] is unknown or at least 0. *)
Definition not_negative (x : number Z) : Prop :=
  match x with Inf => True | Fin z => 0 <= z end.

(** The wake-up time of [asyncio.sleep(self.reset_after)] is not before
    the reset time nor before now; with an unknown reset time the sleep
    has no end. *)
Definition covers_reset (reset : number Q) (now : Q) (wake : number Q)
  : Prop :=
  match reset, wake with
  | Inf, Inf => True
  | Fin r, Fin q => (r <= q)%Q /\ (now <= q)%Q
  | _, _ => False
  end.

(** A 200 response whose headers say the window is used up:
    limit 5, remaining 0, reset at 10. *)
Definition used_up : Ratelimiter.response :=
  Ratelimiter.Response 200 Ratelimiter.Malformed (Some 5) (Some 0)
                       (Some (inject_Z 10)).

(** A 429 response asking to retry after 2000 ms. *)
Definition too_many : Ratelimiter.response :=
  Ratelimiter.Response 429 (Ratelimiter.Json (Some (inject_Z 2000)))
                       None None None.

(** Three upgrade responses: a plain 200, and two 101s whose
    [Connection], respectively [Upgrade], header is off. *)
Definition response_200 : string :=
  ("HTTP/1.1 200 OK" ++ Bytes.CRLF ++ "Content-Length: 0" ++ Bytes.CRLF
   ++ Bytes.CRLF)%string.

Definition response_keep_alive : string :=
  ("HTTP/1.1 101 Switching Protocols" ++ Bytes.CRLF
   ++ "Connection: Keep-Alive" ++ Bytes.CRLF
   ++ "Upgrade: websocket" ++ Bytes.CRLF ++ Bytes.CRLF)%string.

Definition response_h2c : string :=
  ("HTTP/1.1 101 Switching Protocols" ++ Bytes.CRLF
   ++ "CONNECTION: Upgrade" ++ Bytes.CRLF
   ++ "Upgrade: h2c" ++ Bytes.CRLF ++ Bytes.CRLF)%string.

Definition response_101 : string :=
  ("HTTP/1.1 101 Switching Protocols" ++ Bytes.CRLF
   ++ "Connection: Upgrade" ++ Bytes.CRLF
   ++ "Upgrade:  WebSocket " ++ Bytes.CRLF ++ Bytes.CRLF)%string.

End Spec.

(** ** Further statements *)

Module Spec2.

(** The milliseconds since 1970-01-01T00:00:00Z a snowflake carries. *)
Definition milliseconds (n : Z) : Z :=
  Z.shiftr n 22 + Snowflake.DISCORD_EPOCH.

(** What a clock [offset] seconds ahead of UTC shows at the instant [ms]
    milliseconds after 1970-01-01T00:00:00Z; the UTC date and time is
    what a clock with no offset shows. *)
Definition clock_reading (offset ms : Z) : Datetime.naive :=
  Datetime.Naive (ms / 1000 + offset) (ms mod 1000 * 1000).

Definition utc (ms : Z) : Datetime.naive := clock_reading 0 ms.

(** A time zone stays within a day of UTC. *)
Definition zone (utcoffset : Z -> Z) : Prop :=
  forall t, -86400 < utcoffset t < 86400.

(** [d1 <= d2] on naive datetimes: by date and time, then by
    microsecond. *)
Definition not_after (d1 d2 : Datetime.naive) : Prop :=
  Datetime.wall d1 < Datetime.wall d2
  \/ (Datetime.wall d1 = Datetime.wall d2
      /\ Datetime.microsecond d1 <= Datetime.microsecond d2).

End Spec2.

Module Samples.

(** A 101 response without a [Connection] header. *)
Definition response_no_connection : string :=
  ("HTTP/1.1 101 Switching Protocols" ++ Bytes.CRLF
   ++ "Upgrade: websocket" ++ Bytes.CRLF ++ Bytes.CRLF)%string.

End Samples.

Module DecoderSpec.

Import WebsocketProtocol.

(** Bytes, and the counters of a frame under construction, are not
    negative. *)
Definition bytes_ok (d : list Z) : Prop := Forall (fun b => 0 <= b) d.

Definition wf (p : protocol) : Prop :=
  0 <= bytes_needed (cur p) /\ bytes_ok (length_buffer (cur p)).

(** An iteration that starts here may get through without consuming a
    byte: it only closes a frame that needs nothing more. *)
Definition idle (p : protocol) : nat :=
  match state p with
  | WAITING_LENGTH | WAITING_DATA =>
      if bytes_needed (cur p) =? 0 then 1%nat else 0%nat
  | _ => 0%nat
  end.

(** The rest of an iteration of [create_frames] from its second, third
    and fourth block on. *)
Definition tail_data (fuel : nat) (d : list Z) (position : nat)
    (p : protocol) (out : list frame) : option (protocol * list frame) :=
  if (length d <=? position)%nat then Some (p, out) else
  let '(position, p, out) := on_data d position p out in
  if (length d <=? position)%nat then Some (p, out) else
  create_frames_loop fuel d position p out.

Definition tail_length (fuel : nat) (d : list Z) (position : nat)
    (p : protocol) (out : list frame) : option (protocol * list frame) :=
  if (length d <=? position)%nat then Some (p, out) else
  let '(position, p) := on_length d position p in
  tail_data fuel d position p out.

Definition tail_sbyte (fuel : nat) (d : list Z) (position : nat)
    (p : protocol) (out : list frame) : option (protocol * list frame) :=
  if (length d <=? position)%nat then Some (p, out) else
  let '(position, p) := on_sbyte d position p in
  tail_length fuel d position p out.

(** An iteration started at [position0] either returns or goes round
    again from the initial state, further on in the input (or at the same
    place, when [slack] allows it). *)
Definition progresses (fuel : nat) (d : list Z) (position0 slack : nat)
    (x : option (protocol * list frame)) : Prop :=
  (exists r, x = Some r)
  \/ (exists position' out',
        x = create_frames_loop fuel d position' initial out'
        /\ (position0 < position'
            \/ (position' = position0 /\ slack = 1))%nat).

End DecoderSpec.

Module BucketSpec.

Import Ratelimiter.

(** The bucket is stuck: the first request has gone out, the slot
    [current_burst_task] is taken, and no burst task is alive. *)
Definition wedged (w : world) : Prop :=
  made_first_request (rl w) = true
  /\ is_Some (current_burst_task (rl w))
  /\ forall t b, bursts w !! t = Some b -> alive (pc b) = false.

(** A 200 response with room left: limit 5, remaining 4, reset at 10. *)
Definition plenty : response :=
  Response 200 Malformed (Some 5) (Some 4) (Some (inject_Z 10)).

(** Three requests, the second of which is answered 429 while the burst
    task that dispatched it is still draining the queue. *)
Definition throttled_mid_burst : list label :=
  [Submit 1; Resume 1; Respond 2 plenty; Submit 2; Submit 3; Resume 4;
   Resume 4; Respond 6 Spec.too_many; TextRead 6; Resume 4].

End BucketSpec.

(** ** utils.py: JsonField and JsonStructure *)

Module Json.

(** A Python value as the field runtime sees it. *)
Inductive value :=
| VNone
| VBool (b : bool)
| VInt (n : Z)
| VStr (s : string)
| VObject (ref : nat).   (* any other object: a list, a dict, a structure *)

Definition is_none (v : value) : bool :=
  match v with VNone => true | _ => false end.

(** A callable handed to a field; [None] is a raised exception. *)
Definition callable := value -> option value.

(** [JsonField]: the attributes [__init__] stores.  The flag is stored
    under the name [omitempty]. *)
Record JsonField := Field {
  name : string;
  unmarshal_callable : option callable;
  marshal_callable : option callable;
  default : value;
  omitempty : bool }.

(** [JsonField.unmarshal] and [JsonField.marshal]. *)
Definition unmarshal_value (f : JsonField) (data : value) : option value :=
  match unmarshal_callable f with
  | None => Some data
  | Some c => c data
  end.

Definition marshal_value (f : JsonField) (data : value) : option value :=
  match marshal_callable f with
  | None => Some data
  | Some c => c data
  end.

(** [__json_fields__]: attribute name to field, in declaration order. *)
Abbreviation fields := (list (string * JsonField)).

(** The instance attributes of a structure, and a decoded JSON object. *)
Abbreviation attrs := (gmap string value).
Abbreviation document := (gmap string value).

(** One turn of the loop of [_update]: [data[field.name]] through the
    field's callable into the attribute; on any exception the default,
    when [set_default]. *)
Definition update_field (data : document) (set_default : bool)
    (self : attrs) (nf : string * JsonField) : attrs :=
  let '(attr, field) := nf in
  match data !! name field with
  | Some raw =>
      match unmarshal_value field raw with
      | Some v => <[attr := v]> self
      | None => if set_default then <[attr := default field]> self else self
      end
  | None => if set_default then <[attr := default field]> self else self
  end.

(** [_update]. *)
Definition _update (fs : fields) (data : document) (set_default : bool)
    (self : attrs) : attrs :=
  foldl (update_field data set_default) self fs.

(** What [json.loads] returns, as far as [_update] can tell: a dict, or
    a value on which [data[key]] raises TypeError for every key (a list,
    a number, a str, [None]). *)
Inductive json := JsonObject (d : document) | JsonOther.

(** [_update] takes the TypeError like the KeyError of a missing key, so
    what is no dict counts as a dict without keys. *)
Definition as_document (v : json) : document :=
  match v with JsonObject d => d | JsonOther => ∅ end.

(** The argument of [unmarshal]: text ([str], [bytes], [bytearray]) that
    is still to be parsed, or a value. *)
Inductive input := Text (s : string) | Parsed (v : json).

Section Unmarshal.

(** [json.loads]; [None] is JSONDecodeError. *)
Variable loads : string -> option json.

Definition parse (data : input) : option json :=
  match data with Text s => loads s | Parsed v => Some v end.

(** The instance [_update] starts from.  [object.__new__(cls)] has no
    attributes; with [init_class] the structure's [__init__] has run on
    it with the arguments of the call: [init] is what it leaves there,
    [None] when it raises. *)
Definition construct (init_class : bool) (init : option attrs)
  : option attrs :=
  if init_class then init else Some ∅.

(** [unmarshal]; [None] is the exception of [json.loads] or of
    [__init__]. *)
Definition unmarshal (fs : fields) (data : input) (init_class : bool)
    (init : option attrs) : option attrs :=
  match parse data with
  | None => None
  | Some v =>
      match construct init_class init with
      | None => None
      | Some self => Some (_update fs (as_document v) true self)
      end
  end.

End Unmarshal.

(** One turn of the loop of [to_dict].  The tests read [field.omitemoty],
    an attribute no [JsonField] has: they raise AttributeError as soon as
    the value before the [and] is [None], and the turn is skipped. *)
Definition to_dict_field (self : attrs) (dct : document)
    (nf : string * JsonField) : document :=
  let '(attr, field) := nf in
  match self !! attr with
  | None => dct
  | Some a =>
      if is_none a then dct
      else match marshal_value field a with
           | None => dct
           | Some v => if is_none v then dct else <[name field := v]> dct
           end
  end.

(** [to_dict]. *)
Definition to_dict (fs : fields) (self : attrs) : document :=
  foldl (to_dict_field self) ∅ fs.

(** A field declared as [JsonField(key)]. *)
Definition plain (key : string) : JsonField := Field key None None VNone false.

(** [DiscordResponse.__json_fields__]. *)
Definition DiscordResponse : fields :=
  [("opcode", plain "op"); ("sequence", plain "s");
   ("event_name", plain "t"); ("data", plain "d")]%string.

(** What [_update] with [set_default] leaves in the attribute of a field:
    the unmarshalled entry of the document, or the default when the key
    is missing or the callable raises. *)
Definition decoded (data : document) (f : JsonField) : value :=
  match data !! name f with
  | Some raw =>
      match unmarshal_value f raw with
      | Some v => v
      | None => default f
      end
  | None => default f
  end.

(** What survives a round trip through plain fields: entries that are
    not [None]. *)
Definition kept (v : option value) : option value :=
  match v with
  | Some v => if is_none v then None else Some v
  | None => None
  end.

(** A declaration of plain fields: attribute name and key. *)
Definition plain_fields (decl : list (string * string)) : fields :=
  map (fun '(attr, key) => (attr, plain key)) decl.

End Json.

(** ** connection.py: WebsocketProtocol.data_received *)

Module DataReceived.

Import WebsocketProtocol.

(** [b'\r\n\r\n'] *)
Definition terminator : list Z := [13; 10; 13; 10].

Fixpoint startswith (s sub : list Z) : bool :=
  match sub, s with
  | [], _ => true
  | a :: sub, b :: s => (b =? a) && startswith s sub
  | _ :: _, [] => false
  end.

(** [s.index(sub)]: where [sub] first occurs in [s]; [None] is
    ValueError. *)
Fixpoint index (s sub : list Z) : option nat :=
  if startswith s sub then Some 0%nat
  else match s with
       | [] => None
       | _ :: s => option_map S (index s sub)
       end.

(** The protocol object as [data_received] sees it: the header bytes, the
    [have_headers] event, the frame machine, and the frames pushed as
    [ws_frame_receive] events so far. *)
Record receiver := Receiver {
  headers : list Z;
  have_headers : bool;
  machine : protocol;
  pushed : list frame }.

(** [WebsocketProtocol.__init__] *)
Definition init : receiver := Receiver [] false initial [].

(** [self.create_frames(data)]; [None] only if the loop ran out of
    fuel. *)
Definition feed (data : list Z) (r : receiver) : option receiver :=
  match create_frames data (machine r) with
  | Some (p, out) =>
      Some (Receiver (headers r) (have_headers r) p (pushed r ++ out))
  | None => None
  end.

(** [create_frames] raises no ValueError, so the [except] branch is
    reached from [data.index] alone. *)
Definition data_received (data : list Z) (r : receiver) : option receiver :=
  if negb (have_headers r) then
    match index data terminator with
    | Some index =>
        let index := Z.of_nat index in
        feed (Py.slice data (index + 4) (Z.of_nat (length data)))
             (Receiver (headers r ++ Py.slice data 0 (index + 4)) true
                       (machine r) (pushed r))
    | None =>
        Some (Receiver (headers r ++ data) (have_headers r) (machine r)
                       (pushed r))
    end
  else feed data r.

(** The transport calls [data_received] once per read. *)
Fixpoint run (reads : list (list Z)) (r : receiver) : option receiver :=
  match reads with
  | [] => Some r
  | data :: reads =>
      match data_received data r with
      | Some r => run reads r
      | None => None
      end
  end.

(** The headers are complete: what [connect] waits for. *)
Definition with_headers (h : list Z) (r : receiver) : receiver :=
  Receiver h true (machine r) (pushed r).

(** An upgrade response whose terminator is cut by the read boundary,
    followed by a text frame. *)
Definition cut_reads : list (list Z) :=
  [ [72; 84; 84; 80; 13; 10; 13]; [10; 0x81; 1; 104] ].

Definition whole_reads : list (list Z) :=
  [ [72; 84]; [84; 80; 13; 10; 13; 10; 0x81; 1]; [104; 0x81; 0] ].

End DataReceived.

(** ** utils.py: JsonStructure.__init_subclass__ *)

Module JsonSubclass.

Import Json.

(** [d.get(k)] and [d[k] = v] on a dict kept in insertion order: a key
    that is already there keeps its place. *)
Fixpoint dict_get (k : string) (d : fields) : option JsonField :=
  match d with
  | [] => None
  | (k', v) :: d => if String.eqb k k' then Some v else dict_get k d
  end.

Fixpoint dict_set (k : string) (v : JsonField) (d : fields) : fields :=
  match d with
  | [] => [(k, v)]
  | (k', v') :: d =>
      if String.eqb k k' then (k', v) :: d else (k', v') :: dict_set k v d
  end.

(** [d.update(other)] *)
Definition dict_update (d other : fields) : fields :=
  foldl (fun d '(k, v) => dict_set k v d) d other.

(** [__init_subclass__].  [own] is the [__json_fields__] of the class
    body when it has one; [bases] gives for each direct base, in order,
    its [__json_fields__], or [None] where [hasattr] is false.  A class
    without the attribute in its body finds it through its bases (every
    class the hook has run for carries it in its own namespace, so this
    is the first base that has it); with none at all the lookup raises
    AttributeError, here [None]. *)
Definition init_subclass (own : option fields) (bases : list (option fields))
  : option fields :=
  match (match own with
         | Some d => Some d
         | None => head (omap id bases)
         end) with
  | None => None
  | Some d =>
      Some (foldl (fun d bcls =>
                     match bcls with
                     | Some other => dict_update d other
                     | None => d
                     end) d bases)
  end.

(** The field the bases hand down for an attribute: that of the last
    base that declares it. *)
Definition inherited (attr : string) (bases : list (option fields))
  : option JsonField :=
  last (omap (fun bcls => bcls ≫= dict_get attr) bases).

(** A table is a dict: no attribute twice. *)
Definition is_dict (d : fields) : Prop := NoDup d.*1.

(** A class body that declares [type], and a base that declares it
    too. *)
Definition sample_body : fields :=
  [("allow", plain "allow"); ("deny", plain "deny");
   ("type", plain "type")]%string.

Definition sample_base : fields :=
  [("id", plain "id"); ("type", plain "kind")]%string.

End JsonSubclass.

(** ** utils.py: cstruct._get_args *)

Module CStruct.

(** The two TypeErrors of [_get_args], by the names their messages are
    formatted with:
    ["{name}" missing required keyword argument "{field}"] and
    ["{name}" received unexpected keyword argument, "{arg}"]. *)
Inductive TypeError :=
| Missing (name field : string)
| Unexpected (name arg : string).

(** [**kwargs]: a dict in insertion order. *)
Abbreviation kwargs V := (list (string * V)).

Section GetArgs.

Context {V : Type}.

(** [kwargs.pop(field)]: the value and what is left; [None] is
    KeyError. *)
Fixpoint pop (field : string) (kw : kwargs V) : option (V * kwargs V) :=
  match kw with
  | [] => None
  | (k, v) :: kw =>
      if String.eqb field k then Some (v, kw)
      else match pop field kw with
           | Some (x, rest) => Some (x, (k, v) :: rest)
           | None => None
           end
  end.

(** The loop over [cls.fields]. *)
Fixpoint collect (fields : list string) (kw : kwargs V) (name : string)
    (args : list V) : list V * kwargs V + TypeError :=
  match fields with
  | [] => inl (args, kw)
  | field :: fields =>
      match pop field kw with
      | Some (v, kw) => collect fields kw name (args ++ [v])
      | None => inr (Missing name field)
      end
  end.

(** [_get_args(kwargs, name)] of a struct whose [fields] has these keys,
    in order. *)
Definition _get_args (fields : list string) (kw : kwargs V) (name : string)
  : list V + TypeError :=
  match collect fields kw name [] with
  | inr e => inr e
  | inl (args, []) => inl args
  | inl (args, (arg, _) :: _) => inr (Unexpected name arg)
  end.

(** [x] is the first element of [l] outside [known]. *)
Definition first_outside (known l : list string) (x : string) : Prop :=
  exists pre post,
    l = pre ++ x :: post /\ Forall (fun k => k ∈ known) pre /\ x ∉ known.

(** What [_get_args] answers, in terms of the keys. *)
Definition verdict (fields : list string) (kw : kwargs V) (name : string)
    (r : list V + TypeError) : Prop :=
  match r with
  | inl args =>
      kw.*1 ≡ₚ fields
      /\ Forall2 (fun field v => (field, v) ∈ kw) fields args
  | inr (Missing n field) =>
      n = name /\ first_outside kw.*1 fields field
  | inr (Unexpected n arg) =>
      n = name /\ Forall (fun field => field ∈ kw.*1) fields
      /\ first_outside fields kw.*1 arg
  end.

End GetArgs.

End CStruct.

(** ** connection.py: iter_headers run to its end *)

Module HeaderScan.

Import Handshake.

Local Open Scope nat_scope.

(** How the generator ends, with the items it yielded before. *)
Inductive drained :=
| Returned (items : list (list string))
| Threw (e : exn) (items : list (list string)).

(** One unit of fuel per resumption; [None] when it runs out. *)
Fixpoint drain (fuel : nat) (headers : string) (offset : nat)
    (items : list (list string)) : option drained :=
  match fuel with
  | O => None
  | S fuel =>
      match iter_headers_next headers offset with
      | Return => Some (Returned items)
      | Throw e => Some (Threw e items)
      | Yield item offset => drain fuel headers offset (items ++ [item])
      end
  end.

(** [list(self.iter_headers())] on the stored header bytes. *)
Definition iter_headers (headers : string) : option drained :=
  drain (S (String.length headers)) headers 0 [].

(** The header bytes of the protocol as a byte string. *)
Definition byte_string (b : list Z) : string :=
  fold_right (fun x s => String (ascii_of_nat (Z.to_nat x)) s) EmptyString b.

Definition CRLFCRLF : string := String.append Bytes.CRLF Bytes.CRLF.

(** What is left to scan ends with the blank line, or is its second
    half. *)
Definition ends_well (s : string) : Prop :=
  (exists t, s = String.append t CRLFCRLF) \/ s = Bytes.CRLF.

End HeaderScan.

(* ================================================================== *)
(** * Properties *)
(* ================================================================== *)

(** ** The frame codec *)

Section FrameCodec.

Import WebsocketFrame WebsocketProtocol Spec.

Lemma xor_from_length mask k l : length (xor_from mask k l) = length l.
Proof. revert k; induction l; intros; simpl; auto. Qed.

Lemma xor_from_twice mask k l : xor_from mask k (xor_from mask k l) = l.
Proof.
  revert k; induction l as [|x l IH]; intros k; simpl; [reflexivity|].
  rewrite IH, Z.lxor_assoc, Z.lxor_nilpotent, Z.lxor_0_r. reflexivity.
Qed.

Lemma mask_lookup mask k :
  length mask = 4%nat -> mask !! (k mod 4)%nat = Some (nth (k mod 4)%nat mask 0).
Proof.
  intros Hm. destruct (nth_lookup_or_length mask (k mod 4)%nat 0) as [H|H]; [exact H|].
  rewrite Hm in H. pose proof (Nat.mod_upper_bound k 4). lia.
Qed.

Lemma apply_mask_loop_spec mask suf : forall pre,
  length mask = 4%nat ->
  apply_mask_loop mask (seq (length pre) (length suf)) (pre ++ suf)
  = Some (pre ++ xor_from mask (length pre) suf).
Proof.
  induction suf as [|x suf IH]; intros pre Hm; cbn [length seq apply_mask_loop xor_from];
    [reflexivity|].
  rewrite (mask_lookup _ _ Hm).
  rewrite list_lookup_middle by reflexivity.
  rewrite insert_app_r_alt by lia. rewrite Nat.sub_diag. cbn [insert list_insert].
  specialize (IH (pre ++ [Z.lxor x (nth (length pre mod 4)%nat mask 0)]) Hm).
  rewrite length_app in IH. simpl in IH. rewrite Nat.add_1_r in IH.
  rewrite <- !app_assoc in IH. simpl in IH. exact IH.
Qed.

Lemma apply_mask_spec mask data :
  length mask = 4%nat -> apply_mask mask data = Some (xor_from mask 0 data).
Proof. intros Hm. exact (apply_mask_loop_spec mask data [] Hm). Qed.


Lemma slice_nonneg {A} (l : list A) (a b : Z) :
  0 <= a <= b ->
  Py.slice l a b = take (Z.to_nat (b - a)) (drop (Z.to_nat a) l).
Proof.
  intros [Ha Hab]. unfold Py.slice, Py.norm_index.
  destruct (Z.ltb_spec a 0) as [?|_]; [lia|].
  destruct (Z.ltb_spec b 0) as [?|_]; [lia|].
  set (len := Z.of_nat (length l)).
  destruct (Z.le_gt_cases a len) as [Hal|Hal].
  - rewrite (Z.min_l a len) by lia.
    destruct (Z.le_gt_cases b len) as [Hbl|Hbl].
    + rewrite (Z.min_l b len) by lia. reflexivity.
    + rewrite (Z.min_r b len) by lia.
      rewrite !take_ge; [reflexivity| |]; rewrite length_drop; unfold len; lia.
  - rewrite (Z.min_r a len), (Z.min_r b len) by lia.
    rewrite Z.sub_diag. simpl.
    rewrite (drop_ge l (Z.to_nat a)) by (unfold len in Hal; lia).
    now rewrite take_nil.
Qed.

Lemma slice_middle {A} (pre mid post : list A) :
  Py.slice (pre ++ mid ++ post) (Z.of_nat (length pre))
           (Z.of_nat (length pre) + Z.of_nat (length mid)) = mid.
Proof.
  rewrite slice_nonneg by lia.
  rewrite Nat2Z.id.
  replace (Z.to_nat _) with (length mid) by lia.
  rewrite drop_app_length. apply take_app_length.
Qed.

Lemma slice_tail {A} (pre mid : list A) :
  Py.slice (pre ++ mid) (Z.of_nat (length pre))
           (Z.of_nat (length pre) + Z.of_nat (length mid)) = mid.
Proof. rewrite <- (app_nil_r mid) at 1. apply slice_middle. Qed.

Lemma land_255 x : Z.land x 255 = x mod 256.
Proof. change 255 with (Z.ones 8). rewrite Z.land_ones by lia. reflexivity. Qed.

Lemma from_bytes_to_bytes_big size : forall n acc,
  0 <= n ->
  fold_left (fun acc x => acc * 256 + x) (Py.to_bytes_big size n) acc
  = acc * 256 ^ Z.of_nat size + n mod 256 ^ Z.of_nat size.
Proof.
  induction size as [|k IH]; intros n acc Hn.
  - simpl. rewrite Z.mod_1_r. lia.
  - cbn [Py.to_bytes_big fold_left]. rewrite IH by assumption.
    rewrite land_255, Z.shiftr_div_pow2 by lia.
    replace (2 ^ (8 * Z.of_nat k)) with (256 ^ Z.of_nat k)
      by (rewrite Z.pow_mul_r by lia; reflexivity).
    rewrite Nat2Z.inj_succ, Z.pow_succ_r by lia.
    assert (Hp : 0 < 256 ^ Z.of_nat k) by (apply Z.pow_pos_nonneg; lia).
    rewrite (Z.mul_comm 256 (256 ^ Z.of_nat k)).
    rewrite (Z.rem_mul_r n (256 ^ Z.of_nat k) 256) by lia.
    ring.
Qed.

Lemma from_bytes_to_bytes n size ext :
  Py.to_bytes n size = Some ext -> Py.from_bytes ext = n /\ length ext = size.
Proof.
  unfold Py.to_bytes, Py.from_bytes.
  destruct (Z.leb_spec 0 n) as [Hn|]; [|discriminate].
  destruct (Z.ltb_spec n (256 ^ Z.of_nat size)) as [Hs|]; [|discriminate].
  simpl. intros [= <-]. split.
  - rewrite from_bytes_to_bytes_big by assumption.
    rewrite Z.mod_small by lia. lia.
  - clear. induction size; simpl; auto.
Qed.


Lemma first_byte_flags opcode fin rsv1 rsv2 rsv3 :
  let b := first_byte opcode fin rsv1 rsv2 rsv3 in
  get_opcode b = opcode_value opcode /\
  get_fin b = flag fin 0x80 /\
  get_rsv1 b = flag rsv1 0x40 /\
  get_rsv2 b = flag rsv2 0x20 /\
  get_rsv3 b = flag rsv3 0x10.
Proof. destruct opcode, fin, rsv1, rsv2, rsv3; repeat split; reflexivity. Qed.

Lemma get_length_small n : 0 <= n < 128 -> get_length n = n.
Proof.
  intros H. unfold get_length. change 0x7F with (Z.ones 7).
  rewrite Z.land_ones by lia. apply Z.mod_small. change (2 ^ 7) with 128. lia.
Qed.

Lemma loop_unfold fuel d position p out :
  create_frames_loop (S fuel) d position p out =
  if (length d <=? position)%nat then Some (p, out) else
  let '(position, p) := on_fbyte d position p in
  if (length d <=? position)%nat then Some (p, out) else
  let '(position, p) := on_sbyte d position p in
  if (length d <=? position)%nat then Some (p, out) else
  let '(position, p) := on_length d position p in
  if (length d <=? position)%nat then Some (p, out) else
  let '(position, p, out) := on_data d position p out in
  if (length d <=? position)%nat then Some (p, out) else
  create_frames_loop fuel d position p out.
Proof. reflexivity. Qed.

Lemma on_fbyte_initial d :
  on_fbyte d 0 initial = (1%nat, Protocol WAITING_SBYTE (Frame (nth 0 d 0) 0 0 [] 0 [])).
Proof. reflexivity. Qed.

Lemma on_sbyte_short d position f :
  0 <= get_length (nth position d 0) <= 125 ->
  on_sbyte d position (Protocol WAITING_SBYTE f)
  = (S position,
     Protocol WAITING_DATA
       (Frame (fbyte f) (nth position d 0) (get_length (nth position d 0))
              (length_buffer f) (get_length (nth position d 0)) [])).
Proof.
  intros H. unfold on_sbyte. cbn [is_state state cur].
  destruct (Z.ltb_spec 125 (get_length (nth position d 0))); [lia|reflexivity].
Qed.

Lemma on_sbyte_extended d position f size :
  (get_length (nth position d 0) = 126 /\ size = 2
   \/ get_length (nth position d 0) = 127 /\ size = 8) ->
  on_sbyte d position (Protocol WAITING_SBYTE f)
  = (S position,
     Protocol WAITING_LENGTH
       (Frame (fbyte f) (nth position d 0) (get_length (nth position d 0))
              [] size [])).
Proof.
  intros H. unfold on_sbyte. cbn [is_state state cur].
  destruct H as [[-> ->]|[-> ->]]; reflexivity.
Qed.

Lemma on_length_skip d position f :
  on_length d position (Protocol WAITING_DATA f)
  = (position, Protocol WAITING_DATA f).
Proof. reflexivity. Qed.

Lemma on_length_complete d position f chunk :
  Py.slice d (Z.of_nat position) (Z.of_nat position + bytes_needed f) = chunk ->
  Z.of_nat (length chunk) = bytes_needed f ->
  on_length d position (Protocol WAITING_LENGTH f)
  = ((position + length chunk)%nat,
     Protocol WAITING_DATA
       (Frame (fbyte f) (sbyte f) (Py.from_bytes (length_buffer f ++ chunk))
              (length_buffer f ++ chunk)
              (Py.from_bytes (length_buffer f ++ chunk)) (frame_data f))).
Proof.
  intros Hs Hl. unfold on_length. cbn [is_state state cur]. rewrite Hs.
  rewrite Hl, Z.sub_diag. reflexivity.
Qed.

Lemma on_data_complete d position f out chunk :
  Py.slice d (Z.of_nat position) (Z.of_nat position + bytes_needed f) = chunk ->
  Z.of_nat (length chunk) = bytes_needed f ->
  on_data d position (Protocol WAITING_DATA f) out
  = ((position + length chunk)%nat, initial,
     out ++ [Frame (fbyte f) (sbyte f) (frame_length f) (length_buffer f) 0
                   (frame_data f ++ chunk)]).
Proof.
  intros Hs Hl. unfold on_data. cbn [is_state state cur]. rewrite Hs.
  rewrite Hl, Z.sub_diag. reflexivity.
Qed.

Lemma decode_short fuel b0 p :
  p <> [] -> Z.of_nat (length p) <= 125 ->
  create_frames_loop (S fuel) (b0 :: Z.of_nat (length p) :: p) 0 initial []
  = Some (initial,
          [Frame b0 (Z.of_nat (length p)) (Z.of_nat (length p)) [] 0 p]).
Proof.
  intros Hp Hlen.
  assert (Hpos : (0 < length p)%nat) by (destruct p; [congruence|simpl; lia]).
  set (n := Z.of_nat (length p)) in *.
  set (d := b0 :: n :: p).
  assert (Hd : length d = S (S (length p))) by reflexivity.
  assert (Hg : get_length (nth 1 d 0) = n)
    by (apply get_length_small; unfold n; lia).
  rewrite loop_unfold.
  rewrite (proj2 (Nat.leb_gt _ _)) by lia.
  rewrite on_fbyte_initial.
  rewrite (proj2 (Nat.leb_gt _ _)) by lia.
  rewrite on_sbyte_short by (rewrite Hg; unfold n; lia).
  rewrite (proj2 (Nat.leb_gt _ _)) by lia.
  rewrite on_length_skip.
  rewrite (proj2 (Nat.leb_gt _ _)) by lia.
  rewrite (on_data_complete d 2 _ [] p).
  - rewrite (proj2 (Nat.leb_le _ _)) by lia. rewrite Hg. reflexivity.
  - cbn [bytes_needed]. rewrite Hg. apply (slice_tail [b0; n] p).
  - cbn [bytes_needed]. rewrite Hg. reflexivity.
Qed.


Lemma decode_extended fuel b0 code size ext p :
  (get_length code = 126 /\ size = 2 \/ get_length code = 127 /\ size = 8) ->
  Py.to_bytes (Z.of_nat (length p)) (Z.to_nat size) = Some ext ->
  p <> [] ->
  create_frames_loop (S fuel) (b0 :: code :: ext ++ p) 0 initial []
  = Some (initial,
          [Frame b0 code (Z.of_nat (length p)) ext 0 p]).
Proof.
  intros Hcode Hext Hp.
  assert (Hpos : (0 < length p)%nat) by (destruct p; [congruence|simpl; lia]).
  destruct (from_bytes_to_bytes _ _ _ Hext) as [Hfrom Hlen].
  assert (Hsize : Z.of_nat (length ext) = size) by (destruct Hcode as [[_ ->]|[_ ->]]; lia).
  set (d := b0 :: code :: ext ++ p).
  assert (Hd : length d = S (S (length ext + length p)))
    by (unfold d; cbn [length]; now rewrite length_app).
  rewrite loop_unfold.
  rewrite (proj2 (Nat.leb_gt _ _)) by lia.
  rewrite on_fbyte_initial.
  rewrite (proj2 (Nat.leb_gt _ _)) by lia.
  rewrite (on_sbyte_extended d 1 _ size) by exact Hcode.
  rewrite (proj2 (Nat.leb_gt _ _)) by lia.
  rewrite (on_length_complete d 2 _ ext).
  - rewrite (proj2 (Nat.leb_gt _ _)) by lia.
    cbn [app length_buffer fbyte sbyte frame_data]. rewrite Hfrom.
    rewrite (on_data_complete d _ _ [] p).
    + rewrite (proj2 (Nat.leb_le _ _)) by lia. reflexivity.
    + cbn [bytes_needed].
      replace (2 + length ext)%nat with (length (b0 :: code :: ext)) by reflexivity.
      apply (slice_tail (b0 :: code :: ext) p).
    + reflexivity.
  - cbn [bytes_needed]. rewrite <- Hsize.
    apply (slice_middle [b0; code] ext p).
  - cbn [bytes_needed]. exact Hsize.
Qed.

Lemma create_frame_unmasked p opcode fin rsv1 rsv2 rsv3 urandom :
  Z.of_nat (length p) < 2 ^ 64 ->
  let n := Z.of_nat (length p) in
  let b0 := first_byte opcode fin rsv1 rsv2 rsv3 in
  create_frame p opcode fin rsv1 rsv2 rsv3 false urandom =
  if n <=? 125 then Some (b0 :: n :: p)
  else if n <=? 0xFFFF then Some (b0 :: 126 :: Py.to_bytes_big 2 n ++ p)
  else Some (b0 :: 127 :: Py.to_bytes_big 8 n ++ p).
Proof.
  intros Hn n b0. unfold create_frame. fold n.
  change (Z.lor (set_bit _ _ _) (opcode_value opcode)) with b0.
  cbn [set_bit].
  destruct (Z.leb_spec n 125) as [H1|H1]; [reflexivity|].
  destruct (Z.leb_spec n 0xFFFF) as [H2|H2].
  - unfold Py.to_bytes.
    destruct (Z.leb_spec 0 n); [|lia].
    destruct (Z.ltb_spec n (256 ^ Z.of_nat 2)) as [|H3]; [reflexivity|].
    change (256 ^ Z.of_nat 2) with 65536 in H3. lia.
  - unfold Py.to_bytes.
    destruct (Z.leb_spec 0 n); [|lia].
    destruct (Z.ltb_spec n (256 ^ Z.of_nat 8)) as [|H3]; [reflexivity|].
    change (256 ^ Z.of_nat 8) with (2 ^ 64) in H3. unfold n in H3. lia.
Qed.

Lemma xor_from_lookup mask (l : list Z) : forall k i x,
  l !! i = Some x ->
  xor_from mask k l !! i = Some (Z.lxor x (nth ((k + i) mod 4)%nat mask 0)).
Proof.
  induction l as [|y l IH]; intros k [|i] x H; try discriminate.
  - simpl in H. injection H as ->. cbn [xor_from].
    rewrite Nat.add_0_r. reflexivity.
  - cbn [xor_from]. simpl in H. change ((_ :: ?t) !! S i) with (t !! i).
    rewrite (IH (S k) i x H).
    replace (S k + i)%nat with (k + S i)%nat by lia. reflexivity.
Qed.

(** C10. Masking is an involution: with a four-byte mask, [apply_mask]
    XORs byte [i] of the buffer with [mask[i mod 4]], and applying it a
    second time with the same mask gives the original buffer back. *)
Theorem apply_mask_involution (mask data : list Z) :
  length mask = 4%nat ->
  exists masked,
    apply_mask mask data = Some masked
    /\ (forall i x, data !! i = Some x ->
          masked !! i = Some (Z.lxor x (nth (i mod 4)%nat mask 0)))
    /\ apply_mask mask masked = Some data.
Proof.
  intros Hm. exists (xor_from mask 0 data). split; [|split].
  - apply apply_mask_spec, Hm.
  - intros i x H. apply (xor_from_lookup mask data 0 i x H).
  - rewrite apply_mask_spec by exact Hm. now rewrite xor_from_twice.
Qed.

Lemma apply_mask_involution_witness :
  exists masked,
    apply_mask [1; 2; 3; 4] [104; 105; 0; 255; 7] = Some masked
    /\ (forall i x, [104; 105; 0; 255; 7] !! i = Some x ->
          masked !! i = Some (Z.lxor x (nth (i mod 4)%nat [1; 2; 3; 4] 0)))
    /\ apply_mask [1; 2; 3; 4] masked = Some [104; 105; 0; 255; 7].
Proof. apply (apply_mask_involution [1; 2; 3; 4]). reflexivity. Defined.

(** C1 (as the code has it). Frame round-trip without masking: for every
    non-empty payload [p] shorter than 2^64 bytes and every opcode and
    flags, the bytes of [create_frame(p, masked=False)] fed to a fresh
    receive state machine push exactly one frame, whose payload is [p] and
    whose opcode, FIN and RSV bits are the ones given. *)
Theorem unmasked_frame_round_trip p opcode fin rsv1 rsv2 rsv3 urandom :
  p <> [] ->
  Z.of_nat (length p) < 2 ^ 64 ->
  round_trips p opcode fin rsv1 rsv2 rsv3 false urandom.
Proof.
  intros Hp Hlen. unfold round_trips.
  destruct (first_byte_flags opcode fin rsv1 rsv2 rsv3)
    as (Hop & Hfin & H1 & H2 & H3).
  rewrite create_frame_unmasked by exact Hlen.
  set (n := Z.of_nat (length p)) in *.
  set (b0 := first_byte opcode fin rsv1 rsv2 rsv3) in *.
  unfold create_frames.
  destruct (Z.leb_spec n 125) as [Hs|Hs].
  - eexists _, initial, _. split; [reflexivity|]. split.
    + rewrite Nat.add_1_r. apply decode_short; assumption.
    + cbn [frame_data fbyte]. auto 10.
  - assert (Hn0 : 0 <= n) by (unfold n; lia).
    destruct (Z.leb_spec n 0xFFFF) as [Hm|Hm].
    + eexists _, initial, _. split; [reflexivity|]. split.
      * rewrite Nat.add_1_r.
        apply (decode_extended _ b0 126 2 (Py.to_bytes_big 2 n) p);
          [left; split; reflexivity| |exact Hp].
        unfold Py.to_bytes. fold n.
        destruct (Z.leb_spec 0 n); [|lia].
        destruct (Z.ltb_spec n (256 ^ Z.of_nat (Z.to_nat 2))) as [|Hb];
          [reflexivity|].
        change (256 ^ Z.of_nat (Z.to_nat 2)) with 65536 in Hb. lia.
      * cbn [frame_data fbyte]. auto 10.
    + eexists _, initial, _. split; [reflexivity|]. split.
      * rewrite Nat.add_1_r.
        apply (decode_extended _ b0 127 8 (Py.to_bytes_big 8 n) p);
          [right; split; reflexivity| |exact Hp].
        unfold Py.to_bytes. fold n.
        destruct (Z.leb_spec 0 n); [|lia].
        destruct (Z.ltb_spec n (256 ^ Z.of_nat (Z.to_nat 8))) as [|Hb];
          [reflexivity|].
        change (256 ^ Z.of_nat (Z.to_nat 8)) with (2 ^ 64) in Hb. lia.
      * cbn [frame_data fbyte]. auto 10.
Qed.

Lemma unmasked_frame_round_trip_witness :
  round_trips [104; 105] TEXT true false false false false [1; 2; 3; 4].
Proof.
  apply unmasked_frame_round_trip; [discriminate | reflexivity].
Defined.

(** C1, as stated, fails on a masked frame: the receive state machine
    never removes a mask, so the four mask bytes are read as payload. *)
Lemma masked_frame_not_round_trip :
  ~ round_trips [104; 105] TEXT true false false false true [1; 2; 3; 4].
Proof.
  intros (bytes & st & f & Hc & Hd & Hp & _).
  vm_compute in Hc. injection Hc as <-.
  vm_compute in Hd. injection Hd as _ <-.
  discriminate Hp.
Qed.

End FrameCodec.

(** ** Floats and timestamps *)

Section FloatFacts.

Import Float.
Local Open Scope Q_scope.

Lemma inj_succ m : inject_Z (m + 1) == inject_Z m + 1.
Proof. rewrite inject_Z_plus. reflexivity. Qed.

Lemma inj_pred m : inject_Z (m - 1) == inject_Z m - 1.
Proof. unfold Z.sub. rewrite inject_Z_plus, inject_Z_opp. reflexivity. Qed.

Lemma rne_spec q :
  q - (1 # 2) <= inject_Z (rne q) <= q + (1 # 2).
Proof.
  unfold rne.
  pose proof (Qfloor_le q) as H1. pose proof (Qlt_floor q) as H2.
  rewrite inj_succ in H2.
  destruct (Qcompare_spec (q - inject_Z (Qfloor q)) (1 # 2)) as [E|E|E].
  - destruct (Z.even (Qfloor q)).
    + lra.
    + rewrite inj_succ. lra.
  - lra.
  - rewrite inj_succ. lra.
Qed.

Lemma Qfloor_between q (m : Z) :
  inject_Z m <= q -> q < inject_Z m + 1 -> Qfloor q = m.
Proof.
  intros H1 H2.
  pose proof (Qfloor_le q) as F1. pose proof (Qlt_floor q) as F2.
  rewrite inj_succ in F2.
  assert (A : inject_Z (Qfloor q) < inject_Z (m + 1))
    by (rewrite inj_succ; lra).
  assert (B : inject_Z m < inject_Z (Qfloor q + 1))
    by (rewrite inj_succ; lra).
  rewrite <- Zlt_Qlt in A, B. lia.
Qed.

Lemma rne_near q (m : Z) :
  inject_Z m - (1 # 2) < q -> q < inject_Z m + (1 # 2) -> rne q = m.
Proof.
  intros H1 H2. unfold rne.
  destruct (Qlt_le_dec q (inject_Z m)) as [L|L].
  - assert (F : Qfloor q = (m - 1)%Z).
    { apply Qfloor_between.
      - rewrite inj_pred; lra.
      - rewrite inj_pred; lra. }
    rewrite F.
    assert (G : (1 # 2) < q - inject_Z (m - 1)).
    { rewrite inj_pred; lra. }
    destruct (Qcompare_spec (q - inject_Z (m - 1)) (1 # 2)) as [E|E|E];
      try lra. lia.
  - assert (F : Qfloor q = m) by (apply Qfloor_between; lra).
    rewrite F.
    destruct (Qcompare_spec (q - inject_Z m) (1 # 2)) as [E|E|E]; try lra.
    reflexivity.
Qed.

Lemma two_to_pos e : 0 < two_to e.
Proof. apply Qpower_0_lt. reflexivity. Qed.

Lemma ulp_pos q : 0 < ulp q.
Proof. apply two_to_pos. Qed.

Lemma round_err q :
  q - ulp q * (1 # 2) <= round q <= q + ulp q * (1 # 2).
Proof.
  unfold round. pose proof (ulp_pos q) as U.
  pose proof (rne_spec (q / ulp q)) as [R1 R2].
  set (u := ulp q) in *. set (m := inject_Z (rne (q / u))) in *.
  assert (E : q == q / u * u) by (field; lra).
  split.
  - apply Qle_trans with ((q / u - (1 # 2)) * u); [rewrite E at 1; lra|].
    apply Qmult_le_compat_r; lra.
  - apply Qle_trans with ((q / u + (1 # 2)) * u); [|rewrite E at 2; lra].
    apply Qmult_le_compat_r; lra.
Qed.

Lemma two_to_le a b : (a <= b)%Z -> two_to a <= two_to b.
Proof. intros H. apply Qpower_le_compat_l; [exact H|]. discriminate. Qed.

Lemma exponent_lt q b :
  0 <= q -> q < two_to b -> (-1100 < b)%Z -> (exponent q < b)%Z.
Proof.
  intros H0 H Hb. unfold exponent.
  set (n := Qfloor (q * two_to 1100)).
  assert (N0 : (0 <= n)%Z).
  { change 0%Z with (Qfloor 0). apply Qfloor_resp_le.
    pose proof (two_to_pos 1100). nra. }
  assert (N1 : inject_Z n < two_to (b + 1100)).
  { apply Qle_lt_trans with (q * two_to 1100); [apply Qfloor_le|].
    unfold two_to. rewrite Qpower_plus by discriminate.
    apply Qmult_lt_compat_r; [apply two_to_pos|exact H]. }
  assert (P : two_to (b + 1100) == inject_Z (2 ^ (b + 1100)))
    by (unfold two_to; change 2 with (inject_Z 2); symmetry;
        apply Zpower_Qpower; lia).
  rewrite P in N1. rewrite <- Zlt_Qlt in N1.
  destruct (Z.eq_dec n 0%Z) as [E|Nz]; [rewrite E; cbn; lia|].
  assert (Z.log2 n < b + 1100)%Z by (apply Z.log2_lt_pow2; lia).
  lia.
Qed.

Lemma ulp_bound q b :
  Qabs q < two_to b -> (-1021 <= b)%Z -> ulp q <= two_to (b - 53).
Proof.
  intros H Hb. unfold ulp. apply two_to_le.
  pose proof (exponent_lt (Qabs q) b (Qabs_nonneg q) H ltac:(lia)). lia.
Qed.

End FloatFacts.

Section TimevalFacts.

Import Float Datetime.
Local Open Scope Q_scope.

Lemma trunc_near x : x - 1 < inject_Z (trunc x) /\ inject_Z (trunc x) < x + 1.
Proof.
  unfold trunc. destruct (Qle_bool 0 x).
  - pose proof (Qfloor_le x). pose proof (Qlt_floor x) as H2.
    rewrite inj_succ in H2. lra.
  - pose proof (Qle_ceiling x). pose proof (Qceiling_lt x) as H2.
    rewrite inj_pred in H2. lra.
Qed.

Lemma Qabs_lt x y : - y < x -> x < y -> Qabs x < y.
Proof.
  intros H1 H2. apply Qabs_case; intros; lra.
Qed.

(** A float within [2^-21] of a whole number of milliseconds is read as
    that number of milliseconds. *)
Lemma to_timeval_ms (N : Z) x :
  (- 8 * 10 ^ 12 <= N <= 8 * 10 ^ 12)%Z ->
  inject_Z N / 1000 - two_to (-21) <= x <= inject_Z N / 1000 + two_to (-21) ->
  to_timeval x = inl ((N / 1000)%Z, (N mod 1000 * 1000)%Z).
Proof.
  intros HN Hx. unfold to_timeval.
  change (two_to (-21)) with (1 # 2097152) in Hx.
  assert (E : inject_Z N / 1000 == inject_Z N * (1 # 1000)) by reflexivity.
  rewrite E in Hx. clear E.
  set (T := trunc x). pose proof (trunc_near x) as [T1 T2]. fold T in T1, T2.
  set (y := (x - inject_Z T) * inject_Z 1000000).
  set (M := (1000 * N - 1000000 * T)%Z).
  assert (EM : inject_Z M == 1000 * inject_Z N - 1000000 * inject_Z T).
  { unfold M, Z.sub. rewrite inject_Z_plus, inject_Z_opp, !inject_Z_mult.
    reflexivity. }
  change (inject_Z 1000000) with 1000000 in y.
  assert (Hy : inject_Z M - (477 # 1000) <= y <= inject_Z M + (477 # 1000)).
  { rewrite EM. unfold y. lra. }
  assert (By : Qabs y < two_to 20).
  { apply Qabs_lt; unfold y; change (two_to 20) with 1048576; lra. }
  pose proof (round_err y) as [R1 R2].
  pose proof (ulp_bound y 20 By ltac:(lia)) as U.
  pose proof (ulp_pos y) as U0.
  change (two_to (20 - 53)) with (1 # 8589934592) in U.
  assert (R : rne (round y) = M) by (apply rne_near; lra).
  rewrite R.
  assert (BM : (- 1000000 <= M <= 1000000)%Z).
  { assert (A : inject_Z (-1000001) < inject_Z M) by
      (change (inject_Z (-1000001)) with (-1000001); unfold y in Hy; lra).
    assert (B : inject_Z M < inject_Z 1000001) by
      (change (inject_Z 1000001) with 1000001; unfold y in Hy; lra).
    rewrite <- Zlt_Qlt in A, B. lia. }
  assert (BT : (- 2 ^ 40 <= T <= 2 ^ 40)%Z).
  { assert (A : inject_Z (- 2 ^ 40) < inject_Z T).
    { change (inject_Z (- 2 ^ 40)) with (-1099511627776).
      assert (inject_Z (- 8 * 10 ^ 12) <= inject_Z N)
        by (rewrite <- Zle_Qle; lia).
      change (inject_Z (- 8 * 10 ^ 12)) with (-8000000000000) in *. lra. }
    assert (B : inject_Z T < inject_Z (2 ^ 40)).
    { change (inject_Z (2 ^ 40)) with 1099511627776.
      assert (inject_Z N <= inject_Z (8 * 10 ^ 12))
        by (rewrite <- Zle_Qle; lia).
      change (inject_Z (8 * 10 ^ 12)) with 8000000000000 in *. lra. }
    rewrite <- Zlt_Qlt in A, B. lia. }
  destruct (Z.leb_spec 1000000 M) as [C1|C1].
  - replace ((- 2 ^ 63 <=? T + 1)%Z && (T + 1 <? 2 ^ 63)%Z) with true
      by (symmetry; apply andb_true_intro; split;
          [apply Z.leb_le|apply Z.ltb_lt]; lia).
    pose proof (Z.div_mod N 1000 ltac:(lia)) as DM.
      pose proof (Z.mod_pos_bound N 1000 ltac:(lia)) as MB.
      f_equal. f_equal; unfold M in *; lia.
  - destruct (Z.ltb_spec M 0) as [C2|C2].
    + replace ((- 2 ^ 63 <=? T - 1)%Z && (T - 1 <? 2 ^ 63)%Z) with true
        by (symmetry; apply andb_true_intro; split;
            [apply Z.leb_le|apply Z.ltb_lt]; lia).
      pose proof (Z.div_mod N 1000 ltac:(lia)) as DM.
      pose proof (Z.mod_pos_bound N 1000 ltac:(lia)) as MB.
      f_equal. f_equal; unfold M in *; lia.
    + replace ((- 2 ^ 63 <=? T)%Z && (T <? 2 ^ 63)%Z) with true
        by (symmetry; apply andb_true_intro; split;
            [apply Z.leb_le|apply Z.ltb_lt]; lia).
      pose proof (Z.div_mod N 1000 ltac:(lia)) as DM.
      pose proof (Z.mod_pos_bound N 1000 ltac:(lia)) as MB.
      f_equal. f_equal; unfold M in *; lia.
Qed.

End TimevalFacts.

(** ** Snowflakes *)

Section SnowflakeFacts.

Import Snowflake Spec2.

Lemma bit_length_bounds n lo hi :
  0 < lo ->
  (lo <= Py.bit_length n <= hi <-> 2 ^ (lo - 1) <= Z.abs n < 2 ^ hi).
Proof.
  intros Hlo. unfold Py.bit_length.
  destruct (Z.eqb_spec n 0) as [->|Hn].
  - simpl. split; [lia|]. intros [H _].
    assert (0 < 2 ^ (lo - 1)) by (apply Z.pow_pos_nonneg; lia). lia.
  - assert (Ha : 0 < Z.abs n) by lia.
    pose proof (Z.log2_nonneg (Z.abs n)) as Hl.
    split.
    + intros [H1 H2]. split.
      * apply Z.log2_le_pow2; lia.
      * apply Z.log2_lt_pow2; lia.
    + intros [H1 H2]. split.
      * apply Z.log2_le_pow2 in H1; lia.
      * apply Z.log2_lt_pow2 in H2; lia.
Qed.

Lemma new_accepts n :
  new n = inl n <-> 2 ^ 50 <= Z.abs n < 2 ^ 111.
Proof.
  rewrite <- (bit_length_bounds n 51 111) by lia.
  unfold new, SNOWFLAKE_MINIMUM_BIT_LENGTH, SNOWFLAKE_MAXIMUM_BIT_LENGTH.
  destruct (Z.leb_spec 51 (Py.bit_length n));
    destruct (Z.leb_spec (Py.bit_length n) 111); simpl;
    split; intros Hyp; try discriminate; try lia; reflexivity.
Qed.

Lemma milliseconds_64 n :
  - 2 ^ 63 <= n < 2 ^ 64 ->
  - 8 * 10 ^ 12 <= milliseconds n <= 8 * 10 ^ 12.
Proof.
  intros H. unfold milliseconds, DISCORD_EPOCH.
  rewrite Z.shiftr_div_pow2 by lia.
  assert (- 2 ^ 41 <= n / 2 ^ 22)
    by (apply Z.div_le_lower_bound; lia).
  assert (n / 2 ^ 22 < 2 ^ 42)
    by (apply Z.div_lt_upper_bound; lia).
  lia.
Qed.

(** The timestamp of a 64-bit id is a float within [2^-21] of its
    millisecond. *)
Lemma timestamp_64 ms :
  - 8 * 10 ^ 12 <= ms <= 8 * 10 ^ 12 ->
  exists x,
    Float.truediv ms 1000 = Some x
    /\ (inject_Z ms / 1000 - Float.two_to (-21) <= x
        <= inject_Z ms / 1000 + Float.two_to (-21))%Q.
Proof.
  intros H. unfold Float.truediv.
  set (q := (inject_Z ms / inject_Z 1000)%Q).
  assert (Bq : (- 8000000000 <= q <= 8000000000)%Q).
  { unfold q.
    assert (E : (inject_Z ms / inject_Z 1000 == inject_Z ms * (1 # 1000))%Q)
      by reflexivity.
    rewrite E.
    assert (A : (inject_Z (- 8 * 10 ^ 12) <= inject_Z ms)%Q)
      by (rewrite <- Zle_Qle; lia).
    assert (B : (inject_Z ms <= inject_Z (8 * 10 ^ 12))%Q)
      by (rewrite <- Zle_Qle; lia).
    change (inject_Z (- 8 * 10 ^ 12)) with (-8000000000000)%Q in A.
    change (inject_Z (8 * 10 ^ 12)) with 8000000000000%Q in B.
    lra. }
  assert (Aq : (Qabs q < Float.two_to 33)%Q).
  { apply Qabs_lt; change (Float.two_to 33) with 8589934592%Q; lra. }
  pose proof (round_err q) as [R1 R2].
  pose proof (ulp_bound q 33 Aq ltac:(lia)) as U.
  pose proof (ulp_pos q) as U0.
  change (Float.two_to (33 - 53)) with (1 # 1048576)%Q in U.
  assert (O : Float.overflows (Float.round q) = false).
  { unfold Float.overflows. destruct (Qle_bool _ _) eqn:E; [|reflexivity].
    exfalso. apply Qle_bool_iff in E.
    assert (L : (Float.two_to 34 <= Float.two_to 1024)%Q)
      by (apply two_to_le; lia).
    change (Float.two_to 34) with 17179869184%Q in L.
    assert (Qabs (Float.round q) < 17179869184)%Q
      by (apply Qabs_lt; lra).
    lra. }
  rewrite O. exists (Float.round q). split; [reflexivity|].
  change (Float.two_to (-21)) with (1 # 2097152)%Q. fold q.
  change (inject_Z ms / 1000)%Q with q. lra.
Qed.

(** The [datetime] of a 64-bit id, on any host. *)
Lemma datetime_64 utcoffset n :
  zone utcoffset -> - 2 ^ 63 <= n < 2 ^ 64 ->
  datetime utcoffset n
  = inl (clock_reading (utcoffset (milliseconds n / 1000)) (milliseconds n)).
Proof.
  intros Hz Hn. pose proof (milliseconds_64 n Hn) as Hm.
  unfold datetime. fold (milliseconds n).
  destruct (timestamp_64 _ Hm) as (x & -> & Hx).
  unfold Datetime.fromtimestamp.
  rewrite (to_timeval_ms (milliseconds n) x Hm Hx).
  set (t := milliseconds n / 1000).
  assert (Ht : - 8 * 10 ^ 9 <= t <= 8 * 10 ^ 9).
  { unfold t. split.
    - apply Z.div_le_lower_bound; lia.
    - apply Z.div_le_upper_bound; lia. }
  assert (L : forall u, - 10 ^ 10 <= u <= 10 ^ 10 ->
                        Datetime.local utcoffset u = inl (u + utcoffset u)).
  { intros u Hu. pose proof (Hz u) as Ho. unfold Datetime.local.
    unfold Datetime.TM_START, Datetime.TM_END, Datetime.MINYEAR_START,
      Datetime.MAXYEAR_END.
    rewrite (proj2 (Z.leb_le _ _)) by lia.
    rewrite (proj2 (Z.leb_le _ _)) by lia.
    rewrite (proj2 (Z.leb_le _ _)) by lia.
    rewrite (proj2 (Z.leb_le _ _)) by lia. reflexivity. }
  unfold Datetime.max_fold_seconds.
  rewrite (L t) by lia. rewrite (L (t - 86400)) by lia.
  pose proof (Hz t) as O1. pose proof (Hz (t - 86400)) as O2.
  destruct (_ <? 0); [|reflexivity].
  rewrite L by lia. reflexivity.
Qed.

(** C9. Snowflake timestamp decode: an integer whose bit length lies in
    [51, 111] is accepted by the constructor, and when it is a 64-bit
    integer (read signed or unsigned) its [datetime] is the date and
    time that the host's own clock shows at the instant
    [(id >> 22) + 1420070400000] milliseconds after 1970-01-01T00:00:00Z,
    exact to the millisecond, where [id >> 22] is the floor of
    [id / 2^22]: the UTC date and time moved by the host's UTC offset.
    An integer whose bit length is outside the bounds is refused with
    ValueError. *)
Theorem snowflake_datetime (utcoffset : Z -> Z) (n : Z) :
  zone utcoffset ->
  (51 <= Py.bit_length n <= 111 ->
     new n = inl n
     /\ (- 2 ^ 63 <= n < 2 ^ 64 ->
         datetime utcoffset n
         = inl (clock_reading (utcoffset (milliseconds n / 1000))
                              (milliseconds n))
         /\ milliseconds n = n / 2 ^ 22 + 1420070400000))
  /\ (~ 51 <= Py.bit_length n <= 111 -> new n = inr ValueError).
Proof.
  intros Hz. split.
  - intros H. split.
    + apply new_accepts, (bit_length_bounds n 51 111); [lia|exact H].
    + intros Hn. split; [now apply datetime_64|].
      unfold milliseconds, DISCORD_EPOCH.
      now rewrite Z.shiftr_div_pow2 by lia.
  - intros H. unfold new, SNOWFLAKE_MINIMUM_BIT_LENGTH,
      SNOWFLAKE_MAXIMUM_BIT_LENGTH.
    destruct (Z.leb_spec 51 (Py.bit_length n));
      destruct (Z.leb_spec (Py.bit_length n) 111); simpl;
      try reflexivity. lia.
Qed.

Lemma snowflake_datetime_witness :
  zone (fun _ => 0)
  /\ new 175928847299117063 = inl 175928847299117063
  /\ datetime (fun _ => 0) 175928847299117063
     = inl (Datetime.Naive 1462015105 796000)
  /\ new 1023 = inr ValueError.
Proof.
  assert (Hz : zone (fun _ => 0)) by (intros t; lia).
  split; [exact Hz|].
  destruct (snowflake_datetime (fun _ => 0) 175928847299117063 Hz)
    as [H _].
  destruct H as [H1 H2]; [vm_compute; split; discriminate|].
  destruct H2 as [H2 _]; [lia|].
  split; [exact H1|]. split; [exact H2|].
  apply (proj2 (snowflake_datetime (fun _ => 0) 1023 Hz)).
  vm_compute. intros [H _]. apply H. reflexivity.
Defined.

(** On a host an hour ahead of UTC the [datetime] of a snowflake is an
    hour ahead of the UTC date and time of its timestamp: what
    [datetime.fromtimestamp] gives is local time.  And an id the
    constructor accepts can be too large for [datetime] at all. *)
Lemma snowflake_datetime_is_local_time :
  Py.bit_length 175928847299117063 = 58
  /\ new 175928847299117063 = inl 175928847299117063
  /\ utc (milliseconds 175928847299117063)
     = Datetime.Naive 1462015105 796000
  /\ datetime (fun _ => 3600) 175928847299117063
     = inl (Datetime.Naive 1462018705 796000)
  /\ datetime (fun _ => 3600) 175928847299117063
     <> inl (utc (milliseconds 175928847299117063))
  /\ new (2 ^ 110) = inl (2 ^ 110)
  /\ datetime (fun _ => 0) (2 ^ 110) = inr Datetime.OverflowError.
Proof.
  assert (E : datetime (fun _ => 3600) 175928847299117063
              = inl (Datetime.Naive 1462018705 796000))
    by (vm_compute; reflexivity).
  split; [reflexivity|]. split; [reflexivity|]. split; [reflexivity|].
  split; [exact E|]. split; [rewrite E; discriminate|].
  split; [reflexivity|]. vm_compute. reflexivity.
Qed.

End SnowflakeFacts.

(** ** The heartbeat counters *)

Section HeartbeatFacts.

Import HeartbeatHandler.

Lemma step_counters e s s' :
  step e s = Some s' ->
  heartbeats_sent (hb s') = heartbeats_sent (hb s)
  /\ heartbeats_acked (hb s) <= heartbeats_acked (hb s').
Proof.
  destruct s as [h n k a]; destruct h as [i sent acked ls la ch st].
  destruct e; cbn [step hb];
    unfold send_heartbeat, wait_ack_acked, wait_ack_timeout, do_heartbeat,
      stop, mark_fired; cbn.
  - destruct st; intros [= <-]; cbn; lia.
  - destruct ch as [[| |]|]; try discriminate.
    destruct st; intros [= <-]; cbn; lia.
  - destruct a; [|discriminate]. destruct st; intros [= <-]; cbn; lia.
  - destruct a; [|discriminate]. intros [= <-]; cbn; lia.
  - intros [= <-]; cbn; lia.
Qed.

(** No transition of the handler writes [heartbeats_sent], and
    [heartbeats_acked] never goes down. *)
Lemma run_counters es : forall s s',
  run es s = Some s' ->
  heartbeats_sent (hb s') = heartbeats_sent (hb s)
  /\ heartbeats_acked (hb s) <= heartbeats_acked (hb s').
Proof.
  induction es as [|e es IH]; intros s s' H; simpl in H.
  - injection H as <-. lia.
  - destruct (step e s) as [s1|] eqn:E; [|discriminate]. simpl in H.
    destruct (step_counters _ _ _ E), (IH _ _ H). lia.
Qed.

Lemma reachable_sent_zero s : reachable s -> heartbeats_sent (hb s) = 0.
Proof. intros [es H]. now destruct (run_counters _ _ _ H) as [-> _]. Qed.

(** C5. The counters after one heartbeat that is acknowledged: the
    payload went out and the acknowledgement was counted, but
    [heartbeats_sent] still holds its initial 0, below [heartbeats_acked]. *)
Theorem heartbeat_acked_exceeds_sent :
  exists s,
    run [Start 0; Ack 1] fresh = Some s
    /\ payloads_sent s = 1%nat
    /\ heartbeats_acked (hb s) = 1
    /\ heartbeats_sent (hb s) = 0
    /\ ~ heartbeats_acked (hb s) <= heartbeats_sent (hb s).
Proof.
  eexists. split; [reflexivity|]. cbn. repeat split; lia.
Qed.

End HeartbeatFacts.

(** ** The upgrade handshake *)

Section HandshakeFacts.

Import Handshake Spec.
Local Open Scope string_scope.
Local Open Scope nat_scope.

Lemma prefix_length sub : forall s,
  String.prefix sub s = true -> String.length sub <= String.length s.
Proof.
  induction sub as [|c sub IH]; intros [|d s] H; simpl in *;
    try lia; try discriminate.
  destruct (ascii_dec c d); [|discriminate]. specialize (IH _ H). lia.
Qed.

Lemma find_bound sub : forall s i,
  Bytes.find sub s = Some i -> i + String.length sub <= String.length s.
Proof.
  induction s as [|c s IH]; intros i H; cbn [Bytes.find] in H.
  - destruct (String.prefix sub "") eqn:E; [|discriminate].
    injection H as <-. apply prefix_length in E. simpl in *. lia.
  - destruct (String.prefix sub (String c s)) eqn:E.
    + injection H as <-. apply prefix_length in E. simpl in *. lia.
    + destruct (Bytes.find sub s) as [j|] eqn:F; [|discriminate].
      injection H as <-. specialize (IH _ eq_refl). simpl. lia.
Qed.

Lemma skip_length n : forall s,
  String.length (Bytes.skip n s) = String.length s - n.
Proof. induction n; intros [|c s]; simpl; auto. Qed.

Lemma index_bound s sub start i :
  Bytes.index s sub start = Some i ->
  start <= i /\ i + String.length sub <= String.length s.
Proof.
  unfold Bytes.index.
  destruct (Nat.ltb_spec (String.length s) start); [discriminate|].
  destruct (Bytes.find sub (Bytes.skip start s)) as [j|] eqn:F; [|discriminate].
  intros [= <-]. apply find_bound in F. rewrite skip_length in F. lia.
Qed.

Lemma iter_headers_next_advances headers offset item offset' :
  iter_headers_next headers offset = Yield item offset' ->
  offset < offset' <= String.length headers.
Proof.
  unfold iter_headers_next.
  destruct (Bytes.index headers Bytes.CRLF offset) as [i|] eqn:E; [|discriminate].
  destruct (String.eqb _ _); [discriminate|].
  intros [= _ <-]. apply index_bound in E. simpl in E. lia.
Qed.

(** [dict(headers)] ends: the generator moves forward at every item. *)
Lemma dict_of_headers_fuel headers : forall fuel offset acc,
  String.length headers - offset < fuel ->
  dict_of_headers fuel headers offset acc <> None.
Proof.
  induction fuel as [|fuel IH]; intros offset acc Hf; [lia|].
  cbn [dict_of_headers].
  destruct (iter_headers_next headers offset) as [item off'| |e] eqn:E;
    try discriminate.
  apply iter_headers_next_advances in E.
  destruct item as [|k [|v [|? ?]]]; try discriminate.
  apply IH. lia.
Qed.

(** [connect] always comes to a verdict. *)
Lemma connect_total decode int headers : connect decode int headers <> None.
Proof.
  unfold connect.
  destruct (iter_headers_next headers 0) as [item off| |e]; try discriminate.
  destruct item as [|status [|? ?]]; try discriminate.
  destruct (nth_error _ 1) as [raw|]; [|discriminate].
  destruct (decode raw) as [status_code|]; [|discriminate].
  destruct (int status_code) as [n|]; [|discriminate].
  destruct (negb _); [discriminate|].
  destruct (dict_of_headers _ headers off ∅) as [[d|e]|] eqn:E.
  - destruct (d !! "connection") as [c|]; [|discriminate].
    destruct (decode c) as [connection|]; [|discriminate].
    destruct (negb _); [discriminate|].
    destruct (d !! "upgrade") as [u|]; [|discriminate].
    destruct (decode u) as [upgrade|]; [|discriminate].
    destruct (negb _); discriminate.
  - discriminate.
  - exfalso. revert E. apply dict_of_headers_fuel. lia.
Qed.



Example connect_accepts :
  connect ascii_decode decimal_int response_101 = Some (Ok tt).
Proof. reflexivity. Qed.

End HandshakeFacts.

(** ** The rate limiter *)

Section RatelimiterFacts.

Import Ratelimiter Spec.

(** *** First in, first out *)

Lemma fifo_same w w' :
  submitted w' = submitted w -> dispatched w' = dispatched w ->
  queue (rl w') = queue (rl w) -> fifo w -> fifo w'.
Proof. unfold fifo. now intros -> -> ->. Qed.

Ltac same_logs := apply fifo_same; reflexivity.

Lemma run_once_logs w w' :
  _burst_run_once w = Some w' ->
  exists req fut,
    queue (rl w) = (req, fut) :: queue (rl w')
    /\ dispatched w' = dispatched w ++ [req]
    /\ submitted w' = submitted w.
Proof.
  unfold _burst_run_once. destruct (queue (rl w)) as [|[req fut] rest];
    [discriminate|].
  intros [= <-]. exists req, fut. repeat split.
Qed.

Lemma fifo_run_once w w' : _burst_run_once w = Some w' -> fifo w -> fifo w'.
Proof.
  intros H. destruct (run_once_logs _ _ H) as (req & fut & Hq & Hd & Hs).
  unfold fifo. rewrite Hs, Hd, Hq. cbn [fmap list_fmap fst].
  now rewrite <- app_assoc.
Qed.

Lemma fifo_loop_head t w : fifo w -> fifo (loop_head t w).
Proof. unfold loop_head. destruct (queue (rl w)); same_logs. Qed.

Lemma fifo_dispatch_one t w : fifo w -> fifo (dispatch_one t w).
Proof.
  intros H. unfold dispatch_one.
  destruct (_burst_run_once _) as [w1|] eqn:E.
  - apply fifo_loop_head, (fifo_run_once _ _ E). revert H. same_logs.
  - revert H. same_logs.
Qed.

Lemma fifo_enter t w : fifo w -> fifo (enter t w).
Proof.
  intros H. unfold enter.
  destruct (negb (made_first_request _)).
  - destruct (_burst_run_once _) as [w1|] eqn:E.
    + assert (H1 : fifo w1)
        by (apply (fifo_run_once _ _ E); revert H; same_logs).
      revert H1. same_logs.
    + revert H. same_logs.
  - destruct (negb (ready _)); [destruct (new_headers _)|].
    + apply fifo_loop_head. revert H. same_logs.
    + revert H. same_logs.
    + apply fifo_loop_head. revert H. same_logs.
Qed.

Lemma fifo_resume t w w' : resume t w = Some w' -> fifo w -> fifo w'.
Proof.
  unfold resume. destruct (bursts w !! t) as [b|]; [|discriminate].
  cbn [mbind option_bind].
  destruct (must_cancel b), (pc b) as [| | | | |[|q]| | |];
    try discriminate;
    repeat match goal with
      | |- context [match ?x with _ => _ end] => destruct x
      | |- context [if ?x then _ else _] => destruct x
      end;
    try discriminate; intros [= <-] H;
    first [ apply fifo_enter; assumption
          | apply fifo_dispatch_one; assumption
          | apply fifo_loop_head; revert H; same_logs
          | revert H; same_logs ].
Qed.

Lemma request_logs req w :
  submitted (request req w).2 = submitted w ++ [req]
  /\ dispatched (request req w).2 = dispatched w
  /\ queue (rl (request req w).2) = queue (rl w) ++ [(req, next_id w)]
  /\ (request req w).1 = next_id w.
Proof.
  unfold request.
  set (w1 := set_next_id _ w).
  set (w2 := with_rl _ w1).
  set (w3 := set_submitted _ w2).
  destruct (negb (made_first_request (rl w3)));
    [|destruct (current_burst_task (rl w3))];
    repeat split; reflexivity.
Qed.

Lemma fifo_request req w : fifo w -> fifo (request req w).2.
Proof.
  destruct (request_logs req w) as (Hs & Hd & Hq & _).
  unfold fifo. rewrite Hs, Hd, Hq. intros ->.
  rewrite fmap_app, app_assoc. reflexivity.
Qed.

Lemma fifo_settle t p w : fifo w -> fifo (settle t p w).
Proof. unfold settle. destruct (requests w !! t); same_logs. Qed.

Lemma fifo_cancel t w : fifo w -> fifo (cancel t w).
Proof.
  unfold cancel. destruct (bursts w !! t) as [b|]; [destruct (pc b)|];
    same_logs.
Qed.

Lemma fifo_on_response t resp w w' :
  on_response t resp w = Some w' -> fifo w -> fifo w'.
Proof.
  unfold on_response. destruct (requests w !! t) as [rt|]; [|discriminate].
  cbn [mbind option_bind]. destruct (rpc rt), (target rt); try discriminate.
  - destruct (status resp =? 429); intros [= <-] H.
    + destruct (current_burst_task (rl w)) as [b|].
      * apply (fifo_cancel b) in H. revert H. same_logs.
      * revert H. same_logs.
    + apply fifo_settle. revert H.
      destruct (x_ratelimit_limit resp), (x_ratelimit_remaining resp),
        (x_ratelimit_reset resp); same_logs.
  - intros [= <-]. apply fifo_settle.
Qed.

Lemma fifo_on_text t w w' : on_text t w = Some w' -> fifo w -> fifo w'.
Proof.
  unfold on_text. destruct (requests w !! t) as [rt|]; [|discriminate].
  cbn [mbind option_bind].
  destruct (rpc rt) as [|data| | |]; try discriminate.
  destruct (target rt) as [r|r]; [|destruct data; discriminate].
  destruct data as [|[ra|]].
  - intros [= <-]. apply fifo_settle.
  - match goal with
    | |- context [request (Bare r) ?x] =>
        pose proof (fifo_request (Bare r) x) as L;
        destruct (request (Bare r) x) as [f w2]
    end.
    intros [= <-] H. cbn [snd] in L.
    assert (H2 : fifo w2) by (apply L; revert H; same_logs).
    revert H2. same_logs.
  - intros [= <-] H. apply fifo_settle. revert H. same_logs.
Qed.

Lemma step_fifo l w w' : step l w = Some w' -> fifo w -> fifo w'.
Proof.
  destruct l as [r|t|t resp|t|t|now]; cbn [step].
  - intros [= <-]. apply fifo_request.
  - apply fifo_resume.
  - apply fifo_on_response.
  - apply fifo_on_text.
  - unfold on_retry_done. destruct (requests w !! t) as [rt|]; [|discriminate].
    cbn [mbind option_bind]. destruct (rpc rt); try discriminate.
    destruct (existsb _ _); [|discriminate]. intros [= <-].
    apply fifo_settle.
  - destruct (Qle_bool _ _); [|discriminate]. intros [= <-]. same_logs.
Qed.

Lemma run_fifo ls : forall w w', run ls w = Some w' -> fifo w -> fifo w'.
Proof.
  induction ls as [|l ls IH]; intros w w' H Hw; cbn [run] in H.
  - now injection H as <-.
  - destruct (step l w) as [w1|] eqn:E; [|discriminate].
    exact (IH _ _ H (step_fifo _ _ _ E Hw)).
Qed.

(** C3. Per-bucket FIFO: in every state the event loop can reach, the
    requests dispatched so far, in dispatch order, followed by the requests
    still queued, in queue order, are exactly the requests submitted, in
    submission order.  So the k-th request the drainer pops is the k-th
    request that was enqueued. *)
Theorem dispatch_order_is_submission_order w :
  reachable w ->
  submitted w = dispatched w ++ (queue (rl w)).*1
  /\ (forall k req, dispatched w !! k = Some req -> submitted w !! k = Some req).
Proof.
  intros [ls H].
  assert (Hf : fifo w) by (apply (run_fifo _ _ _ H); reflexivity).
  split; [exact Hf|].
  intros k req Hk. rewrite Hf. now apply lookup_app_l_Some.
Qed.

Lemma dispatch_order_is_submission_order_witness :
  exists w,
    run [Submit 1; Submit 2; Submit 3; Resume 1] boot = Some w
    /\ submitted w = dispatched w ++ (queue (rl w)).*1
    /\ (forall k req,
          dispatched w !! k = Some req -> submitted w !! k = Some req).
Proof.
  destruct (run [Submit 1; Submit 2; Submit 3; Resume 1] boot) as [w|] eqn:E.
  - exists w. split; [reflexivity|].
    apply dispatch_order_is_submission_order.
    exists [Submit 1; Submit 2; Submit 3; Resume 1]. exact E.
  - exfalso. vm_compute in E. discriminate E.
Defined.

(** *** One burst task inside the lock *)

Lemma mutex_same w w' :
  bursts w' = bursts w -> lock (rl w') = lock (rl w) -> mutex w -> mutex w'.
Proof. unfold mutex. now intros -> ->. Qed.

Lemma only_same w w' t : bursts w' = bursts w -> only t w -> only t w'.
Proof. unfold only. now intros ->. Qed.

Ltac same_sched := first [apply mutex_same | apply only_same]; reflexivity.

Lemma free_only t w : mutex w -> lock (rl w) = None -> only t w.
Proof. intros M L t' b Hb Hin. specialize (M _ _ Hb Hin). congruence. Qed.

Lemma held_only t w : mutex w -> lock (rl w) = Some t -> only t w.
Proof. intros M L t' b Hb Hin. specialize (M _ _ Hb Hin). congruence. Qed.

Lemma lookup_set_pc t p w t' b :
  bursts (set_pc t p w) !! t' = Some b ->
  (t' = t /\ pc b = p) \/ (t' <> t /\ bursts w !! t' = Some b).
Proof.
  unfold set_pc, set_bursts. cbn [bursts].
  destruct (decide (t = t')) as [->|Hne].
  - rewrite lookup_alter_eq. destruct (bursts w !! t'); [|discriminate].
    intros [= <-]. left. auto.
  - rewrite lookup_alter_ne by exact Hne. intros H. right. auto.
Qed.

(** Task [t], holding the lock, parks somewhere. *)
Lemma mutex_park t p w :
  only t w -> lock (rl w) = Some t -> mutex (set_pc t p w).
Proof.
  intros O L t' b Hb Hin.
  destruct (lookup_set_pc _ _ _ _ _ Hb) as [[-> _]|[Hne Hb']].
  - exact L.
  - destruct Hne. exact (O _ _ Hb' Hin).
Qed.

(** Task [t] leaves the lock. *)
Lemma mutex_leave t p w :
  only t w -> in_body p = false -> mutex (leave t p w).
Proof.
  intros O Hp t' b Hb Hin. exfalso.
  destruct (lookup_set_pc _ _ _ _ _ Hb) as [[_ E]|[Hne Hb']].
  - rewrite E in Hin. congruence.
  - destruct Hne. exact (O _ _ Hb' Hin).
Qed.

Lemma mutex_finish t w : only t w -> mutex (finish t w).
Proof.
  intros O. unfold finish. apply mutex_leave; [|reflexivity].
  revert O. same_sched.
Qed.

Lemma mutex_loop_head t w :
  only t w -> lock (rl w) = Some t -> mutex (loop_head t w).
Proof.
  intros O L. unfold loop_head. destruct (queue (rl w)).
  - now apply mutex_finish.
  - now apply mutex_park.
Qed.

Lemma run_once_sched w w' :
  _burst_run_once w = Some w' ->
  bursts w' = bursts w /\ lock (rl w') = lock (rl w).
Proof.
  unfold _burst_run_once. destruct (queue (rl w)) as [|[req fut] rest];
    [discriminate|].
  intros [= <-]. split; reflexivity.
Qed.

Lemma mutex_dispatch_one t w :
  only t w -> lock (rl w) = Some t -> mutex (dispatch_one t w).
Proof.
  intros O L. unfold dispatch_one.
  destruct (_burst_run_once _) as [w1|] eqn:E.
  - destruct (run_once_sched _ _ E) as [Hb Hl].
    apply mutex_loop_head.
    + unfold only. rewrite Hb. exact O.
    + rewrite Hl. exact L.
  - apply mutex_leave; [|reflexivity]. revert O. same_sched.
Qed.

Lemma mutex_enter t w : mutex w -> lock (rl w) = None -> mutex (enter t w).
Proof.
  intros M L. pose proof (free_only t w M L) as O. unfold enter.
  destruct (negb (made_first_request _)).
  - destruct (_burst_run_once _) as [w1|] eqn:E.
    + destruct (run_once_sched _ _ E) as [Hb Hl].
      apply mutex_finish. unfold only. cbn [bursts with_rl]. rewrite Hb.
      exact O.
    + apply mutex_leave; [|reflexivity]. revert O. same_sched.
  - destruct (negb (ready _)); [destruct (new_headers _)|].
    + apply mutex_loop_head; [revert O; same_sched|reflexivity].
    + apply mutex_park; [revert O; same_sched|reflexivity].
    + apply mutex_loop_head; [revert O; same_sched|reflexivity].
Qed.

Lemma mutex_set_pc_idle t p w :
  mutex w -> in_body p = false -> mutex (set_pc t p w).
Proof.
  intros M Hp t' b Hb Hin.
  destruct (lookup_set_pc _ _ _ _ _ Hb) as [[_ E]|[_ Hb']].
  - rewrite E in Hin. congruence.
  - exact (M _ _ Hb' Hin).
Qed.

Lemma mutex_resume t w w' : resume t w = Some w' -> mutex w -> mutex w'.
Proof.
  unfold resume. destruct (bursts w !! t) as [b|] eqn:Hb; [|discriminate].
  cbn [mbind option_bind]. intros H M.
  assert (Hin : in_body (pc b) = true -> only t w /\ lock (rl w) = Some t).
  { intros Hin. pose proof (M _ _ Hb Hin) as L. split; [|exact L].
    now apply held_only. }
  destruct (must_cancel b), (pc b) as [| | | | |[|q]| | |];
    try discriminate;
    repeat match type of H with
      | context [match ?x with _ => _ end] => destruct x eqn:?
      | context [if ?x then _ else _] => destruct x eqn:?
      end;
    try discriminate; injection H as <-;
    try (destruct (Hin eq_refl) as [O L]);
    first [ apply mutex_set_pc_idle; [assumption|reflexivity]
          | apply mutex_leave; [assumption|reflexivity]
          | apply mutex_enter; assumption
          | apply mutex_dispatch_one; assumption
          | apply mutex_loop_head; [revert O; same_sched|exact L]
          | apply mutex_park; [revert O; same_sched|exact L]
          | apply mutex_park; assumption ].
Qed.

Lemma request_sched req w :
  lock (rl (request req w).2) = lock (rl w)
  /\ bursts (request req w).2
     = (if negb (made_first_request (rl w))
           || bool_decide (current_burst_task (rl w) = None)
        then <[S (next_id w) := Burst Created false]> (bursts w)
        else bursts w).
Proof.
  unfold request.
  set (w1 := set_next_id _ w).
  set (w2 := with_rl _ w1).
  set (w3 := set_submitted _ w2).
  change (made_first_request (rl w3)) with (made_first_request (rl w)).
  change (current_burst_task (rl w3)) with (current_burst_task (rl w)).
  destruct (negb (made_first_request (rl w)));
    [|destruct (current_burst_task (rl w))]; split; reflexivity.
Qed.

Lemma mutex_request req w : mutex w -> mutex (request req w).2.
Proof.
  destruct (request_sched req w) as [Hl Hb]. intros M t b.
  rewrite Hl, Hb. destruct (_ || _); [|apply M].
  destruct (decide (t = S (next_id w))) as [->|Hne].
  - rewrite lookup_insert_eq. intros [= <-]. discriminate.
  - rewrite lookup_insert_ne by congruence. apply M.
Qed.

Lemma mutex_cancel t w : mutex w -> mutex (cancel t w).
Proof.
  intros M. unfold cancel. destruct (bursts w !! t) as [b|] eqn:Hb; [|exact M].
  assert (G : mutex (set_bursts (<[t:=Burst (pc b) true]> (bursts w)) w)).
  { intros t' b'. cbn [set_bursts bursts rl].
    destruct (decide (t' = t)) as [->|Hne].
    - rewrite lookup_insert_eq. intros [= <-]. cbn [pc]. apply (M _ _ Hb).
    - rewrite lookup_insert_ne by congruence. apply M. }
  destruct (pc b); assumption.
Qed.

Lemma mutex_settle t p w : mutex w -> mutex (settle t p w).
Proof. unfold settle. destruct (requests w !! t); same_sched. Qed.

Lemma mutex_on_response t resp w w' :
  on_response t resp w = Some w' -> mutex w -> mutex w'.
Proof.
  unfold on_response. destruct (requests w !! t) as [rt|]; [|discriminate].
  cbn [mbind option_bind]. destruct (rpc rt), (target rt); try discriminate.
  - destruct (status resp =? 429); intros [= <-] H.
    + destruct (current_burst_task (rl w)) as [b|].
      * apply (mutex_cancel b) in H. revert H. same_sched.
      * revert H. same_sched.
    + apply mutex_settle. revert H.
      destruct (x_ratelimit_limit resp), (x_ratelimit_remaining resp),
        (x_ratelimit_reset resp); same_sched.
  - intros [= <-]. apply mutex_settle.
Qed.

Lemma mutex_on_text t w w' : on_text t w = Some w' -> mutex w -> mutex w'.
Proof.
  unfold on_text. destruct (requests w !! t) as [rt|]; [|discriminate].
  cbn [mbind option_bind].
  destruct (rpc rt) as [|data| | |]; try discriminate.
  destruct (target rt) as [r|r]; [|destruct data; discriminate].
  destruct data as [|[ra|]].
  - intros [= <-]. apply mutex_settle.
  - match goal with
    | |- context [request (Bare r) ?x] =>
        pose proof (mutex_request (Bare r) x) as L;
        destruct (request (Bare r) x) as [f w2]
    end.
    intros [= <-] H. cbn [snd] in L.
    assert (H2 : mutex w2) by (apply L; revert H; same_sched).
    revert H2. same_sched.
  - intros [= <-] H. apply mutex_settle. revert H. same_sched.
Qed.

Lemma step_mutex l w w' : step l w = Some w' -> mutex w -> mutex w'.
Proof.
  destruct l as [r|t|t resp|t|t|now]; cbn [step].
  - intros [= <-]. apply mutex_request.
  - apply mutex_resume.
  - apply mutex_on_response.
  - apply mutex_on_text.
  - unfold on_retry_done. destruct (requests w !! t) as [rt|]; [|discriminate].
    cbn [mbind option_bind]. destruct (rpc rt); try discriminate.
    destruct (existsb _ _); [|discriminate]. intros [= <-].
    apply mutex_settle.
  - destruct (Qle_bool _ _); [|discriminate]. intros [= <-]. same_sched.
Qed.

Lemma run_mutex ls : forall w w', run ls w = Some w' -> mutex w -> mutex w'.
Proof.
  induction ls as [|l ls IH]; intros w w' H Hw; cbn [run] in H.
  - now injection H as <-.
  - destruct (step l w) as [w1|] eqn:E; [|discriminate].
    exact (IH _ _ H (step_mutex _ _ _ E Hw)).
Qed.

Lemma boot_mutex : mutex boot.
Proof. intros t b H. cbn [boot bursts] in H. now rewrite lookup_empty in H. Qed.

(** C7 (as the code has it). At any instant at most one [do_burst] task
    is inside the block guarded by the bucket's lock, and that task holds
    the lock; other burst tasks may exist, waiting to start or waiting for
    the lock.  [request] starts a new burst task whenever
    [made_first_request] is false, and otherwise exactly when
    [current_burst_task] is [None]. *)
Theorem one_burst_task_inside_lock w :
  reachable w ->
  (forall t1 t2 b1 b2,
     bursts w !! t1 = Some b1 -> bursts w !! t2 = Some b2 ->
     in_body (pc b1) = true -> in_body (pc b2) = true ->
     t1 = t2 /\ lock (rl w) = Some t1)
  /\ (forall req,
        bursts (request req w).2
        = (if negb (made_first_request (rl w))
              || bool_decide (current_burst_task (rl w) = None)
           then <[S (next_id w) := Burst Created false]> (bursts w)
           else bursts w)).
Proof.
  intros [ls H]. pose proof (run_mutex _ _ _ H boot_mutex) as M. split.
  - intros t1 t2 b1 b2 H1 H2 I1 I2.
    pose proof (M _ _ H1 I1) as L1. pose proof (M _ _ H2 I2) as L2.
    split; [congruence|exact L1].
  - intros req. apply request_sched.
Qed.

Lemma one_burst_task_inside_lock_witness :
  exists w,
    run [Submit 1; Submit 2; Resume 1; Resume 3] boot = Some w
    /\ (forall t1 t2 b1 b2,
          bursts w !! t1 = Some b1 -> bursts w !! t2 = Some b2 ->
          in_body (pc b1) = true -> in_body (pc b2) = true ->
          t1 = t2 /\ lock (rl w) = Some t1)
    /\ (forall req,
          bursts (request req w).2
          = (if negb (made_first_request (rl w))
                || bool_decide (current_burst_task (rl w) = None)
             then <[S (next_id w) := Burst Created false]> (bursts w)
             else bursts w)).
Proof.
  destruct (run [Submit 1; Submit 2; Resume 1; Resume 3] boot) as [w|] eqn:E.
  - exists w. split; [reflexivity|].
    apply one_burst_task_inside_lock.
    exists [Submit 1; Submit 2; Resume 1; Resume 3]. exact E.
  - exfalso. vm_compute in E. discriminate E.
Defined.

(** C7, as stated, fails: two submissions before the first response leave
    one burst task waiting for headers inside the lock, and the next
    submission starts another one. *)
Lemma two_burst_tasks_alive :
  exists w,
    run [Submit 1; Submit 2; Resume 1; Resume 3; Submit 3] boot = Some w
    /\ bursts w !! 3%nat = Some (Burst WaitReady false)
    /\ bursts w !! 6%nat = Some (Burst Created false)
    /\ ~ single_burst_task w.
Proof.
  destruct (run [Submit 1; Submit 2; Resume 1; Resume 3; Submit 3] boot)
    as [w|] eqn:E.
  - exists w. split; [reflexivity|].
    vm_compute in E. injection E as <-.
    split; [vm_compute; reflexivity|]. split; [vm_compute; reflexivity|].
    unfold single_burst_task. vm_compute. lia.
  - vm_compute in E. discriminate E.
Qed.

(** *** Cold start *)

Lemma flag_run_once w w' :
  _burst_run_once w = Some w' ->
  made_first_request (rl w') = made_first_request (rl w).
Proof.
  unfold _burst_run_once. destruct (queue (rl w)) as [|[req fut] rest];
    [discriminate|].
  now intros [= <-].
Qed.

Lemma flag_loop_head t w :
  made_first_request (rl (loop_head t w)) = made_first_request (rl w).
Proof. unfold loop_head. destruct (queue (rl w)); reflexivity. Qed.

Lemma flag_dispatch_one t w :
  made_first_request (rl (dispatch_one t w)) = made_first_request (rl w).
Proof.
  unfold dispatch_one. destruct (_burst_run_once _) as [w1|] eqn:E;
    [|reflexivity].
  rewrite flag_loop_head. now rewrite (flag_run_once _ _ E).
Qed.

Lemma flag_enter t w :
  made_first_request (rl w) = true ->
  made_first_request (rl (enter t w)) = true.
Proof.
  intros H. unfold enter.
  change (made_first_request (rl (with_rl (set_lock (Some t)) w)))
    with (made_first_request (rl w)).
  rewrite H. cbn [negb].
  destruct (negb (ready _)); [destruct (new_headers _)|];
    rewrite ?flag_loop_head; exact H.
Qed.

Lemma flag_resume t w w' :
  resume t w = Some w' ->
  made_first_request (rl w) = true -> made_first_request (rl w') = true.
Proof.
  unfold resume. destruct (bursts w !! t) as [b|]; [|discriminate].
  cbn [mbind option_bind]. intros H F.
  destruct (must_cancel b), (pc b) as [| | | | |[|q]| | |];
    try discriminate;
    repeat match type of H with
      | context [match ?x with _ => _ end] => destruct x eqn:?
      | context [if ?x then _ else _] => destruct x eqn:?
      end;
    try discriminate; injection H as <-;
    rewrite ?flag_dispatch_one, ?flag_loop_head;
    first [ exact F | apply flag_enter; exact F ].
Qed.

Lemma flag_request req w :
  made_first_request (rl (request req w).2) = made_first_request (rl w).
Proof.
  unfold request.
  set (w1 := set_next_id _ w).
  set (w2 := with_rl _ w1).
  set (w3 := set_submitted _ w2).
  change (made_first_request (rl w3)) with (made_first_request (rl w)).
  change (current_burst_task (rl w3)) with (current_burst_task (rl w)).
  destruct (negb (made_first_request (rl w)));
    [|destruct (current_burst_task (rl w))]; reflexivity.
Qed.

Lemma flag_settle t p w :
  made_first_request (rl (settle t p w)) = made_first_request (rl w).
Proof. unfold settle. destruct (requests w !! t); reflexivity. Qed.

Lemma flag_cancel t w :
  made_first_request (rl (cancel t w)) = made_first_request (rl w).
Proof.
  unfold cancel. destruct (bursts w !! t) as [b|]; [destruct (pc b)|];
    reflexivity.
Qed.

Lemma flag_step l w w' :
  step l w = Some w' ->
  made_first_request (rl w) = true -> made_first_request (rl w') = true.
Proof.
  destruct l as [r|t|t resp|t|t|now]; cbn [step].
  - intros [= <-] H. rewrite <- H. apply flag_request.
  - apply flag_resume.
  - unfold on_response. destruct (requests w !! t) as [rt|]; [|discriminate].
    cbn [mbind option_bind]. destruct (rpc rt), (target rt); try discriminate.
    + destruct (status resp =? 429); intros [= <-] H.
      * destruct (current_burst_task (rl w)) as [b|]; [|exact H].
        change (made_first_request (rl (cancel b w)) = true).
        now rewrite flag_cancel.
      * rewrite flag_settle.
        destruct (x_ratelimit_limit resp), (x_ratelimit_remaining resp),
          (x_ratelimit_reset resp); exact H.
    + intros [= <-]. now rewrite flag_settle.
  - unfold on_text. destruct (requests w !! t) as [rt|]; [|discriminate].
    cbn [mbind option_bind].
    destruct (rpc rt) as [|data| | |]; try discriminate.
    destruct (target rt) as [r|r]; [|destruct data; discriminate].
    destruct data as [|[ra|]].
    + intros [= <-]. now rewrite flag_settle.
    + match goal with
      | |- context [request (Bare r) ?x] =>
          pose proof (flag_request (Bare r) x) as L;
          destruct (request (Bare r) x) as [f w2]
      end.
      intros [= <-] H. cbn [snd] in L.
      change (made_first_request (rl w2) = true). rewrite L. exact H.
    + intros [= <-] H. rewrite flag_settle. exact H.
  - unfold on_retry_done. destruct (requests w !! t) as [rt|]; [|discriminate].
    cbn [mbind option_bind]. destruct (rpc rt); try discriminate.
    destruct (existsb _ _); [|discriminate]. intros [= <-].
    now rewrite flag_settle.
  - destruct (Qle_bool _ _); [|discriminate]. now intros [= <-].
Qed.

Lemma request_requests req w : requests (request req w).2 = requests w.
Proof.
  unfold request.
  set (w1 := set_next_id _ w).
  set (w2 := with_rl _ w1).
  set (w3 := set_submitted _ w2).
  destruct (negb (made_first_request (rl w3)));
    [|destruct (current_burst_task (rl w3))]; reflexivity.
Qed.

(** What the cold branch of [do_burst] does, in one run. *)
Lemma enter_cold t w req fut rest :
  made_first_request (rl w) = false ->
  queue (rl w) = (req, fut) :: rest ->
  let w' := enter t w in
  dispatched w' = dispatched w ++ [req]
  /\ queue (rl w') = rest
  /\ made_first_request (rl w') = true
  /\ lock (rl w') = None
  /\ current_burst_task (rl w') = None
  /\ bursts w' = alter (fun b => Burst Done (must_cancel b)) t (bursts w)
  /\ requests w'
     = <[next_id w := RequestTask req fut AwaitResponse]> (requests w)
  /\ _tasks (rl w') = _tasks (rl w) ++ [next_id w]
  /\ limit (rl w') = limit (rl w)
  /\ _remaining (rl w') = _remaining (rl w)
  /\ _reset (rl w') = _reset (rl w)
  /\ new_headers (rl w') = new_headers (rl w)
  /\ submitted w' = submitted w.
Proof.
  intros F Q. unfold enter.
  change (made_first_request (rl (with_rl (set_lock (Some t)) w)))
    with (made_first_request (rl w)).
  rewrite F. cbn [negb]. unfold _burst_run_once.
  change (queue (rl (with_rl (set_lock (Some t)) w))) with (queue (rl w)).
  rewrite Q. repeat split; reflexivity.
Qed.

Lemma step_cold l w w' : step l w = Some w' -> cold w -> cold w'.
Proof.
  intros H C F'.
  assert (F : made_first_request (rl w) = false).
  { destruct (made_first_request (rl w)) eqn:F; [|reflexivity].
    rewrite (flag_step _ _ _ H F) in F'. discriminate. }
  destruct (C F) as (L & R & B & Q).
  destruct l as [r|t|t resp|t|t|now]; cbn [step] in H.
  - assert (E : (request (Wrapped r) w).2 = w') by congruence.
    clear H. subst w'.
    destruct (request_sched (Wrapped r) w) as [Hl Hb].
    destruct (request_logs (Wrapped r) w) as (_ & _ & Hq & _).
    rewrite F in Hb. cbn [negb orb] in Hb.
    rewrite Hl, Hb, Hq, request_requests.
    split; [exact L|]. split; [exact R|]. split.
    + intros t b. destruct (decide (t = S (next_id w))) as [->|Hne].
      * rewrite lookup_insert_eq. now intros [= <-].
      * rewrite lookup_insert_ne by congruence. apply B.
    + intros _ _ _. now destruct (queue (rl w)).
  - exfalso. unfold resume in H.
    destruct (bursts w !! t) as [b|] eqn:Hb; [|discriminate].
    cbn [mbind option_bind] in H. rewrite (B _ _ Hb) in H.
    cbn [must_cancel pc] in H. rewrite L in H. injection H as <-.
    destruct (queue (rl w)) as [|[req fut] rest] eqn:Hq;
      [exact (Q _ _ Hb eq_refl)|].
    destruct (enter_cold t w req fut rest F Hq) as (_ & _ & E & _).
    rewrite E in F'. discriminate.
  - unfold on_response in H. rewrite R, lookup_empty in H. discriminate.
  - unfold on_text in H. rewrite R, lookup_empty in H. discriminate.
  - unfold on_retry_done in H. rewrite R, lookup_empty in H. discriminate.
  - destruct (Qle_bool _ _); [|discriminate]. injection H as <-.
    exact (conj L (conj R (conj B Q))).
Qed.

Lemma run_cold ls : forall w w', run ls w = Some w' -> cold w -> cold w'.
Proof.
  induction ls as [|l ls IH]; intros w w' H Hw; cbn [run] in H.
  - now injection H as <-.
  - destruct (step l w) as [w1|] eqn:E; [|discriminate].
    exact (IH _ _ H (step_cold _ _ _ E Hw)).
Qed.

Lemma boot_cold : cold boot.
Proof.
  intros _. repeat split; intros t b H; cbn [boot bursts] in H;
    now rewrite lookup_empty in H.
Qed.

(** C4. Cold-start policy: while [made_first_request] is false, any burst
    task the event loop runs goes through [do_burst] in a single run,
    without parking for headers or for a sleep: it takes the lock, pops
    and dispatches exactly the head of the queue, sets
    [made_first_request], clears [current_burst_task], releases the lock
    and is done.  The rest of the queue stays queued, and the rate-limit
    numbers and the header signal are untouched. *)
Theorem cold_start_dispatches_one w t b :
  reachable w ->
  made_first_request (rl w) = false ->
  bursts w !! t = Some b ->
  exists req fut rest w',
    queue (rl w) = (req, fut) :: rest
    /\ resume t w = Some w'
    /\ dispatched w' = dispatched w ++ [req]
    /\ queue (rl w') = rest
    /\ made_first_request (rl w') = true
    /\ bursts w' !! t = Some (Burst Done false)
    /\ lock (rl w') = None
    /\ requests w' = <[next_id w := RequestTask req fut AwaitResponse]> ∅
    /\ _remaining (rl w') = _remaining (rl w)
    /\ _reset (rl w') = _reset (rl w)
    /\ new_headers (rl w') = new_headers (rl w).
Proof.
  intros [ls H] F Hb.
  destruct (run_cold _ _ _ H boot_cold F) as (L & R & B & Q).
  destruct (queue (rl w)) as [|[req fut] rest] eqn:Hq;
    [destruct (Q _ _ Hb eq_refl)|].
  exists req, fut, rest, (enter t w).
  destruct (enter_cold t w req fut rest F Hq)
    as (Hd & Hq' & Hf & Hl & _ & Hbs & Hr & _ & _ & Hrem & Hrst & Hnh & _).
  split; [reflexivity|]. split.
  - unfold resume. rewrite Hb. cbn [mbind option_bind].
    rewrite (B _ _ Hb). cbn [must_cancel pc]. now rewrite L.
  - repeat split; try assumption.
    + rewrite Hbs, lookup_alter_eq, Hb, (B _ _ Hb). reflexivity.
    + rewrite Hr, R. reflexivity.
Qed.

Lemma cold_start_dispatches_one_witness :
  exists w,
    run [Submit 7; Submit 8] boot = Some w
    /\ exists req fut rest w',
         queue (rl w) = (req, fut) :: rest
         /\ resume 1 w = Some w'
         /\ dispatched w' = dispatched w ++ [req]
         /\ queue (rl w') = rest
         /\ made_first_request (rl w') = true
         /\ bursts w' !! 1%nat = Some (Burst Done false)
         /\ lock (rl w') = None
         /\ requests w'
            = <[next_id w := RequestTask req fut AwaitResponse]> ∅
         /\ _remaining (rl w') = _remaining (rl w)
         /\ _reset (rl w') = _reset (rl w)
         /\ new_headers (rl w') = new_headers (rl w).
Proof.
  destruct (run [Submit 7; Submit 8] boot) as [w|] eqn:E.
  - exists w. split; [reflexivity|].
    apply (cold_start_dispatches_one w 1 (Burst Created false)).
    + exists [Submit 7; Submit 8]. exact E.
    + vm_compute in E. injection E as <-. reflexivity.
    + vm_compute in E. injection E as <-. vm_compute. reflexivity.
  - exfalso. vm_compute in E. discriminate E.
Defined.

(** *** The drain loop and [remaining] *)

Lemma remaining_run_once w w' :
  _burst_run_once w = Some w' -> _remaining (rl w') = _remaining (rl w).
Proof.
  unfold _burst_run_once. destruct (queue (rl w)) as [|[req fut] rest];
    [discriminate|].
  now intros [= <-].
Qed.

Lemma remaining_loop_head t w :
  _remaining (rl (loop_head t w)) = _remaining (rl w).
Proof. unfold loop_head. destruct (queue (rl w)); reflexivity. Qed.

(** Every dispatch of the drain loop takes exactly one off [remaining]. *)
Lemma remaining_dispatch_one t w :
  _remaining (rl (dispatch_one t w)) = minus_one (_remaining (rl w)).
Proof.
  unfold dispatch_one. destruct (_burst_run_once _) as [w1|] eqn:E;
    [|reflexivity].
  rewrite remaining_loop_head. now rewrite (remaining_run_once _ _ E).
Qed.

Lemma minus_one_not_negative x :
  le_zero x = false -> not_negative (minus_one x).
Proof.
  destruct x as [|z]; cbn; [trivial|].
  destruct (Z.leb_spec z 0); [discriminate|]. lia.
Qed.

Lemma sleep_until_reset_spec t w b :
  bursts w !! t = Some b ->
  exists wake,
    bursts (sleep_until_reset t w) !! t = Some (Burst (Sleeping wake) (must_cancel b))
    /\ covers_reset (_reset (rl w)) (clock w) wake
    /\ dispatched (sleep_until_reset t w) = dispatched w
    /\ _remaining (rl (sleep_until_reset t w)) = _remaining (rl w)
    /\ queue (rl (sleep_until_reset t w)) = queue (rl w).
Proof.
  intros Hb. unfold sleep_until_reset, reset_after.
  eexists. split; [|split; [|repeat split]].
  - unfold set_pc, set_bursts. cbn [bursts].
    rewrite lookup_alter_eq, Hb. reflexivity.
  - unfold covers_reset. destruct (_reset (rl w)) as [|r]; [exact I|].
    destruct (Qle_bool (r - clock w) 0) eqn:E.
    + apply Qle_bool_iff in E. split; lra.
    + assert (~ (r - clock w <= 0)%Q)
        by (intros Hle; apply Qle_bool_iff in Hle; congruence).
      split; lra.
Qed.

Lemma sleep_after_headers t w :
  new_headers (rl (sleep_until_reset t (clear_headers w))) = false.
Proof. reflexivity. Qed.

(** C6 (as the code has it). The gate of the drain loop.  At the test of
    an iteration, a task that finds [remaining <= 0] dispatches nothing
    and leaves [remaining] alone.  It goes through [wait_for_headers]:
    with the header signal down it parks there, and it can only go on
    once the signal is up; with the signal up (already, or by then) it
    takes the signal down and sleeps until a time that is not before the
    reset time, and it can only go on from the sleep when that time has
    come.  A task that finds [remaining > 0] takes one off and
    [remaining] stays at or above 0.  The decrement after the sleep is
    unconditional: it takes one off whatever [remaining] is by then. *)
Theorem drain_loop_gate w t b w' :
  bursts w !! t = Some b ->
  must_cancel b = false ->
  resume t w = Some w' ->
  match pc b with
  | Yielded =>
      if le_zero (_remaining (rl w)) then
        dispatched w' = dispatched w
        /\ _remaining (rl w') = _remaining (rl w)
        /\ new_headers (rl w') = false
        /\ if new_headers (rl w) then
             exists wake,
               bursts w' !! t = Some (Burst (Sleeping wake) false)
               /\ covers_reset (_reset (rl w)) (clock w) wake
           else bursts w' !! t = Some (Burst WaitHeaders false)
      else
        _remaining (rl w') = minus_one (_remaining (rl w))
        /\ not_negative (_remaining (rl w'))
  | WaitHeaders =>
      new_headers (rl w) = true
      /\ new_headers (rl w') = false
      /\ dispatched w' = dispatched w
      /\ _remaining (rl w') = _remaining (rl w)
      /\ exists wake,
           bursts w' !! t = Some (Burst (Sleeping wake) false)
           /\ covers_reset (_reset (rl w)) (clock w) wake
  | Sleeping wake =>
      (exists q, wake = Fin q /\ (q <= clock w)%Q)
      /\ _remaining (rl w') = minus_one (_remaining (rl w))
  | _ => True
  end.
Proof.
  intros Hb Hc H. unfold resume in H. rewrite Hb in H.
  cbn [mbind option_bind] in H. rewrite Hc in H.
  destruct (pc b) as [| | | | |wake| | |] eqn:Hpc; try exact I.
  - destruct (le_zero (_remaining (rl w))) eqn:Hz.
    + destruct (new_headers (rl w)) eqn:Hh; injection H as <-.
      * destruct (sleep_until_reset_spec t (clear_headers w) b Hb)
          as (wake & Hw & Hcov & Hd & Hr & _).
        split; [exact Hd|]. split; [exact Hr|].
        split; [apply sleep_after_headers|].
        exists wake. rewrite Hc in Hw. split; [exact Hw|exact Hcov].
      * split; [reflexivity|]. split; [reflexivity|].
        split; [exact Hh|].
        unfold set_pc, set_bursts. cbn [bursts].
        rewrite lookup_alter_eq, Hb. cbn [fmap option_fmap option_map].
        now rewrite Hc.
    + injection H as <-. rewrite remaining_dispatch_one. split; [reflexivity|].
      now apply minus_one_not_negative.
  - destruct (new_headers (rl w)); [|discriminate]. injection H as <-.
    destruct (sleep_until_reset_spec t (clear_headers w) b Hb)
      as (wake & Hw & Hcov & Hd & Hr & _).
    split; [reflexivity|]. split; [apply sleep_after_headers|].
    split; [exact Hd|]. split; [exact Hr|].
    exists wake. rewrite Hc in Hw. split; [exact Hw|exact Hcov].
  - destruct wake as [|q]; [discriminate|].
    destruct (Qle_bool q (clock w)) eqn:E; [|discriminate].
    injection H as <-. split.
    + exists q. split; [reflexivity|]. now apply Qle_bool_iff.
    + apply remaining_dispatch_one.
Qed.

Lemma drain_loop_gate_witness :
  exists w w',
    run [Submit 1; Resume 1; Respond 2 used_up; Submit 2; Resume 4] boot
    = Some w
    /\ resume 4 w = Some w'
    /\ new_headers (rl w) = true
    /\ dispatched w' = dispatched w
    /\ _remaining (rl w') = _remaining (rl w)
    /\ new_headers (rl w') = false
    /\ exists wake,
         bursts w' !! 4%nat = Some (Burst (Sleeping wake) false)
         /\ covers_reset (_reset (rl w)) (clock w) wake.
Proof.
  destruct (run [Submit 1; Resume 1; Respond 2 used_up; Submit 2; Resume 4]
              boot) as [w|] eqn:E; [|vm_compute in E; discriminate E].
  destruct (resume 4 w) as [w'|] eqn:R.
  - exists w, w'. split; [reflexivity|]. split; [exact R|].
    assert (Hb : bursts w !! 4%nat = Some (Burst Yielded false))
      by (vm_compute in E; injection E as <-; vm_compute; reflexivity).
    assert (Hz : le_zero (_remaining (rl w)) = true)
      by (vm_compute in E; injection E as <-; reflexivity).
    assert (Hh : new_headers (rl w) = true)
      by (vm_compute in E; injection E as <-; reflexivity).
    pose proof (drain_loop_gate w 4 _ w' Hb eq_refl R) as G.
    cbn [pc] in G. rewrite Hz, Hh in G. split; [exact Hh|exact G].
  - exfalso. vm_compute in E. injection E as <-. vm_compute in R.
    discriminate R.
Defined.

(** C6, as stated, fails: after a response whose headers say
    [Remaining: 0], the next request waits for the reset time and is then
    dispatched with [remaining] going from 0 to -1. *)
Lemma remaining_goes_negative :
  exists w w',
    run [Submit 1; Resume 1; Respond 2 used_up; Submit 2; Resume 4;
         Resume 4; Advance (inject_Z 10)] boot = Some w
    /\ _remaining (rl w) = Fin 0
    /\ resume 4 w = Some w'
    /\ dispatched w' = dispatched w ++ [Wrapped 2]
    /\ _remaining (rl w') = Fin (-1)
    /\ ~ not_negative (_remaining (rl w')).
Proof.
  destruct (run [Submit 1; Resume 1; Respond 2 used_up; Submit 2; Resume 4;
                 Resume 4; Advance (inject_Z 10)] boot) as [w|] eqn:E;
    [|vm_compute in E; discriminate E].
  exists w.
  assert (Ew := E). vm_compute in Ew. injection Ew as Ew.
  destruct (resume 4 w) as [w'|] eqn:R; rewrite <- Ew in R;
    vm_compute in R; [|discriminate R].
  injection R as R. exists w'. split; [reflexivity|].
  rewrite <- R, <- Ew.
  split; [reflexivity|]. split; [reflexivity|].
  split; [reflexivity|]. split; [reflexivity|]. cbn. lia.
Qed.

(** *** The 429 branch of [_request] *)

Lemma cancel_spec b w bt :
  bursts w !! b = Some bt ->
  alive (pc bt) = true ->
  bursts (cancel b w) !! b = Some (Burst (pc bt) true)
  /\ rl (cancel b w) = rl w
  /\ requests (cancel b w) = requests w.
Proof.
  intros Hb Ha. unfold cancel. rewrite Hb.
  destruct (pc bt) eqn:E; try discriminate;
    (split; [cbn [set_bursts bursts]; now rewrite lookup_insert_eq
            |split; reflexivity]).
Qed.

Lemma cancel_frame b w :
  rl (cancel b w) = rl w /\ requests (cancel b w) = requests w.
Proof.
  unfold cancel. destruct (bursts w !! b) as [bt|]; [destruct (pc bt)|];
    split; reflexivity.
Qed.

Lemma request_numbers req w :
  _remaining (rl (request req w).2) = _remaining (rl w)
  /\ _reset (rl (request req w).2) = _reset (rl w)
  /\ new_headers (rl (request req w).2) = new_headers (rl w)
  /\ limit (rl (request req w).2) = limit (rl w).
Proof.
  unfold request.
  set (w1 := set_next_id _ w).
  set (w2 := with_rl _ w1).
  set (w3 := set_submitted _ w2).
  destruct (negb (made_first_request (rl w3)));
    [|destruct (current_burst_task (rl w3))]; repeat split; reflexivity.
Qed.

(** The 429 branch of [_request], step by step: it asks the bucket's
    current burst task (if there is a live one) to cancel and goes on to
    read the body; with the body read and its [retry_after] (in
    milliseconds) there, it sets [remaining] to 0 and the reset time to
    the float sum of now and retry_after/1000, raises the header signal,
    and submits the original operation again, which puts it at the tail
    of the bucket's queue, where the wrapper awaits its future. *)
Lemma request_resubmits_after_429 w t r f resp retry_after :
  requests w !! t = Some (RequestTask (Wrapped r) f AwaitResponse) ->
  status resp = 429 ->
  text resp = Json (Some retry_after) ->
  exists w1,
    on_response t resp w = Some w1
    /\ (forall b bt,
          current_burst_task (rl w) = Some b ->
          bursts w !! b = Some bt -> alive (pc bt) = true ->
          bursts w1 !! b = Some (Burst (pc bt) true))
    /\ queue (rl w1) = queue (rl w)
    /\ requests w1 !! t
       = Some (RequestTask (Wrapped r) f (AwaitText (Json (Some retry_after))))
    /\ forall w2,
         requests w2 !! t
         = Some (RequestTask (Wrapped r) f
                   (AwaitText (Json (Some retry_after)))) ->
         exists w3,
           on_text t w2 = Some w3
           /\ _remaining (rl w3) = Fin 0
           /\ _reset (rl w3)
              = Fin (Float.add (clock w2)
                               (Float.div retry_after (inject_Z 1000)))
           /\ new_headers (rl w3) = true
           /\ queue (rl w3) = queue (rl w2) ++ [(Bare r, next_id w2)]
           /\ submitted w3 = submitted w2 ++ [Bare r]
           /\ requests w3 !! t
              = Some (RequestTask (Wrapped r) f (AwaitRetry (next_id w2))).
Proof.
  intros Hreq Hs Ht. unfold on_response. rewrite Hreq.
  cbn [mbind option_bind rpc target]. rewrite Hs, Ht. cbn [Z.eqb Pos.eqb].
  eexists. split; [reflexivity|]. split; [|split; [|split]].
  - intros b bt Hc Hb Ha. rewrite Hc.
    destruct (cancel_spec b w bt Hb Ha) as (Hl & _ & _). exact Hl.
  - destruct (current_burst_task (rl w)) as [b|]; [|reflexivity].
    change (queue (rl (cancel b w)) = queue (rl w)).
    now rewrite (proj1 (cancel_frame b w)).
  - unfold set_rpc, set_requests. cbn [requests].
    rewrite lookup_alter_eq.
    destruct (current_burst_task (rl w)) as [b|].
    + rewrite (proj2 (cancel_frame b w)), Hreq. reflexivity.
    + rewrite Hreq. reflexivity.
  - intros w2 H2. unfold on_text. rewrite H2.
    cbn [mbind option_bind rpc target].
    match goal with
    | |- context [request (Bare r) ?x] =>
        pose proof (request_logs (Bare r) x) as (Ls & _ & Lq & Lf);
        pose proof (request_numbers (Bare r) x) as (Nr & Nt & Nh & _);
        pose proof (request_requests (Bare r) x) as Lr;
        destruct (request (Bare r) x) as [f' w3]
    end.
    cbn [fst snd] in *. eexists. split; [reflexivity|].
    split; [exact Nr|]. split; [exact Nt|]. split; [exact Nh|].
    split; [exact Lq|]. split; [exact Ls|].
    unfold set_rpc, set_requests. cbn [requests].
    rewrite lookup_alter_eq, Lr. cbn [with_rl requests].
    rewrite H2, Lf. reflexivity.
Qed.

Lemma request_resubmits_after_429_witness :
  exists w w1,
    run [Submit 1; Resume 1] boot = Some w
    /\ on_response 2 too_many w = Some w1
    /\ (forall b bt,
          current_burst_task (rl w) = Some b ->
          bursts w !! b = Some bt -> alive (pc bt) = true ->
          bursts w1 !! b = Some (Burst (pc bt) true))
    /\ queue (rl w1) = queue (rl w)
    /\ requests w1 !! 2%nat
       = Some (RequestTask (Wrapped 1) 0
                 (AwaitText (Json (Some (inject_Z 2000)))))
    /\ forall w2,
         requests w2 !! 2%nat
         = Some (RequestTask (Wrapped 1) 0
                   (AwaitText (Json (Some (inject_Z 2000))))) ->
         exists w3,
           on_text 2 w2 = Some w3
           /\ _remaining (rl w3) = Fin 0
           /\ _reset (rl w3)
              = Fin (Float.add (clock w2)
                               (Float.div (inject_Z 2000) (inject_Z 1000)))
           /\ new_headers (rl w3) = true
           /\ queue (rl w3) = queue (rl w2) ++ [(Bare 1, next_id w2)]
           /\ submitted w3 = submitted w2 ++ [Bare 1]
           /\ requests w3 !! 2%nat
              = Some (RequestTask (Wrapped 1) 0 (AwaitRetry (next_id w2))).
Proof.
  destruct (run [Submit 1; Resume 1] boot) as [w|] eqn:E;
    [|vm_compute in E; discriminate E].
  assert (Hreq : requests w !! 2%nat
                 = Some (RequestTask (Wrapped 1) 0 AwaitResponse))
    by (vm_compute in E; injection E as <-; vm_compute; reflexivity).
  destruct (request_resubmits_after_429 w 2 1 0 too_many (inject_Z 2000)
              Hreq eq_refl eq_refl) as (w1 & H1 & H2).
  exists w, w1. split; [reflexivity|]. split; [exact H1|exact H2].
Defined.
End RatelimiterFacts.

(** ** More on the heartbeat handler *)

Section HeartbeatMore.

Import HeartbeatHandler.

Lemma step_stopped e s s' :
  step e s = Some s' ->
  stopped (hb s) = true ->
  stopped (hb s') = true /\ payloads_sent s' = payloads_sent s.
Proof.
  destruct s as [h n k a]; destruct h as [i sent acked ls la ch st].
  cbn [hb stopped]. intros H ->. revert H.
  destruct e; cbn [step hb];
    unfold send_heartbeat, wait_ack_acked, wait_ack_timeout, do_heartbeat,
      stop, mark_fired; cbn.
  - intros [= <-]; cbn. split; reflexivity.
  - destruct ch as [[| |]|]; try discriminate.
    intros [= <-]; cbn. split; reflexivity.
  - destruct a; [|discriminate]. intros [= <-]; cbn. split; reflexivity.
  - destruct a; [|discriminate]. intros [= <-]; cbn. split; reflexivity.
  - intros [= <-]; cbn. split; reflexivity.
Qed.

(** X1. Once the handler is stopped it stays stopped and no heartbeat
    payload is sent any more, whatever happens next (timers firing,
    acknowledgements arriving, [start] being called again). *)
Theorem stopped_handler_sends_nothing es : forall s s',
  stopped (hb s) = true ->
  run es s = Some s' ->
  stopped (hb s') = true /\ payloads_sent s' = payloads_sent s.
Proof.
  induction es as [|e es IH]; intros s s' Hs H; cbn [run] in H.
  - injection H as <-. auto.
  - destruct (step e s) as [s1|] eqn:E; [|discriminate]. cbn in H.
    destruct (step_stopped _ _ _ E Hs) as [H1 H2].
    destruct (IH _ _ H1 H) as [H3 H4]. split; [exact H3|congruence].
Qed.

Lemma stopped_handler_sends_nothing_witness :
  exists s s',
    run [Start 0; Stop] fresh = Some s
    /\ run [Ack 1; Start 2] s = Some s'
    /\ stopped (hb s') = true /\ payloads_sent s' = payloads_sent s.
Proof.
  destruct (run [Start 0; Stop] fresh) as [s|] eqn:E; [|discriminate E].
  assert (Hs : stopped (hb s) = true)
    by (vm_compute in E; injection E as <-; reflexivity).
  destruct (run [Ack 1; Start 2] s) as [s'|] eqn:E2.
  - exists s, s'. split; [reflexivity|]. split; [exact E2|].
    exact (stopped_handler_sends_nothing _ _ _ Hs E2).
  - exfalso. vm_compute in E. injection E as <-. discriminate E2.
Defined.

(** X2. A heartbeat that is not acknowledged in time stops the handler:
    [wait_ack] sets [stopped], cancels a pending timer, pushes exactly one
    [connection_stale], and from then on no heartbeat payload goes out. *)
Theorem heartbeat_timeout_stops s s1 :
  step AckTimeout s = Some s1 ->
  awaiting_ack s = true
  /\ stopped (hb s1) = true
  /\ current_handle (hb s1) <> Some Pending
  /\ stale_events s1 = S (stale_events s)
  /\ payloads_sent s1 = payloads_sent s
  /\ heartbeats_acked (hb s1) = heartbeats_acked (hb s)
  /\ forall es s2, run es s1 = Some s2 -> payloads_sent s2 = payloads_sent s.
Proof.
  cbn [step]. destruct (awaiting_ack s) eqn:A; [|discriminate].
  intros [= <-].
  assert (St : stopped (hb (wait_ack_timeout s)) = true) by reflexivity.
  repeat split.
  - unfold wait_ack_timeout, do_heartbeat, stop. cbn.
    destruct (current_handle (hb s)); discriminate.
  - intros es s2 H.
    destruct (stopped_handler_sends_nothing es _ _ St H) as [_ E].
    exact E.
Qed.

Lemma heartbeat_timeout_stops_witness :
  exists s s1,
    run [Start 0] fresh = Some s
    /\ step AckTimeout s = Some s1
    /\ stopped (hb s1) = true
    /\ stale_events s1 = S (stale_events s)
    /\ forall es s2, run es s1 = Some s2 -> payloads_sent s2 = payloads_sent s.
Proof.
  eexists (send_heartbeat 0 fresh), _. split; [reflexivity|].
  split; [reflexivity|].
  destruct (heartbeat_timeout_stops (send_heartbeat 0 fresh) _ eq_refl)
    as (_ & H1 & _ & H2 & _ & _ & H3).
  split; [exact H1|]. split; [exact H2|exact H3].
Defined.

End HeartbeatMore.

(** ** More on snowflakes *)

Section SnowflakeMore.

Import Snowflake Spec2.

Lemma land_shifted n k mask :
  0 <= k ->
  Z.shiftr (Z.land n (Z.shiftl (Z.ones mask) k)) k
  = (n / 2 ^ k) mod 2 ^ mask \/ mask < 0.
Proof.
  intros Hk. destruct (Z.le_gt_cases 0 mask) as [Hm|Hm]; [left|right; lia].
  rewrite Z.shiftr_land, Z.shiftr_shiftl_l, Z.sub_diag, Z.shiftl_0_r by lia.
  rewrite Z.land_ones, Z.shiftr_div_pow2 by lia. reflexivity.
Qed.

Lemma worker_id_mod n : worker_id n = (n / 2 ^ 17) mod 2 ^ 5.
Proof.
  unfold worker_id. change 0x3E0000 with (Z.shiftl (Z.ones 5) 17).
  destruct (land_shifted n 17 5) as [H|H]; [lia|exact H|lia].
Qed.

Lemma process_id_mod n : process_id n = (n / 2 ^ 12) mod 2 ^ 5.
Proof.
  unfold process_id. change 0x1F000 with (Z.shiftl (Z.ones 5) 12).
  destruct (land_shifted n 12 5) as [H|H]; [lia|exact H|lia].
Qed.

Lemma increment_mod n : increment n = n mod 2 ^ 12.
Proof.
  unfold increment. change 0xFFF with (Z.ones 12). apply Z.land_ones. lia.
Qed.

(** X3. The four fields of a snowflake split its bits: the id is the
    timestamp part times 2^22 plus the worker id times 2^17 plus the
    process id times 2^12 plus the increment, with the worker and process
    ids below 32 and the increment below 4096. *)
Theorem snowflake_fields_partition (n : Z) :
  n = Z.shiftr n 22 * 2 ^ 22 + worker_id n * 2 ^ 17
      + process_id n * 2 ^ 12 + increment n
  /\ 0 <= worker_id n < 32
  /\ 0 <= process_id n < 32
  /\ 0 <= increment n < 4096.
Proof.
  rewrite worker_id_mod, process_id_mod, increment_mod.
  rewrite Z.shiftr_div_pow2 by lia.
  pose proof (Z.div_mod n (2 ^ 12) ltac:(lia)) as H1.
  pose proof (Z.div_mod (n / 2 ^ 12) (2 ^ 5) ltac:(lia)) as H2.
  pose proof (Z.div_mod (n / 2 ^ 17) (2 ^ 5) ltac:(lia)) as H3.
  assert (E17 : n / 2 ^ 12 / 2 ^ 5 = n / 2 ^ 17)
    by (rewrite Z.div_div by lia; reflexivity).
  assert (E22 : n / 2 ^ 17 / 2 ^ 5 = n / 2 ^ 22)
    by (rewrite Z.div_div by lia; reflexivity).
  rewrite E17 in H2. rewrite E22 in H3.
  pose proof (Z.mod_pos_bound n (2 ^ 12) ltac:(lia)).
  pose proof (Z.mod_pos_bound (n / 2 ^ 12) (2 ^ 5) ltac:(lia)).
  pose proof (Z.mod_pos_bound (n / 2 ^ 17) (2 ^ 5) ltac:(lia)).
  change (2 ^ 5) with 32 in *. change (2 ^ 12) with 4096 in *.
  change (2 ^ 17) with 131072 in *. change (2 ^ 22) with 4194304 in *.
  lia.
Qed.

(** X4. Snowflakes sort by time: on a host whose UTC offset does not
    change, a 64-bit id (read signed or unsigned) that is not smaller
    than another has a [datetime] that is not earlier; both exist. *)
Theorem snowflake_datetime_monotone (offset n m : Z) :
  -86400 < offset < 86400 ->
  - 2 ^ 63 <= n -> n <= m -> m < 2 ^ 64 ->
  exists dn dm,
    datetime (fun _ => offset) n = inl dn
    /\ datetime (fun _ => offset) m = inl dm
    /\ not_after dn dm.
Proof.
  intros Ho Hn Hnm Hm.
  assert (Hz : zone (fun _ => offset)) by (intros t; exact Ho).
  eexists _, _. split; [apply datetime_64; [exact Hz|lia]|].
  split; [apply datetime_64; [exact Hz|lia]|].
  unfold not_after, clock_reading. cbn [Datetime.wall Datetime.microsecond].
  assert (Hd : milliseconds n <= milliseconds m).
  { unfold milliseconds. rewrite !Z.shiftr_div_pow2 by lia.
    assert (n / 2 ^ 22 <= m / 2 ^ 22) by (apply Z.div_le_mono; lia). lia. }
  pose proof (Z.div_mod (milliseconds n) 1000 ltac:(lia)).
  pose proof (Z.div_mod (milliseconds m) 1000 ltac:(lia)).
  pose proof (Z.mod_pos_bound (milliseconds n) 1000 ltac:(lia)).
  pose proof (Z.mod_pos_bound (milliseconds m) 1000 ltac:(lia)).
  lia.
Qed.

Lemma snowflake_datetime_monotone_witness :
  exists dn dm,
    datetime (fun _ => 3600) 175928847299117063 = inl dn
    /\ datetime (fun _ => 3600) 175928847299117064 = inl dm
    /\ not_after dn dm.
Proof.
  apply (snowflake_datetime_monotone 3600 175928847299117063
           175928847299117064); lia.
Defined.

End SnowflakeMore.

(** ** More on the handshake *)

Section HandshakeMore.

Import Handshake Spec Samples.
Local Open Scope string_scope.
Local Open Scope nat_scope.

(** X5. [connect] lets a response through only if its status code reads
    as 101, its [connection] field is "upgrade" and its [upgrade] field is
    "websocket" (both as lower-cased and stripped by [iter_headers]). *)
Theorem connect_accepts_only_upgrades decode int headers :
  connect decode int headers = Some (Ok tt) ->
  exists status offset raw status_code fields c u,
    iter_headers_next headers 0 = Yield [status] offset
    /\ nth_error (Bytes.split " " status) 1 = Some raw
    /\ decode raw = Some status_code
    /\ int status_code = Some 101%Z
    /\ dict_of_headers (S (String.length headers)) headers offset ∅
       = Some (Ok fields)
    /\ fields !! "connection" = Some c /\ decode c = Some "upgrade"
    /\ fields !! "upgrade" = Some u /\ decode u = Some "websocket".
Proof.
  unfold connect.
  destruct (iter_headers_next headers 0) as [item off| |e] eqn:E0;
    try discriminate.
  destruct item as [|status [|? ?]]; try discriminate.
  destruct (nth_error _ 1) as [raw|] eqn:E1; [|discriminate].
  destruct (decode raw) as [status_code|] eqn:E2; [|discriminate].
  destruct (int status_code) as [n|] eqn:E3; [|discriminate].
  unfold SWITCHING_PROTOCOLS.
  destruct (Z.eqb_spec n 101) as [->|]; [|discriminate]. cbn [negb].
  destruct (dict_of_headers _ headers off ∅) as [[d|e]|] eqn:E4;
    try discriminate.
  destruct (d !! "connection") as [c|] eqn:E5; [|discriminate].
  destruct (decode c) as [connection|] eqn:E6; [|discriminate].
  destruct (String.eqb_spec connection "upgrade") as [->|]; [|discriminate].
  cbn [negb].
  destruct (d !! "upgrade") as [u|] eqn:E7; [|discriminate].
  destruct (decode u) as [upgrade|] eqn:E8; [|discriminate].
  destruct (String.eqb_spec upgrade "websocket") as [->|]; [|discriminate].
  intros _. exists status, off, raw, status_code, d, c, u. auto 12.
Qed.

Lemma connect_accepts_only_upgrades_witness :
  exists status offset raw status_code fields c u,
    iter_headers_next response_101 0 = Yield [status] offset
    /\ nth_error (Bytes.split " " status) 1 = Some raw
    /\ ascii_decode raw = Some status_code
    /\ decimal_int status_code = Some 101%Z
    /\ dict_of_headers (S (String.length response_101)) response_101 offset ∅
       = Some (Ok fields)
    /\ fields !! "connection" = Some c /\ ascii_decode c = Some "upgrade"
    /\ fields !! "upgrade" = Some u /\ ascii_decode u = Some "websocket".
Proof.
  apply (connect_accepts_only_upgrades ascii_decode decimal_int response_101).
  vm_compute. reflexivity.
Defined.

(** X6. A 101 response that lacks the [Connection] header, or has
    [Connection: upgrade] but lacks the [Upgrade] header, does not end in
    [BadWsHttpResponse]: [headers.get] returns [None] and [connect] raises
    AttributeError on [None.decode()]. *)
Theorem connect_missing_header decode int headers status offset raw
    status_code fields :
  iter_headers_next headers 0 = Yield [status] offset ->
  nth_error (Bytes.split " " status) 1 = Some raw ->
  decode raw = Some status_code ->
  int status_code = Some 101%Z ->
  dict_of_headers (S (String.length headers)) headers offset ∅
  = Some (Ok fields) ->
  (fields !! "connection" = None ->
     connect decode int headers = Some (Raise AttributeError))
  /\ (forall c, fields !! "connection" = Some c ->
        decode c = Some "upgrade" ->
        fields !! "upgrade" = None ->
        connect decode int headers = Some (Raise AttributeError)).
Proof.
  intros H0 H1 H2 H3 H4. unfold connect.
  rewrite H0, H1, H2, H3. cbn [Z.eqb Pos.eqb negb SWITCHING_PROTOCOLS].
  rewrite H4. split.
  - intros ->. reflexivity.
  - intros c -> ->. cbn [String.eqb Ascii.eqb Bool.eqb negb]. now intros ->.
Qed.

Lemma connect_missing_header_witness :
  connect ascii_decode decimal_int response_no_connection
  = Some (Raise AttributeError).
Proof.
  refine (proj1 (connect_missing_header ascii_decode decimal_int
                   response_no_connection
                   "http/1.1 101 switching protocols" 34 "101" "101"
                   (<["upgrade" := "websocket"]> ∅) _ _ _ _ _) _);
    vm_compute; reflexivity.
Defined.

End HandshakeMore.

(** ** More on the frame codec *)

Section FrameMore.

Import WebsocketFrame WebsocketProtocol Spec.

Lemma second_byte_fields masked code :
  0 <= code < 128 ->
  get_length (Z.lor (set_bit masked 0 0x80) code) = code
  /\ get_mask (Z.lor (set_bit masked 0 0x80) code) = flag masked 0x80.
Proof.
  intros H. unfold get_length, get_mask.
  assert (E : Z.land code 0x7F = code).
  { change 0x7F with (Z.ones 7). rewrite Z.land_ones by lia.
    apply Z.mod_small. change (2 ^ 7) with 128. lia. }
  assert (E0 : Z.land code 0x80 = 0).
  { rewrite <- E, <- Z.land_assoc. change (Z.land 0x7F 0x80) with 0.
    apply Z.land_0_r. }
  rewrite !Z.land_lor_distr_l, E, E0.
  destruct masked; cbn [set_bit flag]; split; reflexivity.
Qed.

(** X7. The wire layout of [create_frame]: the first byte carries the
    flags and opcode given, the second byte carries the mask bit and the
    length code, the length follows as 0, 2 or 8 big-endian bytes, and
    then comes the payload: as it is when unmasked, and otherwise the four
    mask bytes followed by a masked payload from which [apply_mask] with
    the same mask recovers the original. *)
Theorem create_frame_wire_layout p opcode fin rsv1 rsv2 rsv3 masked mask :
  length mask = 4%nat ->
  Z.of_nat (length p) < 2 ^ 64 ->
  exists b1 ext body,
    create_frame p opcode fin rsv1 rsv2 rsv3 masked mask
    = Some (first_byte opcode fin rsv1 rsv2 rsv3 :: b1 :: ext ++ body)
    /\ get_mask b1 = flag masked 0x80
    /\ (let n := Z.of_nat (length p) in
        if n <=? 125 then get_length b1 = n /\ ext = []
        else if n <=? 0xFFFF
          then get_length b1 = 126 /\ length ext = 2%nat
               /\ Py.from_bytes ext = n
          else get_length b1 = 127 /\ length ext = 8%nat
               /\ Py.from_bytes ext = n)
    /\ (if masked
        then exists wire, body = mask ++ wire
                          /\ length wire = length p
                          /\ apply_mask mask wire = Some p
        else body = p).
Proof.
  intros Hm Hn. unfold create_frame. set (n := Z.of_nat (length p)) in *.
  change (Z.lor (set_bit _ _ _) (opcode_value opcode))
    with (first_byte opcode fin rsv1 rsv2 rsv3).
  assert (Hn0 : 0 <= n) by (unfold n; lia).
  assert (Hbody : exists body,
            (if masked
             then data' ← apply_mask mask p; Some (mask ++ data')
             else Some p) = Some body
            /\ (if masked
                then exists wire, body = mask ++ wire
                                  /\ length wire = length p
                                  /\ apply_mask mask wire = Some p
                else body = p)).
  { destruct masked.
    - rewrite apply_mask_spec by exact Hm. cbn [mbind option_bind].
      eexists. split; [reflexivity|]. eexists. split; [reflexivity|].
      split; [apply xor_from_length|].
      rewrite apply_mask_spec by exact Hm. now rewrite xor_from_twice.
    - eexists. split; reflexivity. }
  destruct Hbody as (body & Hb & Hshape).
  assert (Hfinal : forall hdr,
            (if masked
             then data' ← apply_mask mask p; Some (hdr ++ mask ++ data')
             else Some (hdr ++ p)) = Some (hdr ++ body)).
  { intros hdr. destruct masked.
    - destruct (apply_mask mask p) as [d|]; [|discriminate].
      cbn [mbind option_bind] in *. injection Hb as <-. reflexivity.
    - injection Hb as <-. reflexivity. }
  destruct (Z.leb_spec n 125) as [H1|H1].
  - destruct (second_byte_fields masked n ltac:(lia)) as [Hl Hk].
    exists (Z.lor (set_bit masked 0 0x80) n), [], body.
    cbn [mbind option_bind]. rewrite Hfinal.
    split; [reflexivity|]. split; [exact Hk|]. split; [|exact Hshape].
    split; [exact Hl|reflexivity].
  - destruct (Z.leb_spec n 0xFFFF) as [H2|H2].
    + destruct (second_byte_fields masked 126 ltac:(lia)) as [Hl Hk].
      destruct (Py.to_bytes n 2) as [ext|] eqn:E.
      * destruct (from_bytes_to_bytes _ _ _ E) as [Hf Hlen].
        exists (Z.lor (set_bit masked 0 0x80) 126), ext, body.
        cbn [mbind option_bind]. rewrite Hfinal.
        split; [now rewrite <- app_assoc|]. split; [exact Hk|].
        split; [|exact Hshape]. auto.
      * exfalso. unfold Py.to_bytes in E.
        destruct (Z.leb_spec 0 n); [|lia].
        destruct (Z.ltb_spec n (256 ^ Z.of_nat 2)) as [|H3]; [discriminate|].
        change (256 ^ Z.of_nat 2) with 65536 in H3. lia.
    + destruct (second_byte_fields masked 127 ltac:(lia)) as [Hl Hk].
      destruct (Py.to_bytes n 8) as [ext|] eqn:E.
      * destruct (from_bytes_to_bytes _ _ _ E) as [Hf Hlen].
        exists (Z.lor (set_bit masked 0 0x80) 127), ext, body.
        cbn [mbind option_bind]. rewrite Hfinal.
        split; [now rewrite <- app_assoc|]. split; [exact Hk|].
        split; [|exact Hshape]. auto.
      * exfalso. unfold Py.to_bytes in E.
        destruct (Z.leb_spec 0 n); [|lia].
        destruct (Z.ltb_spec n (256 ^ Z.of_nat 8)) as [|H3]; [discriminate|].
        change (256 ^ Z.of_nat 8) with (2 ^ 64) in H3. lia.
Qed.

Lemma create_frame_wire_layout_witness :
  exists b1 ext body,
    create_frame [104; 105] TEXT true false false false true [1; 2; 3; 4]
    = Some (first_byte TEXT true false false false :: b1 :: ext ++ body)
    /\ get_mask b1 = flag true 0x80
    /\ (let n := Z.of_nat (length [104; 105]) in
        if n <=? 125 then get_length b1 = n /\ ext = []
        else if n <=? 0xFFFF
          then get_length b1 = 126 /\ length ext = 2%nat
               /\ Py.from_bytes ext = n
          else get_length b1 = 127 /\ length ext = 8%nat
               /\ Py.from_bytes ext = n)
    /\ (if true
        then exists wire, body = [1; 2; 3; 4] ++ wire
                          /\ length wire = length [104; 105]
                          /\ apply_mask [1; 2; 3; 4] wire = Some [104; 105]
        else body = [104; 105]).
Proof.
  apply (create_frame_wire_layout [104; 105] TEXT true false false false true
           [1; 2; 3; 4]); [reflexivity|reflexivity].
Defined.

End FrameMore.

(** ** The receive loop ends *)

Section DecoderTotal.

Import WebsocketFrame WebsocketProtocol Spec DecoderSpec.

Lemma slice_length {A} (d : list A) (position : nat) (needed : Z) :
  0 <= needed -> (position <= length d)%nat ->
  Z.of_nat (length (Py.slice d (Z.of_nat position)
                             (Z.of_nat position + needed)))
  = Z.min needed (Z.of_nat (length d - position)).
Proof.
  intros Hn Hp. rewrite slice_nonneg by lia.
  rewrite length_take, length_drop. lia.
Qed.

Lemma slice_bytes_ok d a b : bytes_ok d -> bytes_ok (Py.slice d a b).
Proof.
  unfold bytes_ok, Py.slice. intros H.
  apply Forall_take, Forall_drop, H.
Qed.

Lemma from_bytes_acc_nonneg b : forall acc,
  0 <= acc -> bytes_ok b ->
  0 <= fold_left (fun a x => a * 256 + x) b acc.
Proof.
  induction b as [|x b IH]; intros acc Ha Hb; cbn [fold_left]; [exact Ha|].
  inversion Hb; subst. apply IH; [lia|assumption].
Qed.

Lemma from_bytes_nonneg b : bytes_ok b -> 0 <= Py.from_bytes b.
Proof. intros H. apply from_bytes_acc_nonneg; [lia|exact H]. Qed.

Lemma get_length_range b : 0 <= get_length b < 128.
Proof.
  unfold get_length. change 0x7F with (Z.ones 7).
  rewrite Z.land_ones by lia. change (2 ^ 7) with 128.
  apply Z.mod_pos_bound. lia.
Qed.

(** The last block of an iteration, entered with input left: either it
    takes all that is left, or it closes the frame and the machine is back
    in its initial state. *)
Lemma on_data_step d position f out :
  0 <= bytes_needed f -> (position < length d)%nat ->
  exists position' p' out',
    on_data d position (Protocol WAITING_DATA f) out = (position', p', out')
    /\ ((position' = length d)
        \/ (p' = initial /\ (position' <= length d)%nat
            /\ (if bytes_needed f =? 0 then position' = position
                else (position < position')%nat))).
Proof.
  intros Hn Hp. unfold on_data. cbn [is_state state cur].
  set (chunk := Py.slice d (Z.of_nat position)
                         (Z.of_nat position + bytes_needed f)).
  assert (Hl : Z.of_nat (length chunk)
               = Z.min (bytes_needed f) (Z.of_nat (length d - position)))
    by (apply slice_length; lia).
  destruct (Z.eqb_spec (bytes_needed f - Z.of_nat (length chunk)) 0) as [E|E].
  - eexists _, _, _. split; [reflexivity|]. right.
    split; [reflexivity|]. split; [lia|].
    destruct (Z.eqb_spec (bytes_needed f) 0); lia.
  - eexists _, _, _. split; [reflexivity|]. left. lia.
Qed.

Lemma tail_data_progresses fuel d position0 slack position f out :
  0 <= bytes_needed f ->
  (position0 <= position)%nat ->
  (bytes_needed f = 0 ->
   (position0 < position \/ (position = position0 /\ slack = 1))%nat) ->
  progresses fuel d position0 slack
    (tail_data fuel d position (Protocol WAITING_DATA f) out).
Proof.
  intros Hn Hle H0. unfold tail_data.
  destruct (Nat.leb_spec (length d) position) as [|Hp];
    [left; eexists; reflexivity|].
  destruct (on_data_step d position f out Hn Hp)
    as (position' & p' & out' & -> & [->|(-> & Hb & Hz)]).
  - rewrite Nat.leb_refl. left. eexists; reflexivity.
  - destruct (Nat.leb_spec (length d) position') as [|Hp'];
      [left; eexists; reflexivity|].
    right. exists position', out'. split; [reflexivity|].
    destruct (Z.eqb_spec (bytes_needed f) 0) as [E|E].
    + subst position'. exact (H0 E).
    + left. lia.
Qed.

Lemma tail_length_progresses fuel d position0 slack position p out :
  bytes_ok d -> wf p ->
  state p = WAITING_LENGTH \/ state p = WAITING_DATA ->
  (position0 <= position)%nat ->
  (bytes_needed (cur p) = 0 ->
   (position0 < position \/ (position = position0 /\ slack = 1))%nat) ->
  progresses fuel d position0 slack (tail_length fuel d position p out).
Proof.
  intros Hd [Hn Hb] Hs Hle H0. unfold tail_length.
  destruct (Nat.leb_spec (length d) position) as [|Hp];
    [left; eexists; reflexivity|].
  destruct p as [st f]. cbn [state cur] in *.
  destruct Hs as [->| ->].
  - unfold on_length. cbn [is_state state cur].
    set (chunk := Py.slice d (Z.of_nat position)
                           (Z.of_nat position + bytes_needed f)).
    assert (Hl : Z.of_nat (length chunk)
                 = Z.min (bytes_needed f) (Z.of_nat (length d - position)))
      by (apply slice_length; lia).
    destruct (Z.eqb_spec (bytes_needed f - Z.of_nat (length chunk)) 0)
      as [E|E].
    + apply tail_data_progresses; cbn [bytes_needed].
      * apply from_bytes_nonneg. unfold bytes_ok.
        apply Forall_app. split; [exact Hb|].
        apply slice_bytes_ok, Hd.
      * lia.
      * intros _. destruct (Z.eqb_spec (bytes_needed f) 0) as [Z0|Z0].
        -- assert (length chunk = 0%nat) by lia.
           replace (position + length chunk)%nat with position by lia.
           exact (H0 Z0).
        -- left. lia.
    + unfold tail_data.
      replace (position + length chunk)%nat with (length d) by lia.
      rewrite Nat.leb_refl. left. eexists; reflexivity.
  - rewrite on_length_skip. now apply tail_data_progresses.
Qed.

Lemma tail_sbyte_progresses fuel d position0 slack position f out :
  bytes_ok d ->
  bytes_ok (length_buffer f) ->
  (position0 <= position)%nat ->
  progresses fuel d position0 slack
    (tail_sbyte fuel d position (Protocol WAITING_SBYTE f) out).
Proof.
  intros Hd Hb Hle. unfold tail_sbyte.
  destruct (Nat.leb_spec (length d) position) as [|Hp];
    [left; eexists; reflexivity|].
  unfold on_sbyte. cbn [is_state state cur].
  pose proof (get_length_range (nth position d 0)) as Hr.
  destruct (Z.ltb_spec 125 (get_length (nth position d 0))) as [Hbig|Hsmall].
  - apply tail_length_progresses.
    + exact Hd.
    + split; cbn [cur bytes_needed length_buffer]; [|constructor].
      unfold UnsignedShort_size, UnsignedLongLong_size.
      destruct (Z.eqb_spec (get_length (nth position d 0)) 126); [lia|].
      destruct (Z.eqb_spec (get_length (nth position d 0)) 127); lia.
    + left; reflexivity.
    + lia.
    + intros _. left. lia.
  - apply tail_length_progresses.
    + exact Hd.
    + split; cbn [cur bytes_needed length_buffer]; [lia|exact Hb].
    + right; reflexivity.
    + lia.
    + intros _. left. lia.
Qed.

Lemma loop_tail fuel d position p out :
  create_frames_loop (S fuel) d position p out =
  if (length d <=? position)%nat then Some (p, out) else
  let '(position, p) := on_fbyte d position p in
  tail_sbyte fuel d position p out.
Proof. reflexivity. Qed.

Lemma tail_sbyte_skip fuel d position p out :
  state p = WAITING_LENGTH \/ state p = WAITING_DATA ->
  tail_sbyte fuel d position p out = tail_length fuel d position p out.
Proof.
  intros Hs. unfold tail_sbyte.
  destruct (Nat.leb_spec (length d) position) as [Hp|Hp].
  - unfold tail_length. now rewrite (proj2 (Nat.leb_le _ _)) by exact Hp.
  - destruct p as [st f]. cbn [state] in Hs.
    destruct Hs as [->| ->]; reflexivity.
Qed.

(** One iteration of the loop. *)
Lemma iteration_progresses fuel d position p out :
  bytes_ok d -> wf p ->
  progresses fuel d position (idle p)
    (create_frames_loop (S fuel) d position p out).
Proof.
  intros Hd Hw. rewrite loop_tail.
  destruct (Nat.leb_spec (length d) position) as [|Hp];
    [left; eexists; reflexivity|].
  destruct p as [st f]. destruct st.
  - unfold on_fbyte. cbn [is_state state cur].
    apply tail_sbyte_progresses; [exact Hd|exact (proj2 Hw)|lia].
  - unfold on_fbyte. cbn [is_state state cur].
    apply tail_sbyte_progresses; [exact Hd|exact (proj2 Hw)|lia].
  - unfold on_fbyte. cbn [is_state state cur].
    rewrite tail_sbyte_skip by (left; reflexivity).
    apply tail_length_progresses;
      [exact Hd|exact Hw|left; reflexivity|lia|].
    intros E. right. split; [reflexivity|].
    unfold idle. cbn [state cur] in *. now rewrite E.
  - unfold on_fbyte. cbn [is_state state cur].
    rewrite tail_sbyte_skip by (right; reflexivity).
    apply tail_length_progresses;
      [exact Hd|exact Hw|right; reflexivity|lia|].
    intros E. right. split; [reflexivity|].
    unfold idle. cbn [state cur] in *. now rewrite E.
Qed.

Lemma initial_wf : wf initial.
Proof. split; cbn; [lia|constructor]. Qed.

Lemma loop_total fuel : forall d position p out,
  bytes_ok d -> wf p ->
  (length d - position + idle p < fuel)%nat ->
  exists r, create_frames_loop fuel d position p out = Some r.
Proof.
  induction fuel as [|fuel IH]; intros d position p out Hd Hw Hf; [lia|].
  destruct (Nat.leb_spec (length d) position) as [Hp|Hp].
  - rewrite loop_tail. rewrite (proj2 (Nat.leb_le _ _)) by exact Hp.
    eexists; reflexivity.
  - destruct (iteration_progresses fuel d position p out Hd Hw)
      as [H|(position' & out' & -> & Hm)]; [exact H|].
    apply IH; [exact Hd|exact initial_wf|].
    change (idle initial) with 0%nat. lia.
Qed.

(** X8. The receive loop always returns: on every buffer of bytes and in
    every state the machine can be in (with a byte count that is not
    negative), [create_frames] comes back with a state and the frames it
    pushed; the [while True] never spins. *)
Theorem create_frames_returns d p :
  bytes_ok d -> wf p ->
  exists p' out, create_frames d p = Some (p', out).
Proof.
  intros Hd Hw. unfold create_frames.
  destruct d as [|b d].
  - exists p, []. reflexivity.
  - destruct (loop_total (2 * length (b :: d) + 1) (b :: d) 0 p [] Hd Hw)
      as [[p' out] H].
    + unfold idle. cbn [length].
      destruct (state p); try lia; destruct (_ =? 0); lia.
    + exists p', out. exact H.
Qed.

Lemma create_frames_returns_witness :
  exists p' out,
    create_frames [129; 2; 104; 105; 129; 0] initial = Some (p', out).
Proof.
  apply create_frames_returns.
  - repeat constructor; lia.
  - exact initial_wf.
Defined.

End DecoderTotal.

(** ** Frames across reads *)

Section DecoderStream.

Import WebsocketFrame WebsocketProtocol Spec DecoderSpec.

Lemma on_data_out d position p pre out :
  on_data d position p (pre ++ out)
  = let '(position', p', out') := on_data d position p out in
    (position', p', pre ++ out').
Proof.
  unfold on_data. destruct (is_state p WAITING_DATA); [|reflexivity].
  destruct (_ =? 0); [|reflexivity]. now rewrite app_assoc.
Qed.

(** Frames pushed earlier stay in front. *)
Lemma loop_out_prefix fuel : forall d position p pre out,
  create_frames_loop fuel d position p (pre ++ out)
  = match create_frames_loop fuel d position p out with
    | Some (p', out') => Some (p', pre ++ out')
    | None => None
    end.
Proof.
  induction fuel as [|fuel IH]; intros d position p pre out; [reflexivity|].
  rewrite !loop_unfold.
  destruct (length d <=? position)%nat; [reflexivity|].
  destruct (on_fbyte d position p) as [position1 p1].
  destruct (length d <=? position1)%nat; [reflexivity|].
  destruct (on_sbyte d position1 p1) as [position2 p2].
  destruct (length d <=? position2)%nat; [reflexivity|].
  destruct (on_length d position2 p2) as [position3 p3].
  destruct (length d <=? position3)%nat; [reflexivity|].
  rewrite on_data_out.
  destruct (on_data d position3 p3 out) as [[position4 p4] out4].
  destruct (length d <=? position4)%nat; [reflexivity|].
  apply IH.
Qed.

(** More fuel does not change a result. *)
Lemma loop_fuel_mono fuel : forall fuel' d position p out r,
  (fuel <= fuel')%nat ->
  create_frames_loop fuel d position p out = Some r ->
  create_frames_loop fuel' d position p out = Some r.
Proof.
  induction fuel as [|fuel IH]; intros fuel' d position p out r Hle H;
    [discriminate|].
  destruct fuel' as [|fuel']; [lia|].
  rewrite loop_unfold in *.
  destruct (length d <=? position)%nat; [exact H|].
  destruct (on_fbyte d position p) as [position1 p1].
  destruct (length d <=? position1)%nat; [exact H|].
  destruct (on_sbyte d position1 p1) as [position2 p2].
  destruct (length d <=? position2)%nat; [exact H|].
  destruct (on_length d position2 p2) as [position3 p3].
  destruct (length d <=? position3)%nat; [exact H|].
  destruct (on_data d position3 p3 out) as [[position4 p4] out4].
  destruct (length d <=? position4)%nat; [exact H|].
  apply (IH fuel'); [lia|exact H].
Qed.

(** X9. A frame with an empty payload is held back: when the two header
    bytes of an unmasked empty frame end a read, [create_frames] pushes
    nothing and is left waiting for 0 bytes of data; the frame is pushed,
    ahead of everything else, by the next read that brings at least one
    byte, which is then decoded as from the initial state. *)
Theorem empty_frame_waits_for_next_read opcode fin rsv1 rsv2 rsv3 urandom d :
  d <> [] ->
  bytes_ok d ->
  exists bytes st f,
    create_frame [] opcode fin rsv1 rsv2 rsv3 false urandom = Some bytes
    /\ create_frames bytes initial = Some (st, [])
    /\ state st = WAITING_DATA
    /\ fbyte f = first_byte opcode fin rsv1 rsv2 rsv3
    /\ frame_data f = []
    /\ exists st' out,
         create_frames d initial = Some (st', out)
         /\ create_frames d st = Some (st', f :: out).
Proof.
  intros Hd Hok.
  set (b0 := first_byte opcode fin rsv1 rsv2 rsv3).
  exists [b0; 0], (Protocol WAITING_DATA (Frame b0 0 0 [] 0 [])),
    (Frame b0 0 0 [] 0 []).
  split; [reflexivity|]. split; [reflexivity|]. split; [reflexivity|].
  split; [reflexivity|]. split; [reflexivity|].
  destruct (create_frames_returns d initial Hok initial_wf)
    as (st' & out & H).
  exists st', out. split; [exact H|].
  destruct d as [|x d]; [congruence|].
  unfold create_frames in *.
  rewrite Nat.add_1_r in *.
  rewrite loop_unfold.
  change (create_frames_loop (2 * length (x :: d)) (x :: d) 0 initial
            ([Frame b0 0 0 [] 0 []] ++ [])
          = Some (st', Frame b0 0 0 [] 0 [] :: out)).
  rewrite loop_out_prefix.
  destruct (loop_total (2 * length (x :: d)) (x :: d) 0 initial []
              Hok initial_wf) as [r Hr].
  { change (idle initial) with 0%nat. cbn [length]. lia. }
  rewrite Hr.
  rewrite (loop_fuel_mono (2 * length (x :: d)) (S (2 * length (x :: d)))
             _ _ _ _ _ ltac:(lia) Hr) in H.
  injection H as ->. reflexivity.
Qed.

Lemma empty_frame_waits_for_next_read_witness :
  exists bytes st f,
    create_frame [] PING true false false false false [] = Some bytes
    /\ create_frames bytes initial = Some (st, [])
    /\ state st = WAITING_DATA
    /\ fbyte f = first_byte PING true false false false
    /\ frame_data f = []
    /\ exists st' out,
         create_frames [129; 1; 104] initial = Some (st', out)
         /\ create_frames [129; 1; 104] st = Some (st', f :: out).
Proof.
  apply empty_frame_waits_for_next_read; [discriminate|].
  repeat constructor; lia.
Defined.

End DecoderStream.

(** ** A bucket that stops draining *)

Section BucketWedge.

Import Ratelimiter Spec BucketSpec.

Lemma wedged_same w w' :
  made_first_request (rl w') = made_first_request (rl w) ->
  current_burst_task (rl w') = current_burst_task (rl w) ->
  bursts w' = bursts w ->
  wedged w -> wedged w'.
Proof. unfold wedged. now intros -> -> ->. Qed.

Lemma wedged_request req w :
  wedged w ->
  wedged (request req w).2 /\ dispatched (request req w).2 = dispatched w.
Proof.
  intros (F & [b C] & D).
  destruct (request_sched req w) as [_ Hb].
  destruct (request_logs req w) as (_ & Hd & _).
  rewrite F, C in Hb.
  rewrite bool_decide_eq_false_2 in Hb by discriminate.
  cbn [negb orb] in Hb.
  split; [|exact Hd].
  split; [now rewrite flag_request|]. split.
  - unfold request.
    set (w1 := set_next_id _ w).
    set (w2 := with_rl _ w1).
    set (w3 := set_submitted _ w2).
    change (made_first_request (rl w3)) with (made_first_request (rl w)).
    change (current_burst_task (rl w3)) with (current_burst_task (rl w)).
    rewrite F, C. cbn [negb snd]. exists b. exact C.
  - rewrite Hb. exact D.
Qed.

Lemma wedged_cancel b w : wedged w -> cancel b w = w.
Proof.
  intros (_ & _ & D). unfold cancel.
  destruct (bursts w !! b) as [bt|] eqn:E; [|reflexivity].
  specialize (D _ _ E). destruct (pc bt); try discriminate; reflexivity.
Qed.

Lemma wedged_settle t p w :
  wedged w ->
  wedged (settle t p w) /\ dispatched (settle t p w) = dispatched w.
Proof.
  intros H. unfold settle. destruct (requests w !! t).
  - split; [|reflexivity]. revert H. now apply wedged_same.
  - auto.
Qed.

Lemma wedged_resume t w : wedged w -> resume t w = None.
Proof.
  intros (_ & _ & D). unfold resume.
  destruct (bursts w !! t) as [b|] eqn:E; [|reflexivity].
  specialize (D _ _ E). cbn [mbind option_bind].
  destruct (must_cancel b), (pc b); try discriminate; reflexivity.
Qed.

Lemma wedged_on_response t resp w w' :
  on_response t resp w = Some w' -> wedged w ->
  wedged w' /\ dispatched w' = dispatched w.
Proof.
  unfold on_response. destruct (requests w !! t) as [rt|]; [|discriminate].
  cbn [mbind option_bind]. destruct (rpc rt), (target rt); try discriminate.
  - destruct (status resp =? 429); intros [= <-] H.
    + assert (E : match current_burst_task (rl w) with
                  | Some b => cancel b w
                  | None => w
                  end = w)
        by (destruct (current_burst_task (rl w));
            [now apply wedged_cancel|reflexivity]).
      rewrite E. split; [|reflexivity]. revert H. now apply wedged_same.
    + match goal with |- context [settle t Completed ?x] => set (w1 := x) end.
      assert (H1 : wedged w1).
      { revert H. subst w1.
        destruct (x_ratelimit_limit resp), (x_ratelimit_remaining resp),
          (x_ratelimit_reset resp); now apply wedged_same. }
      destruct (wedged_settle t Completed w1 H1) as [H2 H3].
      split; [exact H2|]. rewrite H3. subst w1.
      destruct (x_ratelimit_limit resp), (x_ratelimit_remaining resp),
        (x_ratelimit_reset resp); reflexivity.
  - intros [= <-]. apply wedged_settle.
Qed.

Lemma wedged_on_text t w w' :
  on_text t w = Some w' -> wedged w ->
  wedged w' /\ dispatched w' = dispatched w.
Proof.
  unfold on_text. destruct (requests w !! t) as [rt|]; [|discriminate].
  cbn [mbind option_bind].
  destruct (rpc rt) as [|data| | |]; try discriminate.
  destruct (target rt) as [r|r]; [|destruct data; discriminate].
  destruct data as [|[ra|]].
  - intros [= <-]. apply wedged_settle.
  - match goal with
    | |- context [request (Bare r) ?x] =>
        pose proof (wedged_request (Bare r) x) as L;
        destruct (request (Bare r) x) as [f w2]
    end.
    intros [= <-] H. cbn [snd] in L.
    destruct L as [L1 L2]; [revert H; now apply wedged_same|].
    split; [revert L1; now apply wedged_same|exact L2].
  - intros [= <-] H.
    match goal with |- context [settle t Raised ?x] => set (w1 := x) end.
    assert (H1 : wedged w1) by (revert H; subst w1; now apply wedged_same).
    destruct (wedged_settle t Raised w1 H1) as [H2 H3].
    split; [exact H2|]. rewrite H3. reflexivity.
Qed.

Lemma step_wedged l w w' :
  step l w = Some w' -> wedged w ->
  wedged w' /\ dispatched w' = dispatched w.
Proof.
  destruct l as [r|t|t resp|t|t|now]; cbn [step].
  - intros E H. assert (E' : (request (Wrapped r) w).2 = w') by congruence.
    subst w'. now apply wedged_request.
  - intros E H. rewrite (wedged_resume t w H) in E. discriminate.
  - apply wedged_on_response.
  - apply wedged_on_text.
  - unfold on_retry_done. destruct (requests w !! t) as [rt|]; [|discriminate].
    cbn [mbind option_bind]. destruct (rpc rt); try discriminate.
    destruct (existsb _ _); [|discriminate]. intros [= <-].
    apply wedged_settle.
  - destruct (Qle_bool _ _); [|discriminate]. intros [= <-] H.
    split; [|reflexivity]. revert H. now apply wedged_same.
Qed.

(** X10. A bucket whose [current_burst_task] slot is taken while no burst
    task is alive (which is how a 429 that cancels a running burst task
    leaves it, since the cancelled task never clears the slot) stays that
    way for ever and dispatches nothing any more: whatever is submitted or
    answered afterwards, the list of dispatched requests does not grow. *)
Theorem wedged_bucket_never_dispatches ls : forall w w',
  wedged w ->
  run ls w = Some w' ->
  wedged w' /\ dispatched w' = dispatched w.
Proof.
  induction ls as [|l ls IH]; intros w w' Hw H; cbn [run] in H.
  - injection H as <-. auto.
  - destruct (step l w) as [w1|] eqn:E; [|discriminate].
    cbn [mbind option_bind] in H.
    destruct (step_wedged _ _ _ E Hw) as [H1 H2].
    destruct (IH _ _ H1 H) as [H3 H4]. split; [exact H3|congruence].
Qed.

Lemma wedged_bucket_never_dispatches_witness :
  exists w w',
    run throttled_mid_burst boot = Some w
    /\ queue (rl w) = [(Wrapped 3, 5%nat); (Bare 2, 7%nat)]
    /\ run [Submit 4; Advance (inject_Z 60); Submit 5] w = Some w'
    /\ wedged w' /\ dispatched w' = dispatched w.
Proof.
  destruct (run throttled_mid_burst boot) as [w|] eqn:E;
    [|vm_compute in E; discriminate E].
  assert (Ew := E). vm_compute in Ew. injection Ew as Ew.
  assert (Hw : wedged w).
  { rewrite <- Ew. split; [reflexivity|]. split; [eexists; reflexivity|].
    cbn [bursts].
    apply (proj1 (map_Forall_lookup
                    (fun (_ : nat) (b : burst) => alive (pc b) = false) _)).
    refine (bool_decide_unpack _ _). vm_compute. exact I. }
  destruct (run [Submit 4; Advance (inject_Z 60); Submit 5] w)
    as [w'|] eqn:E2.
  - exists w, w'. split; [reflexivity|].
    split; [rewrite <- Ew; reflexivity|]. split; [exact E2|].
    exact (wedged_bucket_never_dispatches _ _ _ Hw E2).
  - exfalso. rewrite <- Ew in E2. vm_compute in E2. discriminate E2.
Defined.

End BucketWedge.

(** ** The field runtime *)

Section JsonFacts.

Import Json.

Lemma to_dict_fold_no_none self fs : forall dct,
  (forall k v, dct !! k = Some v -> v <> VNone) ->
  forall k v, foldl (to_dict_field self) dct fs !! k = Some v -> v <> VNone.
Proof.
  induction fs as [|[attr field] fs IH]; intros dct H; cbn [foldl];
    [exact H|].
  apply IH. unfold to_dict_field.
  destruct (self !! attr) as [a|]; [|exact H].
  destruct (is_none a); [exact H|].
  destruct (marshal_value field a) as [v|]; [|exact H].
  destruct (is_none v) eqn:Hv; [exact H|].
  intros k v'. destruct (decide (k = name field)) as [->|Hne].
  - rewrite lookup_insert_eq. intros [= <-]. now destruct v.
  - rewrite lookup_insert_ne by congruence. apply H.
Qed.

(** X11. [to_dict] never puts a [None] into the dictionary, whatever the
    fields' omit-empty flags say: an attribute that is missing or [None],
    a marshal callable that raises or returns [None], all leave the key
    out. *)
Theorem to_dict_has_no_none fs self k v :
  to_dict fs self !! k = Some v -> v <> VNone.
Proof.
  apply to_dict_fold_no_none. intros k' v'. now rewrite lookup_empty.
Qed.

Lemma to_dict_has_no_none_witness :
  to_dict DiscordResponse
    (_update DiscordResponse {["op" := VInt 11; "s" := VNone]} true ∅)
    !! "op"
  = Some (VInt 11)
  /\ VInt 11 <> VNone.
Proof.
  assert (H : to_dict DiscordResponse
                (_update DiscordResponse {["op" := VInt 11; "s" := VNone]}
                         true ∅)
                !! "op" = Some (VInt 11)) by (vm_compute; reflexivity).
  split; [exact H|].
  exact (to_dict_has_no_none DiscordResponse _ "op" (VInt 11) H).
Defined.

Lemma update_field_default data self attr field :
  update_field data true self (attr, field)
  = <[attr := decoded data field]> self.
Proof.
  unfold update_field, decoded.
  destruct (data !! name field) as [raw|]; [|reflexivity].
  destruct (unmarshal_value field raw); reflexivity.
Qed.

Lemma update_fold_other data (fs : fields) : forall (self : attrs) attr,
  attr ∉ fs.*1 ->
  foldl (update_field data true) self fs !! attr = self !! attr.
Proof.
  induction fs as [|[a f] fs IH]; intros self attr Hn; cbn [foldl];
    [reflexivity|].
  cbn [fmap list_fmap fst] in Hn. apply not_elem_of_cons in Hn as [Hne Hn].
  rewrite IH by exact Hn. rewrite update_field_default.
  now rewrite lookup_insert_ne by congruence.
Qed.

(** [_update] with [set_default] writes every declared attribute. *)
Lemma update_sets (fs : fields) data : forall (self : attrs) attr field,
  NoDup fs.*1 -> (attr, field) ∈ fs ->
  _update fs data true self !! attr = Some (decoded data field).
Proof.
  unfold _update.
  induction fs as [|[a f] fs IH]; intros self attr field Hnd Hin;
    [now apply elem_of_nil in Hin|].
  cbn [fmap list_fmap fst] in Hnd. apply NoDup_cons in Hnd as [Ha Hnd].
  cbn [foldl]. apply elem_of_cons in Hin as [[= -> ->]|Hin].
  - rewrite update_fold_other by exact Ha.
    rewrite update_field_default. apply lookup_insert_eq.
  - now apply IH.
Qed.



Lemma in_plain_fields decl attr key :
  (attr, key) ∈ decl -> (attr, plain key) ∈ plain_fields decl.
Proof.
  intros H. unfold plain_fields.
  apply (list_elem_of_fmap_2 (fun '(attr, key) => (attr, plain key))
           decl (attr, key) H).
Qed.

Lemma plain_fields_attrs decl : (plain_fields decl).*1 = decl.*1.
Proof.
  unfold plain_fields. induction decl as [|[a k] decl IH]; [reflexivity|].
  cbn. now rewrite IH.
Qed.

Lemma to_dict_field_plain decl data self0 (dct : document) attr key :
  NoDup decl.*1 ->
  (attr, key) ∈ decl ->
  to_dict_field (_update (plain_fields decl) data true self0) dct
                (attr, plain key)
  = match kept (data !! key) with
    | Some v => <[key := v]> dct
    | None => dct
    end.
Proof.
  intros Hnd Hin. unfold to_dict_field.
  rewrite <- plain_fields_attrs in Hnd.
  rewrite (update_sets (plain_fields decl) data self0 attr (plain key) Hnd
             (in_plain_fields _ _ _ Hin)).
  unfold decoded, kept. cbn [name plain unmarshal_value unmarshal_callable
                             default marshal_value marshal_callable].
  destruct (data !! key) as [raw|]; [|reflexivity].
  destruct (is_none raw); reflexivity.
Qed.

Lemma to_dict_fold_plain decl data self0 (Hnd : NoDup decl.*1) :
  forall dl (dct : document) k,
    dl ⊆ decl -> NoDup dl.*2 ->
    foldl (to_dict_field (_update (plain_fields decl) data true self0)) dct
          (plain_fields dl) !! k
    = if decide (k ∈ dl.*2)
      then match kept (data !! k) with
           | Some v => Some v
           | None => dct !! k
           end
      else dct !! k.
Proof.
  induction dl as [|[a key] dl IH]; intros dct k Hsub Hk.
  - cbn. destruct (decide (k ∈ [])) as [H|]; [|reflexivity].
    now apply elem_of_nil in H.
  - cbn [plain_fields map foldl]. fold (plain_fields dl).
    cbn [fmap list_fmap snd] in Hk. apply NoDup_cons in Hk as [Hkey Hk].
    rewrite IH; [|intros x Hx; apply Hsub; now right|exact Hk].
    rewrite (to_dict_field_plain decl data self0 dct a key Hnd)
      by (apply Hsub; left).
    cbn [fmap list_fmap snd].
    destruct (decide (k = key)) as [->|Hne].
    + destruct (decide (key ∈ dl.*2)) as [|_]; [contradiction|].
      destruct (decide (key ∈ key :: dl.*2)) as [_|Hn];
        [|exfalso; apply Hn; left].
      destruct (kept (data !! key)) as [v|]; [|reflexivity].
      apply lookup_insert_eq.
    + assert (E : forall m : document,
                match kept (data !! key) with
                | Some v => <[key := v]> m
                | None => m
                end !! k = m !! k).
      { intros m. destruct (kept (data !! key)); [|reflexivity].
        now rewrite lookup_insert_ne by congruence. }
      destruct (decide (k ∈ dl.*2)) as [Hin|Hnin].
      * destruct (decide (k ∈ key :: dl.*2)) as [_|Hn];
          [|exfalso; apply Hn; now right].
        destruct (kept (data !! k)); [reflexivity|apply E].
      * destruct (decide (k ∈ key :: dl.*2)) as [Hn|_].
        -- apply elem_of_cons in Hn as [?|?]; contradiction.
        -- apply E.
Qed.



End JsonFacts.

(** ** Headers first, frames after *)

Section ReceiveFacts.

Import WebsocketFrame WebsocketProtocol DecoderSpec DataReceived.

Lemma on_fbyte_wf d position p : wf p -> wf (on_fbyte d position p).2.
Proof.
  unfold on_fbyte. destruct (is_state p WAITING_FBYTE); [|auto].
  intros [H1 H2]. split; assumption.
Qed.

Lemma on_sbyte_wf d position p : wf p -> wf (on_sbyte d position p).2.
Proof.
  unfold on_sbyte. destruct (is_state p WAITING_SBYTE); [|auto].
  intros [H1 H2].
  pose proof (get_length_range (nth position d 0)) as Hr.
  destruct (125 <? get_length (nth position d 0)).
  - split; cbn [snd cur bytes_needed length_buffer]; [|constructor].
    destruct (_ =? 126); [unfold UnsignedShort_size; lia|].
    destruct (_ =? 127); [unfold UnsignedLongLong_size; lia|exact H1].
  - split; cbn [snd cur bytes_needed length_buffer]; [lia|exact H2].
Qed.

Lemma on_length_wf d position p :
  bytes_ok d -> wf p -> (position <= length d)%nat ->
  wf (on_length d position p).2.
Proof.
  intros Hd [H1 H2] Hp. unfold on_length.
  destruct (is_state p WAITING_LENGTH); [|split; assumption].
  set (chunk := Py.slice d (Z.of_nat position)
                         (Z.of_nat position + bytes_needed (cur p))).
  assert (Hl : Z.of_nat (length chunk)
               = Z.min (bytes_needed (cur p)) (Z.of_nat (length d - position)))
    by (apply slice_length; lia).
  assert (Hb : bytes_ok (length_buffer (cur p) ++ chunk))
    by (apply Forall_app; split; [exact H2|apply slice_bytes_ok, Hd]).
  destruct (_ =? 0); split; cbn [snd cur bytes_needed length_buffer];
    try exact Hb; [apply from_bytes_nonneg, Hb|lia].
Qed.

Lemma on_data_wf d position p out :
  wf p -> (position <= length d)%nat ->
  wf (on_data d position p out).1.2.
Proof.
  intros [H1 H2] Hp. unfold on_data.
  destruct (is_state p WAITING_DATA); [|split; assumption].
  set (chunk := Py.slice d (Z.of_nat position)
                         (Z.of_nat position + bytes_needed (cur p))).
  assert (Hl : Z.of_nat (length chunk)
               = Z.min (bytes_needed (cur p)) (Z.of_nat (length d - position)))
    by (apply slice_length; lia).
  destruct (_ =? 0); [apply initial_wf|].
  split; cbn [fst snd cur bytes_needed length_buffer]; [lia|exact H2].
Qed.

Lemma loop_wf fuel : forall d position p out p' out',
  bytes_ok d -> wf p ->
  create_frames_loop fuel d position p out = Some (p', out') -> wf p'.
Proof.
  induction fuel as [|fuel IH]; intros d position p out p' out' Hd Hw;
    [discriminate|].
  rewrite loop_unfold.
  destruct (Nat.leb_spec (length d) position) as [|H0]; [congruence|].
  pose proof (on_fbyte_wf d position p Hw) as W1.
  destruct (on_fbyte d position p) as [position1 p1]. cbn [snd] in W1.
  destruct (Nat.leb_spec (length d) position1) as [|H1]; [congruence|].
  pose proof (on_sbyte_wf d position1 p1 W1) as W2.
  destruct (on_sbyte d position1 p1) as [position2 p2]. cbn [snd] in W2.
  destruct (Nat.leb_spec (length d) position2) as [|H2]; [congruence|].
  pose proof (on_length_wf d position2 p2 Hd W2 ltac:(lia)) as W3.
  destruct (on_length d position2 p2) as [position3 p3]. cbn [snd] in W3.
  destruct (Nat.leb_spec (length d) position3) as [|H3]; [congruence|].
  pose proof (on_data_wf d position3 p3 out W3 ltac:(lia)) as W4.
  destruct (on_data d position3 p3 out) as [[position4 p4] out4].
  cbn [fst snd] in W4.
  destruct (Nat.leb_spec (length d) position4) as [|H4]; [congruence|].
  apply IH; assumption.
Qed.

Lemma create_frames_total d p :
  bytes_ok d -> wf p ->
  exists p' out, create_frames d p = Some (p', out) /\ wf p'.
Proof.
  intros Hd Hw.
  assert (H : exists r, create_frames d p = Some r).
  { unfold create_frames. destruct d as [|b d]; [eexists; reflexivity|].
    apply loop_total; [exact Hd|exact Hw|].
    unfold idle. cbn [length].
    destruct (state p); try lia; destruct (_ =? 0); lia. }
  destruct H as [[p' out] H]. exists p', out. split; [exact H|].
  exact (loop_wf _ _ _ _ _ _ _ Hd Hw H).
Qed.

Lemma feed_total data r :
  bytes_ok data -> wf (machine r) ->
  exists r', feed data r = Some r'
             /\ headers r' = headers r
             /\ have_headers r' = have_headers r
             /\ wf (machine r').
Proof.
  intros Hd Hw. unfold feed.
  destruct (create_frames_total _ _ Hd Hw) as (p' & out & -> & W).
  eexists. split; [reflexivity|]. auto.
Qed.

(** Once the headers are complete every read goes to the frame machine and
    the headers stay as they are. *)
Lemma run_frames reads : forall r,
  Forall bytes_ok reads -> have_headers r = true -> wf (machine r) ->
  exists r', run reads r = Some r'
             /\ headers r' = headers r /\ have_headers r' = true.
Proof.
  induction reads as [|data reads IH]; intros r Hd Hh Hw; cbn [run].
  - exists r. auto.
  - inversion Hd as [|? ? Hd1 Hd2]; subst.
    unfold data_received. rewrite Hh. cbn [negb].
    destruct (feed_total data r Hd1 Hw) as (r1 & -> & E1 & E2 & W1).
    destruct (IH r1 Hd2) as (r' & -> & E3 & E4); [congruence|exact W1|].
    exists r'. split; [reflexivity|]. split; congruence.
Qed.

Lemma startswith_app s sub :
  startswith s sub = true -> take (length sub) s = sub.
Proof.
  revert s. induction sub as [|a sub IH]; intros [|b s]; cbn;
    try reflexivity; try discriminate.
  intros H. apply andb_prop in H as [H1 H2].
  apply Z.eqb_eq in H1. subst. f_equal. now apply IH.
Qed.

(** [index] finds an occurrence: the bytes up to its end are the bytes
    before it and then [sub]. *)
Lemma index_found sub : forall s i,
  index s sub = Some i ->
  take (i + length sub) s = take i s ++ sub.
Proof.
  induction s as [|b s IH]; intros i; cbn [index].
  - destruct (startswith [] sub) eqn:E; [|discriminate].
    intros [= <-]. cbn. now apply startswith_app.
  - destruct (startswith (b :: s) sub) eqn:E.
    + intros [= <-]. now apply startswith_app.
    + destruct (index s sub) as [j|]; [|discriminate].
      intros [= <-]. cbn. f_equal. now apply IH.
Qed.

Lemma run_no_terminator reads : forall r,
  have_headers r = false ->
  Forall (fun data => index data terminator = None) reads ->
  run reads r
  = Some (Receiver (headers r ++ concat reads) false (machine r) (pushed r)).
Proof.
  induction reads as [|data reads IH]; intros r Hh Hn; cbn [run concat].
  - rewrite app_nil_r. destruct r; cbn in *; congruence.
  - inversion Hn as [|? ? H1 H2]; subst.
    unfold data_received. rewrite Hh, H1. cbn [negb].
    rewrite IH by (try reflexivity; exact H2).
    cbn [headers machine pushed]. now rewrite <- app_assoc.
Qed.

(** X14. The reads are cut in two at the end of the first [\r\n\r\n] that
    lies inside one read: everything up to there, across all earlier
    reads, becomes the headers (which so end with the terminator and never
    change again), and the frame machine gets the rest of that read and
    then every later read, in order; no byte is dropped or seen twice.
    The call returns for every such input. *)
Theorem headers_then_frames before data after i r0 :
  have_headers r0 = false -> wf (machine r0) ->
  Forall (fun d => index d terminator = None) before ->
  index data terminator = Some i ->
  bytes_ok data -> Forall bytes_ok after ->
  exists r,
    run (before ++ data :: after) r0 = Some r
    /\ have_headers r = true
    /\ headers r
       = headers r0 ++ concat before ++ take i data ++ terminator
    /\ run (drop (i + 4) data :: after)
           (with_headers (headers r) r0) = Some r.
Proof.
  intros Hh Hw Hb Hi Hd Ha.
  set (h := headers r0 ++ concat before ++ take i data ++ terminator).
  set (r1 := Receiver (headers r0 ++ concat before) false (machine r0)
                      (pushed r0)).
  assert (E1 : forall rest, run (before ++ rest) r0 = run rest r1).
  { intros rest. clear -Hh Hb. subst r1. revert r0 Hh.
    induction before as [|d before IH]; intros r0 Hh; cbn [app run concat].
    - rewrite app_nil_r. destruct r0; cbn in *; congruence.
    - inversion Hb as [|? ? H1 H2]; subst.
      unfold data_received. rewrite Hh, H1. cbn [negb].
      rewrite (IH H2) by reflexivity.
      cbn [headers machine pushed]. now rewrite <- app_assoc. }
  pose proof (index_found terminator data i Hi) as F.
  assert (L : (i + 4 <= length data)%nat).
  { apply (f_equal length) in F.
    rewrite length_take, length_app, length_take in F. cbn in F. lia. }
  assert (Es : Py.slice data (Z.of_nat i + 4) (Z.of_nat (length data))
               = drop (i + 4) data).
  { unfold Py.slice, Py.norm_index.
    destruct (Z.ltb_spec (Z.of_nat i + 4) 0); [lia|].
    destruct (Z.ltb_spec (Z.of_nat (length data)) 0); [lia|].
    rewrite take_ge by (rewrite length_drop; lia).
    f_equal. lia. }
  assert (Eh : Py.slice data 0 (Z.of_nat i + 4) = take i data ++ terminator).
  { rewrite <- F. unfold Py.slice, Py.norm_index.
    destruct (Z.ltb_spec 0 0); [lia|].
    destruct (Z.ltb_spec (Z.of_nat i + 4) 0); [lia|].
    replace (Z.to_nat (Z.min 0 (Z.of_nat (length data)))) with 0%nat by lia.
    rewrite drop_0. f_equal. cbn [length terminator]. lia. }
  assert (Hdrop : bytes_ok (drop (i + 4) data)) by now apply Forall_drop.
  destruct (run_frames (drop (i + 4) data :: after) (Receiver h true (machine r0) (pushed r0)))
    as (r & R & Rh & Rt); [constructor; assumption|reflexivity|exact Hw|].
  cbn [headers] in Rh.
  exists r. split; [|split; [exact Rt|split; [exact Rh|]]].
  - rewrite E1. cbn [run]. unfold data_received at 1.
    cbn [have_headers negb r1]. rewrite Hi. cbv zeta.
    rewrite Es, Eh. subst r1. cbn [headers machine pushed].
    cbn [run] in R. unfold data_received at 1 in R.
    cbn [have_headers negb] in R.
    replace ((headers r0 ++ concat before) ++ take i data ++ terminator)
      with h by (subst h; now rewrite <- app_assoc).
    exact R.
  - unfold with_headers. rewrite Rh. exact R.
Qed.

Lemma headers_then_frames_witness :
  exists r,
    run whole_reads init = Some r
    /\ have_headers r = true
    /\ headers r = [72; 84; 84; 80; 13; 10; 13; 10]
    /\ run [[0x81; 1]; [104; 0x81; 0]] (with_headers (headers r) init)
       = Some r.
Proof.
  destruct (headers_then_frames [[72; 84]] [84; 80; 13; 10; 13; 10; 0x81; 1]
              [[104; 0x81; 0]] 2 init)
    as (r & H1 & H2 & H3 & H4).
  - reflexivity.
  - exact initial_wf.
  - repeat constructor.
  - reflexivity.
  - unfold bytes_ok. repeat constructor; lia.
  - repeat constructor; lia.
  - exists r. repeat split; assumption.
Defined.

(** X15. A terminator that no single read contains is never seen: when
    [\r\n\r\n] is cut by a read boundary (or does not come at all), every
    byte of every read, frames included, is appended to the headers,
    [have_headers] stays unset and the frame machine is never run. *)
Theorem cut_terminator_is_missed reads r0 :
  have_headers r0 = false ->
  Forall (fun data => index data terminator = None) reads ->
  exists r,
    run reads r0 = Some r
    /\ have_headers r = false
    /\ headers r = headers r0 ++ concat reads
    /\ machine r = machine r0 /\ pushed r = pushed r0.
Proof.
  intros Hh Hn. eexists. split; [now apply run_no_terminator|].
  repeat split.
Qed.

Lemma cut_terminator_is_missed_witness :
  index (concat cut_reads) terminator = Some 4%nat
  /\ exists r,
       run cut_reads init = Some r
       /\ have_headers r = false
       /\ headers r = concat cut_reads
       /\ machine r = initial /\ pushed r = [].
Proof.
  split; [reflexivity|].
  apply (cut_terminator_is_missed cut_reads init).
  - reflexivity.
  - repeat constructor.
Defined.

End ReceiveFacts.

(** ** Fields of a subclass *)

Section SubclassFacts.

Import Json JsonSubclass.

Lemma dict_get_set k k' v d :
  dict_get k (dict_set k' v d)
  = if String.eqb k k' then Some v else dict_get k d.
Proof.
  induction d as [|[k1 v1] d IH]; cbn [dict_set dict_get]; [reflexivity|].
  destruct (String.eqb_spec k' k1) as [->|N1]; cbn [dict_get].
  - destruct (String.eqb k k1); reflexivity.
  - rewrite IH. destruct (String.eqb_spec k k') as [->|N2]; [|reflexivity].
    destruct (String.eqb_spec k' k1); [contradiction|reflexivity].
Qed.

Lemma dict_get_absent k (d : fields) : k ∉ d.*1 -> dict_get k d = None.
Proof.
  induction d as [|[k1 v1] d IH]; cbn [dict_get fmap list_fmap fst];
    [reflexivity|].
  intros H. apply not_elem_of_cons in H as [H1 H2].
  destruct (String.eqb_spec k k1); [contradiction|]. now apply IH.
Qed.

Lemma dict_get_update k (other : fields) : forall d,
  is_dict other ->
  dict_get k (dict_update d other)
  = match dict_get k other with
    | Some v => Some v
    | None => dict_get k d
    end.
Proof.
  unfold is_dict, dict_update.
  induction other as [|[k1 v1] other IH]; intros d Hn;
    cbn [foldl dict_get]; [reflexivity|].
  cbn [fmap list_fmap fst] in Hn. apply NoDup_cons in Hn as [H1 H2].
  rewrite IH by exact H2. rewrite dict_get_set.
  destruct (String.eqb_spec k k1) as [->|N]; [|reflexivity].
  now rewrite dict_get_absent.
Qed.

Lemma inherited_snoc attr bases bcls :
  inherited attr (bases ++ [bcls])
  = match bcls ≫= dict_get attr with
    | Some f => Some f
    | None => inherited attr bases
    end.
Proof.
  unfold inherited. rewrite omap_app. cbn [omap list_omap].
  destruct (bcls ≫= dict_get attr).
  - now rewrite last_snoc.
  - now rewrite app_nil_r.
Qed.

Lemma updates_get attr bases : forall d,
  Forall (fun bcls => forall other, bcls = Some other -> is_dict other)
         bases ->
  dict_get attr
    (foldl (fun d bcls =>
              match bcls with
              | Some other => dict_update d other
              | None => d
              end) d bases)
  = match inherited attr bases with
    | Some f => Some f
    | None => dict_get attr d
    end.
Proof.
  induction bases as [|bcls bases IH] using rev_ind; intros d Hb;
    [reflexivity|].
  apply Forall_app in Hb as [Hb1 Hb2]. inversion Hb2 as [|? ? Hb3 _]; subst.
  rewrite foldl_app, inherited_snoc. cbn [foldl].
  destruct bcls as [other|]; cbn [mbind option_bind].
  - rewrite dict_get_update by now apply Hb3.
    destruct (dict_get attr other); [reflexivity|]. now apply IH.
  - now apply IH.
Qed.

Lemma inherited_none attr bases d :
  inherited attr bases = None -> Some d ∈ bases -> dict_get attr d = None.
Proof.
  unfold inherited. intros H Hin.
  destruct (dict_get attr d) as [f|] eqn:E; [|reflexivity].
  assert (Hf : f ∈ omap (fun bcls => bcls ≫= dict_get attr) bases)
    by (apply list_elem_of_omap; exists (Some d); split; [exact Hin|exact E]).
  destruct (omap _ bases) as [|x l] using rev_ind;
    [now apply elem_of_nil in Hf|].
  rewrite last_snoc in H. discriminate.
Qed.

(** X16. A subclass cannot redeclare a field of a base: in the table
    [__init_subclass__] leaves on the class, an attribute that some direct
    base declares carries the field of the last such base, whatever the
    class body says; only attributes no base declares keep the class's own
    field.  The hook fails only for a class with no table of its own and
    none to inherit. *)
Theorem base_fields_override_own own bases attr :
  Forall (fun bcls => forall other, bcls = Some other -> is_dict other)
         bases ->
  (init_subclass own bases = None
   <-> own = None /\ Forall (fun bcls => bcls = None) bases)
  /\ forall fs,
       init_subclass own bases = Some fs ->
       dict_get attr fs
       = match inherited attr bases with
         | Some f => Some f
         | None => own ≫= dict_get attr
         end.
Proof.
  intros Hb. unfold init_subclass. destruct own as [d|].
  - split.
    + split; [discriminate|]. intros [H _]. discriminate.
    + intros fs [= <-]. now apply updates_get.
  - destruct (head (omap id bases)) as [d|] eqn:E.
    + split.
      * split; [discriminate|]. intros [_ H]. exfalso.
        apply head_Some_elem_of in E. apply list_elem_of_omap in E.
        destruct E as (b & Hin & Eb).
        rewrite Forall_forall in H. rewrite (H _ Hin) in Eb. discriminate.
      * intros fs [= <-]. rewrite updates_get by exact Hb.
        destruct (inherited attr bases) eqn:I; [reflexivity|].
        cbn [mbind option_bind]. apply (inherited_none attr bases d I).
        apply head_Some_elem_of in E. apply list_elem_of_omap in E.
        destruct E as ([b|] & Hin & Eb); [|discriminate].
        cbn in Eb. congruence.
    + split; [|discriminate]. split; [intros _|reflexivity].
      split; [reflexivity|].
      apply Forall_forall. intros [b|] Hin; [|reflexivity]. exfalso.
      assert (Hd : b ∈ omap id bases)
        by (apply list_elem_of_omap; exists (Some b); auto).
      destruct (omap id bases); [now apply elem_of_nil in Hd|discriminate].
Qed.

Lemma base_fields_override_own_witness :
  exists fs,
    init_subclass (Some sample_body) [None; Some sample_base] = Some fs
    /\ dict_get "type" sample_body = Some (plain "type")
    /\ dict_get "type" fs = Some (plain "kind")
    /\ dict_get "allow" fs = dict_get "allow" sample_body.
Proof.
  assert (Hb : Forall (fun bcls => forall other,
                         bcls = Some other -> is_dict other)
                      [None; Some sample_base]).
  { repeat constructor; [discriminate|].
    intros other [= <-]. unfold is_dict.
    refine (bool_decide_unpack _ _). vm_compute. exact I. }
  eexists. split; [reflexivity|]. split; [reflexivity|]. split.
  - exact (proj2 (base_fields_override_own (Some sample_body)
                    [None; Some sample_base] "type" Hb) _ eq_refl).
  - exact (proj2 (base_fields_override_own (Some sample_body)
                    [None; Some sample_base] "allow" Hb) _ eq_refl).
Defined.

End SubclassFacts.

(** ** Keyword arguments of a struct *)

Section CStructFacts.

Import CStruct.

Context {V : Type}.

Lemma pop_none field (kw : kwargs V) :
  pop field kw = None <-> field ∉ kw.*1.
Proof.
  induction kw as [|[k v] kw IH]; cbn [pop fmap list_fmap fst].
  - split; [intros _; apply not_elem_of_nil|reflexivity].
  - rewrite not_elem_of_cons.
    destruct (String.eqb_spec field k) as [->|N].
    + split; [discriminate|]. intros [H _]. contradiction.
    + destruct (pop field kw) as [[x rest]|].
      * split; [discriminate|]. intros [_ H]. now apply IH in H.
      * split; [|reflexivity]. intros _. split; [exact N|now apply IH].
Qed.

Lemma pop_some field (kw : kwargs V) v rest :
  pop field kw = Some (v, rest) ->
  exists pre post,
    kw = pre ++ (field, v) :: post /\ rest = pre ++ post
    /\ field ∉ pre.*1.
Proof.
  revert rest. induction kw as [|[k x] kw IH]; intros rest; cbn [pop];
    [discriminate|].
  destruct (String.eqb_spec field k) as [->|N].
  - intros [= <- <-]. exists [], kw. repeat split. apply not_elem_of_nil.
  - destruct (pop field kw) as [[y r]|]; [|discriminate].
    intros [= <- <-]. destruct (IH r eq_refl) as (pre & post & -> & -> & H).
    exists ((k, x) :: pre), post. repeat split.
    cbn [fmap list_fmap fst]. apply not_elem_of_cons. auto.
Qed.

Lemma filter_agree {A} (P Q : A -> Prop) `{forall x, Decision (P x)}
    `{forall x, Decision (Q x)} (l : list A) :
  (forall x, x ∈ l -> P x <-> Q x) -> filter P l = filter Q l.
Proof.
  induction l as [|y l IH]; intros E; [reflexivity|].
  rewrite !filter_cons.
  assert (Ey : P y <-> Q y) by (apply E; now left).
  rewrite IH by (intros x Hx; apply E; now right).
  destruct (decide (P y)), (decide (Q y)); tauto.
Qed.

(** The loop either stops at the first field that is not a key, or pops
    every field and leaves the other entries in their order. *)
Lemma collect_spec name fields : forall (kw : kwargs V) args,
  NoDup fields -> NoDup kw.*1 ->
  match collect fields kw name args with
  | inl (args', rest) =>
      Forall (fun field => field ∈ kw.*1) fields
      /\ rest = filter (fun kv => kv.1 ∉ fields) kw
      /\ exists vs, args' = args ++ vs
                    /\ Forall2 (fun field v => (field, v) ∈ kw) fields vs
  | inr e => exists field, e = Missing name field
                           /\ first_outside kw.*1 fields field
  end.
Proof.
  induction fields as [|field fields IH]; intros kw args Hf Hk;
    cbn [collect].
  - split; [constructor|]. split.
    + symmetry. clear Hk. induction kw as [|kv kw IHk]; [reflexivity|].
      rewrite filter_cons_True by apply not_elem_of_nil.
      f_equal. exact IHk.
    + exists []. split; [now rewrite app_nil_r|constructor].
  - apply NoDup_cons in Hf as [Hf1 Hf2].
    destruct (pop field kw) as [[v rest]|] eqn:E.
    + destruct (pop_some _ _ _ _ E) as (pre & post & -> & -> & Hp).
      assert (Hk' : NoDup (pre ++ post).*1).
      { rewrite fmap_app in *. cbn [fmap list_fmap fst] in Hk.
        apply NoDup_app in Hk as (H1 & H2 & H3).
        apply NoDup_cons in H3 as [_ H3].
        apply NoDup_app. split; [exact H1|]. split; [|exact H3].
        intros x Hx Hx'. apply (H2 x Hx). now right. }
      assert (Hpost : field ∉ post.*1).
      { rewrite fmap_app in Hk. cbn [fmap list_fmap fst] in Hk.
        apply NoDup_app in Hk as (_ & _ & H3).
        now apply NoDup_cons in H3 as [H3 _]. }
      specialize (IH (pre ++ post) (args ++ [v]) Hf2 Hk').
      destruct (collect fields (pre ++ post) name (args ++ [v]))
        as [[args' rest]|e].
      * destruct IH as (A & B & vs & C & D).
        assert (Hsub : forall x, x ∈ pre ++ post ->
                                 x ∈ pre ++ (field, v) :: post).
        { intros x Hx. apply elem_of_app in Hx as [Hx|Hx];
            apply elem_of_app; [now left|right; now right]. }
        split; [|split].
        -- constructor.
           ++ rewrite fmap_app. apply elem_of_app. right. now left.
           ++ eapply Forall_impl; [exact A|]. intros x Hx.
              apply list_elem_of_fmap in Hx as (y & -> & Hy).
              apply list_elem_of_fmap. exists y. split; [reflexivity|].
              now apply Hsub.
        -- rewrite B. rewrite !filter_app.
           rewrite filter_cons_False
             by (cbn [fst]; intros H; apply H; now left).
           f_equal; apply filter_agree.
           ++ intros [k x] Hx. cbn [fst]. rewrite not_elem_of_cons.
              split; [|tauto]. intros H. split; [|exact H].
              intros ->. apply Hp. apply list_elem_of_fmap.
              exists (field, x). auto.
           ++ intros [k x] Hx. cbn [fst]. rewrite not_elem_of_cons.
              split; [|tauto]. intros H. split; [|exact H].
              intros ->. apply Hpost. apply list_elem_of_fmap.
              exists (field, x). auto.
        -- exists (v :: vs). split; [now rewrite C, <- app_assoc|].
           constructor.
           ++ apply elem_of_app. right. now left.
           ++ eapply Forall2_impl; [exact D|]. intros x y Hx. now apply Hsub.
      * destruct IH as (f & -> & pre' & post' & -> & A & B).
        exists f. split; [reflexivity|].
        exists (field :: pre'), post'. split; [reflexivity|]. split.
        -- constructor.
           ++ rewrite fmap_app. apply elem_of_app. right. now left.
           ++ eapply Forall_impl; [exact A|]. intros x.
              rewrite !fmap_app. cbn [fmap list_fmap fst].
              rewrite !elem_of_app, elem_of_cons. tauto.
        -- assert (Hne : f <> field).
           { intros ->. apply Hf1. apply elem_of_app. right. now left. }
           revert B. rewrite !fmap_app. cbn [fmap list_fmap fst].
           rewrite !elem_of_app, elem_of_cons. tauto.
    + exists field. split; [reflexivity|].
      exists [], fields. split; [reflexivity|]. split; [constructor|].
      now apply pop_none.
Qed.

Lemma filter_head {A} (P : A -> Prop) `{forall x, Decision (P x)} l x r :
  filter P l = x :: r ->
  exists pre post, l = pre ++ x :: post /\ Forall (fun y => ~ P y) pre /\ P x.
Proof.
  induction l as [|y l IH]; [discriminate|].
  destruct (decide (P y)) as [Hy|Hy].
  - rewrite filter_cons_True by exact Hy. intros [= -> _].
    exists [], l. repeat split; [constructor|exact Hy].
  - rewrite filter_cons_False by exact Hy. intros E.
    destruct (IH E) as (pre & post & -> & Hpre & Hx).
    exists (y :: pre), post. repeat split; [now constructor|exact Hx].
Qed.

(** X17. [_get_args] answers by the keys alone.  It returns, for a
    struct's fields and a call's keyword arguments, exactly when the
    keywords are the fields, and then the values in field order; else it
    raises TypeError naming the first field (in field order) that was not
    given, or, when every field was given, the first keyword (in call
    order) that is no field. *)
Theorem get_args_verdict fields (kw : kwargs V) name :
  NoDup fields -> NoDup kw.*1 ->
  verdict fields kw name (_get_args fields kw name).
Proof.
  intros Hf Hk. unfold _get_args.
  pose proof (collect_spec name fields kw [] Hf Hk) as H.
  destruct (collect fields kw name []) as [[args rest]|e].
  - destruct H as (A & B & vs & C & D). cbn [app] in C. subst vs.
    destruct rest as [|[arg x] rest]; cbn [verdict].
    + split; [|exact D].
      apply NoDup_Permutation; [exact Hk|exact Hf|].
      intros k. split.
      * intros Hin. destruct (decide (k ∈ fields)) as [|N]; [assumption|].
        exfalso. apply list_elem_of_fmap in Hin as ([k' y] & -> & Hy).
        assert (Hy' : (k', y) ∈ filter (fun kv => kv.1 ∉ fields) kw)
          by (apply list_elem_of_filter; split; [exact N|exact Hy]).
        rewrite <- B in Hy'. now apply elem_of_nil in Hy'.
      * intros Hin. rewrite Forall_forall in A. now apply A.
    + split; [reflexivity|]. split; [exact A|].
      symmetry in B.
      destruct (filter_head _ _ _ _ B) as (pre & post & -> & P & Q).
      exists pre.*1, post.*1. split; [now rewrite fmap_app|]. split.
      * apply Forall_fmap. eapply Forall_impl; [exact P|].
        intros [k y] Hn. cbn [fst compose] in *.
        destruct (decide (k ∈ fields)); [assumption|contradiction].
      * exact Q.
  - destruct H as (f & -> & H). cbn [verdict]. split; [reflexivity|exact H].
Qed.

End CStructFacts.

Lemma get_args_verdict_witness :
  CStruct._get_args ["x"; "y"]%string [("y", 2); ("x", 1)]%string
    "pack"%string = inl [1; 2]
  /\ CStruct.verdict ["x"; "y"]%string [("y", 2); ("z", 3); ("x", 1)]%string
       "pack"%string (inr (CStruct.Unexpected "pack" "z"))
  /\ CStruct.verdict ["x"; "y"; "w"]%string [("z", 3); ("x", 1)]%string
       "pack"%string (inr (CStruct.Missing "pack" "y")).
Proof.
  split; [reflexivity|]. split.
  - refine (get_args_verdict ["x"; "y"]%string
              [("y", 2); ("z", 3); ("x", 1)]%string "pack"%string _ _);
      refine (bool_decide_unpack _ _); vm_compute; exact I.
  - refine (get_args_verdict ["x"; "y"; "w"]%string
              [("z", 3); ("x", 1)]%string "pack"%string _ _);
      refine (bool_decide_unpack _ _); vm_compute; exact I.
Defined.

(** ** The stored headers can be iterated *)

Section HeaderScanFacts.

Import Bytes Handshake HeaderScan.

Local Open Scope nat_scope.

Lemma prefix_crlf s :
  String.prefix CRLF s = true -> exists t, s = String CR (String LF t).
Proof.
  unfold CRLF. destruct s as [|a [|b t]]; cbn [String.prefix].
  - discriminate.
  - destruct (ascii_dec CR a); discriminate.
  - destruct (ascii_dec CR a) as [<-|]; [|discriminate].
    destruct (ascii_dec LF b) as [<-|]; [|discriminate].
    intros _. now exists t.
Qed.

Lemma prefix_crlf_intro t : String.prefix CRLF (String CR (String LF t)) = true.
Proof.
  unfold CRLF. cbn [String.prefix].
  destruct (ascii_dec CR CR); [|contradiction].
  destruct (ascii_dec LF LF); [|contradiction].
  destruct t; reflexivity.
Qed.

Lemma find_crlf_here t : find CRLF (String CR (String LF t)) = Some 0.
Proof. cbn [find]. now rewrite prefix_crlf_intro. Qed.

Lemma skip_empty n : skip n EmptyString = EmptyString.
Proof. destruct n; reflexivity. Qed.

Lemma skip_add a : forall b s, skip (a + b) s = skip b (skip a s).
Proof.
  induction a as [|a IH]; intros b s; [reflexivity|].
  destruct s as [|c s]; cbn [Nat.add skip]; [now rewrite skip_empty|apply IH].
Qed.

Lemma append_length a b :
  String.length (String.append a b) = String.length a + String.length b.
Proof.
  induction a as [|c a IH]; [reflexivity|].
  change (S (String.length (String.append a b))
          = S (String.length a + String.length b)).
  now rewrite IH.
Qed.

(** Scanning a text that ends with the blank line: the next line break
    is found, and what lies behind it still ends well. *)
Lemma scan_suffix t :
  exists i,
    find CRLF (String.append t CRLFCRLF) = Some i
    /\ ends_well (skip (i + 2) (String.append t CRLFCRLF)).
Proof.
  induction t as [|c t IH].
  - exists 0. split; [apply find_crlf_here|]. right. reflexivity.
  - change (String.append (String c t) CRLFCRLF)
      with (String c (String.append t CRLFCRLF)).
    destruct (String.prefix CRLF (String c (String.append t CRLFCRLF)))
      eqn:P.
    + exists 0. apply prefix_crlf in P as [u P].
      injection P as -> P. split; [rewrite P; apply find_crlf_here|].
      destruct t as [|a t].
      * exfalso. vm_compute in P. discriminate P.
      * cbn [String.append] in P. injection P as -> <-.
        left. now exists t.
    + destruct IH as (i & F & W). exists (S i).
      cbn [find]. rewrite P, F. split; [reflexivity|exact W].
Qed.

Lemma next_on_suffix headers offset :
  offset <= String.length headers ->
  iter_headers_next headers offset
  = match find CRLF (skip offset headers) with
    | None => Throw ValueError
    | Some i =>
        if String.eqb (keep (i + 2) (skip offset headers)) CRLF then Return
        else Yield (map (fun v => lower (strip v))
                        (split_once ":" (keep (i + 2) (skip offset headers))))
                   (offset + i + 2)
    end.
Proof.
  intros Ho. unfold iter_headers_next, index.
  rewrite (proj2 (Nat.ltb_ge _ _)) by exact Ho.
  destruct (find CRLF (skip offset headers)) as [i|]; [|reflexivity].
  cbn [option_map]. unfold slice.
  replace (offset + i + 2 - offset) with (i + 2) by lia. reflexivity.
Qed.

Lemma ends_well_length s : ends_well s -> 2 <= String.length s.
Proof.
  intros [[t ->]| ->]; [|change (2 <= 2); lia].
  rewrite append_length. change (String.length CRLFCRLF) with 4. lia.
Qed.

(** The generator comes to its [return] on headers that end well. *)
Lemma drain_ends_well headers : forall fuel offset items,
  ends_well (skip offset headers) ->
  String.length (skip offset headers) < fuel ->
  exists items', drain fuel headers offset items = Some (Returned items').
Proof.
  induction fuel as [|fuel IH]; intros offset items W Hf; [lia|].
  pose proof (ends_well_length _ W) as L.
  assert (Ho : offset <= String.length headers)
    by (rewrite skip_length in L; lia).
  cbn [drain]. rewrite next_on_suffix by exact Ho.
  destruct W as [[t E]|E]; rewrite E in *.
  - destruct (scan_suffix t) as (i & -> & W').
    destruct (String.eqb _ CRLF); [eexists; reflexivity|].
    apply IH.
    + replace (offset + i + 2) with (offset + (i + 2)) by lia.
      rewrite skip_add, E. exact W'.
    + replace (offset + i + 2) with (offset + (i + 2)) by lia.
      rewrite skip_add, E, skip_length. lia.
  - eexists. reflexivity.
Qed.

Lemma iter_headers_complete h :
  exists items,
    iter_headers (String.append h CRLFCRLF) = Some (Returned items).
Proof.
  unfold iter_headers. apply drain_ends_well.
  - left. now exists h.
  - cbn [skip]. lia.
Qed.

Lemma byte_string_terminator h :
  byte_string (h ++ DataReceived.terminator)
  = String.append (byte_string h) CRLFCRLF.
Proof.
  induction h as [|x h IH]; [reflexivity|].
  change (String (ascii_of_nat (Z.to_nat x))
            (byte_string (h ++ DataReceived.terminator))
          = String (ascii_of_nat (Z.to_nat x))
              (String.append (byte_string h) CRLFCRLF)).
  now rewrite IH.
Qed.

Lemma slice_to_terminator data i :
  DataReceived.index data DataReceived.terminator = Some i ->
  Py.slice data 0 (Z.of_nat i + 4)
  = take i data ++ DataReceived.terminator.
Proof.
  intros Hi. pose proof (index_found _ _ _ Hi) as F.
  assert (L : i + 4 <= length data).
  { apply (f_equal length) in F.
    rewrite length_take, length_app, length_take in F. cbn in F. lia. }
  rewrite <- F. unfold Py.slice, Py.norm_index.
  destruct (Z.ltb_spec 0 0); [lia|].
  destruct (Z.ltb_spec (Z.of_nat i + 4) 0); [lia|].
  replace (Z.to_nat (Z.min 0 (Z.of_nat (length data)))) with 0 by lia.
  rewrite drop_0. f_equal. cbn [length DataReceived.terminator]. lia.
Qed.

Lemma feed_headers data r r' :
  DataReceived.feed data r = Some r' ->
  DataReceived.headers r' = DataReceived.headers r
  /\ DataReceived.have_headers r' = DataReceived.have_headers r.
Proof.
  unfold DataReceived.feed.
  destruct (WebsocketProtocol.create_frames _ _) as [[p out]|];
    [|discriminate].
  intros [= <-]. split; reflexivity.
Qed.

(** Set headers end with the terminator. *)
Lemma data_received_terminated data r r' :
  DataReceived.data_received data r = Some r' ->
  (DataReceived.have_headers r = true ->
   exists h, DataReceived.headers r = h ++ DataReceived.terminator) ->
  DataReceived.have_headers r' = true ->
  exists h, DataReceived.headers r' = h ++ DataReceived.terminator.
Proof.
  unfold DataReceived.data_received.
  destruct (DataReceived.have_headers r) eqn:Hh; cbn [negb].
  - intros E Inv _. apply feed_headers in E as [E _].
    rewrite E. now apply Inv.
  - destruct (DataReceived.index data DataReceived.terminator) as [i|] eqn:Hi.
    + intros E _ _. apply feed_headers in E as [E _].
      rewrite E. cbn [DataReceived.headers].
      rewrite (slice_to_terminator _ _ Hi).
      exists (DataReceived.headers r ++ take i data).
      now rewrite <- app_assoc.
    + intros [= <-]. cbn [DataReceived.have_headers]. congruence.
Qed.

Lemma run_terminated reads : forall r r',
  DataReceived.run reads r = Some r' ->
  (DataReceived.have_headers r = true ->
   exists h, DataReceived.headers r = h ++ DataReceived.terminator) ->
  DataReceived.have_headers r' = true ->
  exists h, DataReceived.headers r' = h ++ DataReceived.terminator.
Proof.
  induction reads as [|data reads IH]; intros r r'; cbn [DataReceived.run].
  - intros [= <-] Inv. exact Inv.
  - destruct (DataReceived.data_received data r) as [r1|] eqn:E;
      [|discriminate].
    intros R Inv. apply (IH _ _ R).
    now apply (data_received_terminated _ _ _ E).
Qed.

(** X18. When [connect] is woken by [have_headers], the generator
    [iter_headers] can be run to its end on the stored headers: whatever
    reads set the event, every [index] call finds a line break and the
    generator stops at the blank line, so it never raises ValueError.
    (Headers without the blank line, which [connect] would meet if it did
    not wait, do raise it.) *)
Theorem woken_connect_iterates_headers reads r :
  DataReceived.run reads DataReceived.init = Some r ->
  DataReceived.have_headers r = true ->
  exists items,
    iter_headers (byte_string (DataReceived.headers r))
    = Some (Returned items).
Proof.
  intros R Hh.
  destruct (run_terminated reads _ _ R) as [h E];
    [discriminate|exact Hh|].
  rewrite E, byte_string_terminator. apply iter_headers_complete.
Qed.

Lemma woken_connect_iterates_headers_witness :
  exists r items,
    DataReceived.run DataReceived.whole_reads DataReceived.init = Some r
    /\ iter_headers (byte_string (DataReceived.headers r))
       = Some (Returned items)
    /\ iter_headers (byte_string [72; 84; 84; 80; 13; 10]%Z)
       = Some (Threw ValueError [["http"%string]]).
Proof.
  destruct (DataReceived.run DataReceived.whole_reads DataReceived.init)
    as [r|] eqn:E; [|vm_compute in E; discriminate E].
  assert (Hh : DataReceived.have_headers r = true).
  { assert (E' := E). vm_compute in E'. injection E' as <-. reflexivity. }
  destruct (woken_connect_iterates_headers _ _ E Hh) as [items I].
  exists r, items. split; [reflexivity|]. split; [exact I|].
  vm_compute. reflexivity.
Defined.

End HeaderScanFacts.

(** ** A request lost to a 429 *)

Section LostRequest.

Import Ratelimiter Spec BucketSpec.

Lemma settle_queue t p w : queue (rl (settle t p w)) = queue (rl w).
Proof. unfold settle. destruct (requests w !! t); reflexivity. Qed.

(** In a wedged bucket the queue only grows. *)
Lemma step_wedged_queue l w w' :
  step l w = Some w' -> wedged w ->
  exists more, queue (rl w') = queue (rl w) ++ more.
Proof.
  destruct l as [r|t|t resp|t|t|now]; cbn [step].
  - intros E _. assert (E' : (request (Wrapped r) w).2 = w') by congruence.
    subst w'. eexists. exact (proj1 (proj2 (proj2 (request_logs _ w)))).
  - intros E H. rewrite (wedged_resume t w H) in E. discriminate.
  - unfold on_response. destruct (requests w !! t) as [rt|]; [|discriminate].
    cbn [mbind option_bind]. destruct (rpc rt), (target rt); try discriminate.
    + destruct (status resp =? 429); intros [= <-] H; exists [];
        rewrite app_nil_r.
      * assert (E : match current_burst_task (rl w) with
                    | Some b => cancel b w
                    | None => w
                    end = w)
          by (destruct (current_burst_task (rl w));
              [now apply wedged_cancel|reflexivity]).
        rewrite E. reflexivity.
      * rewrite settle_queue.
        destruct (x_ratelimit_limit resp), (x_ratelimit_remaining resp),
          (x_ratelimit_reset resp); reflexivity.
    + intros [= <-] _. exists []. now rewrite app_nil_r, settle_queue.
  - unfold on_text. destruct (requests w !! t) as [rt|]; [|discriminate].
    cbn [mbind option_bind].
    destruct (rpc rt) as [|data| | |]; try discriminate.
    destruct (target rt) as [r|r]; [|destruct data; discriminate].
    destruct data as [|[ra|]].
    + intros [= <-] _. exists []. now rewrite app_nil_r, settle_queue.
    + match goal with
      | |- context [request (Bare r) ?x] =>
          pose proof (request_logs (Bare r) x) as (_ & _ & L & _);
          destruct (request (Bare r) x) as [f w2]
      end.
      intros [= <-] _. cbn [snd] in L. eexists. exact L.
    + intros [= <-] _. exists []. now rewrite app_nil_r, settle_queue.
  - unfold on_retry_done. destruct (requests w !! t) as [rt|]; [|discriminate].
    cbn [mbind option_bind]. destruct (rpc rt); try discriminate.
    destruct (existsb _ _); [|discriminate]. intros [= <-] _.
    exists []. now rewrite app_nil_r, settle_queue.
  - destruct (Qle_bool _ _); [|discriminate]. intros [= <-] _.
    exists []. now rewrite app_nil_r.
Qed.

Lemma run_wedged_queue ls : forall w w',
  wedged w -> run ls w = Some w' ->
  wedged w' /\ dispatched w' = dispatched w
  /\ exists more, queue (rl w') = queue (rl w) ++ more.
Proof.
  induction ls as [|l ls IH]; intros w w' Hw H; cbn [run] in H.
  - injection H as <-. split; [exact Hw|]. split; [reflexivity|].
    exists []. now rewrite app_nil_r.
  - destruct (step l w) as [w1|] eqn:E; [|discriminate].
    cbn [mbind option_bind] in H.
    destruct (step_wedged _ _ _ E Hw) as [H1 H2].
    destruct (step_wedged_queue _ _ _ E Hw) as [m1 Q1].
    destruct (IH _ _ H1 H) as (H3 & H4 & m2 & Q2).
    split; [exact H3|]. split; [congruence|].
    exists (m1 ++ m2). rewrite Q2, Q1. now rewrite app_assoc.
Qed.

(** C2. A request lost to a 429.  Three requests go to one bucket; the
    429 for the second comes in while the burst task that dispatched it
    is still draining the queue.  [_request] does what it should: it
    cancels the burst task, sets [remaining] to 0, raises the header
    signal and puts the operation back at the tail of the queue, where
    its wrapper awaits the future 7.  But the cancelled burst task never
    clears [current_burst_task], so no burst task is ever started again:
    whatever is submitted or answered afterwards, the operation stays in
    the queue and is never dispatched a second time. *)
Theorem resubmitted_request_is_never_sent :
  exists w,
    run throttled_mid_burst boot = Some w
    /\ dispatched w = [Wrapped 1; Wrapped 2]
    /\ requests w !! 6%nat = Some (RequestTask (Wrapped 2) 3 (AwaitRetry 7))
    /\ _remaining (rl w) = Fin 0
    /\ queue (rl w) = [(Wrapped 3, 5%nat); (Bare 2, 7%nat)]
    /\ forall ls w',
         run ls w = Some w' ->
         dispatched w' = [Wrapped 1; Wrapped 2]
         /\ In (Bare 2, 7%nat) (queue (rl w')).
Proof.
  destruct (run throttled_mid_burst boot) as [w|] eqn:E;
    [|vm_compute in E; discriminate E].
  assert (Ew := E). vm_compute in Ew. injection Ew as Ew.
  assert (Hw : wedged w).
  { rewrite <- Ew. split; [reflexivity|]. split; [eexists; reflexivity|].
    cbn [bursts].
    apply (proj1 (map_Forall_lookup
                    (fun (_ : nat) (b : burst) => alive (pc b) = false) _)).
    refine (bool_decide_unpack _ _). vm_compute. exact I. }
  assert (Hd : dispatched w = [Wrapped 1; Wrapped 2])
    by (rewrite <- Ew; reflexivity).
  assert (Hq : queue (rl w) = [(Wrapped 3, 5%nat); (Bare 2, 7%nat)])
    by (rewrite <- Ew; reflexivity).
  exists w. split; [reflexivity|]. split; [exact Hd|].
  split; [rewrite <- Ew; vm_compute; reflexivity|].
  split; [rewrite <- Ew; reflexivity|]. split; [exact Hq|].
  intros ls w' R.
  destruct (run_wedged_queue ls w w' Hw R) as (_ & D & more & Q).
  split; [congruence|]. rewrite Q, Hq. cbn. auto.
Qed.

End LostRequest.
